(** * memoryscanner: pattern compilation, matching and the region walk

    A shallow embedding of the Go package [memoryscanner]
    (pattern.go, the types file and the scanner file) together with the
    properties its design document states about it.

    Conventions.
    - A Go [byte] is an [ascii] (eight bits); a Go [string] is a Rocq
      [string], i.e. a sequence of bytes, as in Go.
    - A Go [int] is a [Z]; lengths are never negative and never overflow.
    - A [uint64] is a [Z] reduced modulo [2^64] wherever the source
      computes with it ([wrap64]); [uintptr] has the same 64 bits.
    - An index expression that is out of range panics in Go; such
      accesses return [None] here. *)

From Stdlib Require Import ZArith NArith List String Ascii Bool Lia Sorted.
Import ListNotations.
Open Scope Z_scope.

(** ** Bytes, slices and integers *)

Definition byte := ascii.

Definition zero_byte : byte := Ascii.zero.

Definition byte_val (b : byte) : N := N_of_ascii b.

(** [len(x)] of a slice, as a Go [int]. *)
Definition len {A : Type} (l : list A) : Z := Z.of_nat (List.length l).

(** [l[i]] for a Go [int] index: [None] stands for the run-time panic. *)
Definition index {A : Type} (l : list A) (i : Z) : option A :=
  if i <? 0 then None else nth_error l (Z.to_nat i).

(** [l[i] = x]; callers only use it in range. *)
Fixpoint set_nth {A : Type} (i : nat) (x : A) (l : list A) : list A :=
  match l, i with
  | [], _ => []
  | _ :: t, O => x :: t
  | h :: t, S i' => h :: set_nth i' x t
  end.

(** [[]byte(s)]. *)
Definition bytes_of_string (s : string) : list byte := list_ascii_of_string s.

Definition wrap64 (z : Z) : Z := z mod 2 ^ 64.

(** ** Errors *)

Inductive error : Type :=
| ErrEmptyPattern                       (* errors.New("empty pattern") *)
| ErrInvalidHex (part : string)         (* fmt.Errorf("invalid hex pattern: %s", part) *)
| ErrInvalidPattern (cause : error)     (* fmt.Errorf("invalid pattern: %w", err) *)
| Canceled                              (* context.Canceled *)
| DeadlineExceeded.                     (* context.DeadlineExceeded *)

Inductive result (A : Type) : Type :=
| Ok (a : A)
| Err (e : error).
Arguments Ok {A} a.
Arguments Err {A} e.

(** ** Library functions used by pattern.go *)

(** [fmt.Sprintf("%02X", b)]: two upper-case hexadecimal digits. *)
Definition upperHexDigit (n : N) : ascii :=
  if (n <? 10)%N then ascii_of_N (48 + n) else ascii_of_N (55 + n).

Definition Sprintf_02X (b : byte) : string :=
  String (upperHexDigit (byte_val b / 16))
    (String (upperHexDigit (byte_val b mod 16)) EmptyString).

(** [encoding/hex]: the value of one hexadecimal digit, either case. *)
Definition fromHexChar (c : ascii) : option N :=
  let n := N_of_ascii c in
  if ((48 <=? n) && (n <=? 57))%N then Some (n - 48)%N
  else if ((97 <=? n) && (n <=? 102))%N then Some (n - 87)%N
  else if ((65 <=? n) && (n <=? 70))%N then Some (n - 55)%N
  else None.

Inductive hex_error : Type :=
| InvalidByteError (c : ascii)
| ErrLength.

(** [hex.Decode]: pairs of digits are decoded from the left; the bytes
    decoded before a fault are returned with the fault. *)
Fixpoint hex_Decode (src : list ascii) : list byte * option hex_error :=
  match src with
  | [] => ([], None)
  | [p] =>
      match fromHexChar p with
      | None => ([], Some (InvalidByteError p))
      | Some _ => ([], Some ErrLength)
      end
  | p :: q :: rest =>
      match fromHexChar p, fromHexChar q with
      | None, _ => ([], Some (InvalidByteError p))
      | Some _, None => ([], Some (InvalidByteError q))
      | Some a, Some b =>
          let (d, err) := hex_Decode rest in
          (ascii_of_N (a * 16 + b) :: d, err)
      end
  end.

Definition hex_DecodeString (s : string) : list byte * option hex_error :=
  hex_Decode (bytes_of_string s).

(** [strings.Fields] splits around runs of white space as [unicode.IsSpace]
    defines it.  On a byte string that is: the six ASCII characters
    tab, line feed, vertical tab, form feed, carriage return and space, and
    the UTF-8 encodings of U+0085, U+00A0, U+1680, U+2000..U+200A, U+2028,
    U+2029, U+202F, U+205F and U+3000.  Each of those encodings starts with a
    lead byte, which Go's decoder always visits as the start of a rune, so a
    left-to-right search for these byte sequences finds the same separators. *)
Definition asciiSpace (c : ascii) : bool :=
  let n := N_of_ascii c in
  (((9 <=? n) && (n <=? 13)) || (n =? 32))%N.

Definition spaceWidth (s : string) : option nat :=
  match s with
  | EmptyString => None
  | String c rest =>
      if asciiSpace c then Some 1%nat
      else
        match N_of_ascii c, rest with
        | 194%N, String d _ =>
            let d := N_of_ascii d in
            if ((d =? 133) || (d =? 160))%N then Some 2%nat else None
        | 225%N, String d (String e _) =>
            if ((N_of_ascii d =? 154) && (N_of_ascii e =? 128))%N
            then Some 3%nat else None
        | 226%N, String d (String e _) =>
            let d := N_of_ascii d in
            let e := N_of_ascii e in
            if ((d =? 128) &&
                (((128 <=? e) && (e <=? 138)) || (e =? 168) || (e =? 169)
                 || (e =? 175)))%N
            then Some 3%nat
            else if ((d =? 129) && (e =? 159))%N then Some 3%nat else None
        | 227%N, String d (String e _) =>
            if ((N_of_ascii d =? 128) && (N_of_ascii e =? 128))%N
            then Some 3%nat else None
        | _, _ => None
        end
  end.

Definition flush_field (cur : string) : list string :=
  match cur with
  | EmptyString => []
  | _ => [cur]
  end.

(** [skip] counts the bytes of a multi-byte separator still to pass;
    [cur] is the field being collected. *)
Fixpoint Fields_from (s : string) (skip : nat) (cur : string) : list string :=
  match s with
  | EmptyString => flush_field cur
  | String c rest =>
      match skip with
      | S k => Fields_from rest k cur
      | O =>
          match spaceWidth s with
          | Some w => flush_field cur ++ Fields_from rest (Nat.pred w) EmptyString
          | None => Fields_from rest O (cur ++ String c EmptyString)%string
          end
      end
  end.

Definition Fields (s : string) : list string := Fields_from s O EmptyString.

(** ** pattern.go *)

(** The loop of [StringToPattern]: [n] iterations remain, [i] is the loop
    variable and [builder] the contents of the [strings.Builder]. *)
Fixpoint StringToPattern_loop (n : nat) (i : Z) (bytes : list byte)
    (builder : string) : string :=
  match n with
  | O => builder
  | S n' =>
      let builder := if 0 <? i then (builder ++ " ")%string else builder in
      let builder :=
        if i <? len bytes then
          let b := nth (Z.to_nat i) bytes zero_byte in
          if Ascii.eqb b "?" then (builder ++ "??")%string
          else (builder ++ Sprintf_02X b)%string
        else (builder ++ "??")%string in
      StringToPattern_loop n' (i + 1) bytes builder
  end.

Definition StringToPattern (searchStr : string) (minLength : Z) : string :=
  if String.eqb searchStr "" then ""%string
  else
    let bytes := bytes_of_string searchStr in
    let patternLength := len bytes in
    let patternLength :=
      if minLength >? patternLength then minLength else patternLength in
    StringToPattern_loop (Z.to_nat patternLength) 0 bytes "".

Record PatternMatcher : Type := {
  patternBytes : list byte;
  wildcardMask : list bool;
  patternLength : Z
}.

(** The [range parts] loop of [NewPatternMatcher]; both slices were made
    with [len(parts)] zero elements. *)
Fixpoint NewPatternMatcher_loop (parts : list string) (i : nat)
    (pBytes : list byte) (wMask : list bool)
    : result (list byte * list bool) :=
  match parts with
  | [] => Ok (pBytes, wMask)
  | part :: rest =>
      if String.eqb part "??" then
        NewPatternMatcher_loop rest (S i) pBytes (set_nth i true wMask)
      else
        let (decoded, err) := hex_DecodeString part in
        match err, decoded with
        | None, [d] =>
            NewPatternMatcher_loop rest (S i) (set_nth i d pBytes) wMask
        | _, _ => Err (ErrInvalidHex part)
        end
  end.

Definition NewPatternMatcher (pattern : string) : result PatternMatcher :=
  let parts := Fields pattern in
  if len parts =? 0 then Err ErrEmptyPattern
  else
    let n := List.length parts in
    match NewPatternMatcher_loop parts O (repeat zero_byte n) (repeat false n) with
    | Err e => Err e
    | Ok (pBytes, wMask) =>
        Ok {| patternBytes := pBytes;
              wildcardMask := wMask;
              patternLength := len parts |}
    end.

(** The conversion both operands get when [ignoreCase] is set. *)
Definition toUpperASCII (b : byte) : byte :=
  if ((97 <=? byte_val b) && (byte_val b <=? 122))%N
  then ascii_of_N (byte_val b - 32)
  else b.

(** The loop of [matchesAt] over [j]; [n] iterations remain. *)
Fixpoint matchesAt_loop (pm : PatternMatcher) (data : list byte) (pos : Z)
    (ignoreCase : bool) (n : nat) (j : Z) : option bool :=
  match n with
  | O => Some true
  | S n' =>
      match index (wildcardMask pm) j with
      | None => None
      | Some true => matchesAt_loop pm data pos ignoreCase n' (j + 1)
      | Some false =>
          match index data (pos + j), index (patternBytes pm) j with
          | Some dataByte, Some patternByte =>
              let patternByte :=
                if ignoreCase then toUpperASCII patternByte else patternByte in
              let dataByte :=
                if ignoreCase then toUpperASCII dataByte else dataByte in
              if negb (Ascii.eqb dataByte patternByte) then Some false
              else matchesAt_loop pm data pos ignoreCase n' (j + 1)
          | _, _ => None
          end
      end
  end.

Definition matchesAt (pm : PatternMatcher) (data : list byte) (pos : Z)
    (ignoreCase : bool) : option bool :=
  matchesAt_loop pm data pos ignoreCase (Z.to_nat (patternLength pm)) 0.

(** The loop of [FindMatches] over [i]; [n] iterations remain. *)
Fixpoint FindMatches_loop (pm : PatternMatcher) (data : list byte)
    (ignoreCase : bool) (n : nat) (i : Z) (matches : list Z)
    : option (list Z) :=
  match n with
  | O => Some matches
  | S n' =>
      match matchesAt pm data i ignoreCase with
      | None => None
      | Some true =>
          FindMatches_loop pm data ignoreCase n' (i + 1) (matches ++ [i])
      | Some false => FindMatches_loop pm data ignoreCase n' (i + 1) matches
      end
  end.

Definition FindMatches (pm : PatternMatcher) (data : list byte)
    (ignoreCase : bool) : option (list Z) :=
  if (patternLength pm =? 0) || (patternLength pm >? len data) then Some []
  else
    let dataLen := len data in
    FindMatches_loop pm data ignoreCase
      (Z.to_nat (dataLen - patternLength pm + 1)) 0 [].

Definition GetPatternLength (pm : PatternMatcher) : Z := patternLength pm.

(** ** The types file *)

(** A Go slice of bytes.  [arr] names the backing array the slice points
    into: two slices alias exactly when they carry the same name.  [make]
    returns a name never used before, re-slicing keeps the name. *)
Record slice : Type := {
  arr : nat;
  elems : list byte
}.

(** [Address] is a [uint64]. *)
Record Match : Type := {
  Address : Z;
  Data : slice
}.

(** ** The world the scanner runs in *)

(** [windows.MemoryBasicInformation], the fields the scanner looks at. *)
Record MemoryBasicInformation : Type := {
  BaseAddress : Z;
  RegionSize : Z;
  State : Z;
  Protect : Z
}.

(** Constants of golang.org/x/sys/windows (winnt.h). *)
Definition PAGE_NOACCESS : Z := 0x01.
Definition PAGE_READONLY : Z := 0x02.
Definition PAGE_READWRITE : Z := 0x04.
Definition PAGE_WRITECOPY : Z := 0x08.
Definition PAGE_EXECUTE : Z := 0x10.
Definition PAGE_EXECUTE_READ : Z := 0x20.
Definition PAGE_EXECUTE_READWRITE : Z := 0x40.
Definition PAGE_EXECUTE_WRITECOPY : Z := 0x80.
Definition PAGE_GUARD : Z := 0x100.
Definition PAGE_NOCACHE : Z := 0x200.
Definition PAGE_WRITECOMBINE : Z := 0x400.
Definition MEM_COMMIT : Z := 0x1000.
Definition MEM_RESERVE : Z := 0x2000.
Definition MEM_FREE : Z := 0x10000.

(** Everything the scanner does to its surroundings, in the order it does
    it, each with the answer it got. *)
Inductive event : Type :=
| EvCtx (done : option error)
    (* select on ctx.Done(); [Some e]: the channel is closed, ctx.Err() = e *)
| EvQuery (address : Z) (r : option MemoryBasicInformation)
    (* windows.VirtualQueryEx; [None]: err != nil *)
| EvRead (base length : Z) (buf : nat) (r : option (list byte))
    (* windows.ReadProcessMemory into the array [buf]; [None]: err != nil,
       [Some l]: the bytes transferred *)
| EvHandler (m : Match) (continue : bool).
    (* opts.Handler(match) and what it returned *)

(** The surroundings answer as a function of the history so far (most
    recent event first): the context may be cancelled at any moment, the
    target's memory map and contents may change between calls, and the
    handler is a closure with state of its own. *)
Record Env : Type := {
  ctx_Done : list event -> option error;
  VirtualQueryEx : list event -> Z -> option MemoryBasicInformation;
  ReadProcessMemory : list event -> Z -> Z -> option (list byte)
}.

Record ScanOptions : Type := {
  Pattern : string;
  IgnoreCase : bool;
  MinAddress : Z;
  MaxAddress : Z;
  Handler : list event -> Match -> bool
}.

(** The state a scan threads through: the history, most recent event
    first, and the number of arrays allocated so far. *)
Record St : Type := {
  hist : list event;
  nalloc : nat
}.

Definition init_St : St := {| hist := []; nalloc := O |}.

Definition M (A : Type) : Type := St -> A * St.

Definition ret {A : Type} (a : A) : M A := fun s => (a, s).

Definition bind {A B : Type} (c : M A) (k : A -> M B) : M B :=
  fun s => let (a, s') := c s in k a s'.

Notation "x <- c ;; k" := (bind c (fun x => k))
  (at level 61, c at next level, right associativity).

(** [make([]byte, n)]. *)
Definition make (n : Z) : M slice :=
  fun s => ({| arr := nalloc s; elems := repeat zero_byte (Z.to_nat n) |},
            {| hist := hist s; nalloc := S (nalloc s) |}).

(** [copy(dst, src)]. *)
Definition copy (dst : slice) (src : list byte) : slice :=
  {| arr := arr dst;
     elems := firstn (List.length (elems dst)) src
              ++ skipn (List.length src) (elems dst) |}.

(** [b[lo:hi]] and [b[:hi]], used in range only. *)
Definition reslice (b : slice) (lo hi : Z) : slice :=
  {| arr := arr b;
     elems := firstn (Z.to_nat (hi - lo)) (skipn (Z.to_nat lo) (elems b)) |}.

(** The non-blocking [select] on [ctx.Done()]. *)
Definition select_ctx_Done (env : Env) : M (option error) :=
  fun s =>
    let r := ctx_Done env (hist s) in
    (r, {| hist := EvCtx r :: hist s; nalloc := nalloc s |}).

Definition call_VirtualQueryEx (env : Env) (address : Z)
    : M (option MemoryBasicInformation) :=
  fun s =>
    let r := VirtualQueryEx env (hist s) address in
    (r, {| hist := EvQuery address r :: hist s; nalloc := nalloc s |}).

(** The call transfers at most [nSize] bytes into the buffer and reports
    how many; the result is the buffer afterwards and that count. *)
Definition call_ReadProcessMemory (env : Env) (base nSize : Z) (buffer : slice)
    : M (option (slice * Z)) :=
  fun s =>
    match ReadProcessMemory env (hist s) base nSize with
    | None =>
        (None,
         {| hist := EvRead base nSize (arr buffer) None :: hist s;
            nalloc := nalloc s |})
    | Some l =>
        let got := firstn (Z.to_nat nSize) l in
        (Some (copy buffer got, len got),
         {| hist := EvRead base nSize (arr buffer) (Some got) :: hist s;
            nalloc := nalloc s |})
    end.

Definition call_Handler (opts : ScanOptions) (m : Match) : M bool :=
  fun s =>
    let r := Handler opts (hist s) m in
    (r, {| hist := EvHandler m r :: hist s; nalloc := nalloc s |}).

(** How a call ends: it returns its [error] result ([None] is [nil]), it
    panics, or, for the walk, the iterations allowed were used up with the
    loop still running. *)
Inductive outcome : Type :=
| Returned (err : option error)
| Panicked
| Unfinished.

(** ** The scanner file *)

Definition isReadableRegion (mbi : MemoryBasicInformation) : bool :=
  let isReadable :=
    negb (Z.land (Protect mbi)
            (Z.lor (Z.lor (Z.lor PAGE_READONLY PAGE_READWRITE)
                      PAGE_EXECUTE_READ) PAGE_EXECUTE_READWRITE) =? 0) in
  let isCommitted := State mbi =? MEM_COMMIT in
  isReadable && isCommitted.

(** The [range matches] loop of [scanRegion]. *)
Fixpoint scanRegion_loop (env : Env) (opts : ScanOptions) (baseAddr : Z)
    (matcher : PatternMatcher) (buffer : slice) (matches : list Z)
    : M outcome :=
  match matches with
  | [] => ret (Returned None)
  | offset :: rest =>
      done <- select_ctx_Done env ;;
      match done with
      | Some e => ret (Returned (Some e))
      | None =>
          let absoluteAddress := wrap64 (baseAddr + offset) in
          if offset + GetPatternLength matcher >? len (elems buffer) then
            scanRegion_loop env opts baseAddr matcher buffer rest
          else
            matchedData <- make (GetPatternLength matcher) ;;
            let matchedData :=
              copy matchedData
                (elems (reslice buffer offset
                          (offset + GetPatternLength matcher))) in
            let match_ :=
              {| Address := absoluteAddress; Data := matchedData |} in
            continue <- call_Handler opts match_ ;;
            if negb continue then ret (Returned None)
            else scanRegion_loop env opts baseAddr matcher buffer rest
      end
  end.

Definition scanRegion (env : Env) (opts : ScanOptions)
    (baseAddr regionSize maxAddress : Z) (matcher : PatternMatcher)
    : M outcome :=
  let readEnd := wrap64 (baseAddr + regionSize) in
  let readEnd := if readEnd >? maxAddress then maxAddress else readEnd in
  if readEnd <=? baseAddr then ret (Returned None)
  else
    let readLength := readEnd - baseAddr in
    buffer <- make readLength ;;
    r <- call_ReadProcessMemory env baseAddr readLength buffer ;;
    match r with
    | None => ret (Returned None)
    | Some (buffer, bytesRead) =>
        if bytesRead =? 0 then ret (Returned None)
        else
          let buffer := reslice buffer 0 bytesRead in
          match FindMatches matcher (elems buffer) (IgnoreCase opts) with
          | None => ret Panicked
          | Some matches =>
              scanRegion_loop env opts baseAddr matcher buffer matches
          end
    end.

(** Where the walk goes after a region. *)
Definition next_address (baseAddr regionSize : Z) : Z :=
  let address := wrap64 (baseAddr + regionSize) in
  if regionSize =? 0 then wrap64 (address + 1) else address.

(** The [for address < maxAddress] loop of [Scan], at most [fuel]
    iterations of it. *)
Fixpoint Scan_loop (fuel : nat) (env : Env) (opts : ScanOptions)
    (patternMatcher : PatternMatcher) (maxAddress address : Z) : M outcome :=
  match fuel with
  | O => ret Unfinished
  | S fuel' =>
      if address <? maxAddress then
        done <- select_ctx_Done env ;;
        match done with
        | Some e => ret (Returned (Some e))
        | None =>
            q <- call_VirtualQueryEx env address ;;
            match q with
            | None => ret (Returned None)
            | Some mbi =>
                let baseAddr := wrap64 (BaseAddress mbi) in
                let regionSize := wrap64 (RegionSize mbi) in
                o <- (if isReadableRegion mbi then
                        scanRegion env opts baseAddr regionSize maxAddress
                          patternMatcher
                      else ret (Returned None)) ;;
                match o with
                | Returned None =>
                    Scan_loop fuel' env opts patternMatcher maxAddress
                      (next_address baseAddr regionSize)
                | _ => ret o
                end
            end
        end
      else ret (Returned None)
  end.

(** [Scan]: the outcome and the events in the order they happened. *)
Definition Scan (fuel : nat) (env : Env) (opts : ScanOptions)
    : outcome * list event :=
  match NewPatternMatcher (Pattern opts) with
  | Err err => (Returned (Some (ErrInvalidPattern err)), [])
  | Ok patternMatcher =>
      let (o, s) :=
        Scan_loop fuel env opts patternMatcher
          (wrap64 (MaxAddress opts)) (wrap64 (MinAddress opts)) init_St in
      (o, rev (hist s))
  end.

(** ** The specification's words, for comparison with the code *)

(** Pattern compiler: position [i] of the output holds the wildcard token
    for the wildcard character and beyond the input, and the two
    hexadecimal digits of the input byte otherwise. *)
Definition spec_token (bytes : list byte) (i : nat) : string :=
  match nth_error bytes i with
  | Some b => if Ascii.eqb b "?" then "??"%string else Sprintf_02X b
  | None => "??"%string
  end.

Definition spec_tokens (searchStr : string) (minLength : Z) : list string :=
  let bytes := bytes_of_string searchStr in
  map (spec_token bytes) (seq 0 (Z.to_nat (Z.max (len bytes) minLength))).

(** A character that is part of a token wherever it stands: seven bits and
    not white space. *)
Definition plain_char (c : ascii) : bool :=
  negb (asciiSpace c) && (N_of_ascii c <? 128)%N.

Fixpoint plain_string (t : string) : bool :=
  match t with
  | EmptyString => true
  | String c t' => plain_char c && plain_string t'
  end.

Definition plain_token (t : string) : Prop :=
  t <> EmptyString /\ plain_string t = true.

(** Pattern matcher construction: a token is one valid hex-encoded byte
    when it is exactly two hexadecimal digits. *)
Definition hex_digit (c : ascii) : Prop :=
  let n := N_of_ascii c in
  (48 <= n <= 57 \/ 65 <= n <= 70 \/ 97 <= n <= 102)%N.

Definition hex_byte_token (t : string) : Prop :=
  exists hi lo : ascii,
    t = String hi (String lo EmptyString) /\ hex_digit hi /\ hex_digit lo.

(** What every matcher built by [NewPatternMatcher] satisfies, and the
    zero value [PatternMatcher{}] too. *)
Definition well_formed (pm : PatternMatcher) : Prop :=
  patternLength pm = len (patternBytes pm) /\
  len (wildcardMask pm) = len (patternBytes pm).

(** Matching: equality of bytes, case-folded for ASCII letters only when
    the flag is set, and an occurrence of the pattern at offset [i]. *)
Definition lower_case (b : byte) : Prop := (97 <= byte_val b <= 122)%N.

Definition fold_equal (a b : byte) : Prop :=
  a = b \/
  (lower_case a /\ byte_val b = byte_val a - 32)%N \/
  (lower_case b /\ byte_val a = byte_val b - 32)%N.

Definition byte_matches (ignoreCase : bool) (dataByte patternByte : byte)
    : Prop :=
  if ignoreCase then fold_equal dataByte patternByte
  else dataByte = patternByte.

Definition occurs_at (pm : PatternMatcher) (data : list byte)
    (ignoreCase : bool) (i : Z) : Prop :=
  forall j : Z,
    0 <= j < patternLength pm ->
    index (wildcardMask pm) j = Some false ->
    exists d p : byte,
      index data (i + j) = Some d /\
      index (patternBytes pm) j = Some p /\
      byte_matches ignoreCase d p.

(** ** Scenarios *)

(** A target whose memory map and contents do not change: [regions] lists
    the descriptors, [mem] is the content from address 0 on. *)
Definition covers (a : Z) (r : MemoryBasicInformation) : bool :=
  (BaseAddress r <=? a) && (a <? BaseAddress r + RegionSize r).

Definition static_query (regions : list MemoryBasicInformation) (a : Z)
    : option MemoryBasicInformation :=
  find (covers a) regions.

Definition static_read (mem : string) (base nSize : Z) : option (list byte) :=
  Some (firstn (Z.to_nat nSize) (skipn (Z.to_nat base) (bytes_of_string mem))).

Definition never_done : list event -> option error := fun _ => None.

Definition static_env (done : list event -> option error)
    (regions : list MemoryBasicInformation) (mem : string) : Env :=
  {| ctx_Done := done;
     VirtualQueryEx := fun _ a => static_query regions a;
     ReadProcessMemory := fun _ base n => static_read mem base n |}.

Definition region (base size state protect : Z) : MemoryBasicInformation :=
  {| BaseAddress := base; RegionSize := size;
     State := state; Protect := protect |}.

(** The number of handler calls in a history. *)
Fixpoint handler_calls (h : list event) : nat :=
  match h with
  | [] => O
  | EvHandler _ _ :: t => S (handler_calls t)
  | _ :: t => handler_calls t
  end.

(** A handler that counts its calls and asks to stop at the [k]-th, as
    the package's own test does with [matchCount < 10]. *)
Definition stop_at (k : nat) : list event -> Match -> bool :=
  fun h _ => (S (handler_calls h) <? k)%nat.

Definition always_continue : list event -> Match -> bool := fun _ _ => true.

Definition two_regions : list MemoryBasicInformation :=
  [region 0 4 MEM_COMMIT PAGE_READWRITE; region 4 4 MEM_COMMIT PAGE_READONLY].

Definition opts_stop_first : ScanOptions :=
  {| Pattern := "41"; IgnoreCase := false;
     MinAddress := 0; MaxAddress := 8; Handler := stop_at 1 |}.

Definition opts_all (pattern : string) (lo hi : Z) : ScanOptions :=
  {| Pattern := pattern; IgnoreCase := false;
     MinAddress := lo; MaxAddress := hi; Handler := always_continue |}.

(** The context is cancelled once [t] events have happened. *)
Definition cancelled_from (t : nat) : list event -> option error :=
  fun h => if (t <=? List.length h)%nat then Some Canceled else None.

(** A committed read-write page with the guard modifier, as every thread
    stack has one. *)
Definition guard_region : MemoryBasicInformation :=
  region 0 4 MEM_COMMIT (Z.lor PAGE_READWRITE PAGE_GUARD).

Definition guard_page : list MemoryBasicInformation := [guard_region].

Definition one_region : list MemoryBasicInformation :=
  [region 0 16 MEM_COMMIT PAGE_READWRITE].

(** A query that answers with the page the address lies in and reports a
    size of zero for it. *)
Definition zero_size_query (a : Z) : option MemoryBasicInformation :=
  Some (region (4096 * (a / 4096)) 0 MEM_FREE PAGE_NOACCESS).

Definition zero_size_env : Env :=
  {| ctx_Done := never_done;
     VirtualQueryEx := fun _ a => zero_size_query a;
     ReadProcessMemory := fun _ _ _ => None |}.

(** A degenerate descriptor of size zero placed at the address asked for,
    below 8; nothing from 8 on. *)
Definition zero_at_cursor_env : Env :=
  {| ctx_Done := never_done;
     VirtualQueryEx := fun _ a =>
       if a <? 8 then Some (region a 0 MEM_RESERVE PAGE_NOACCESS) else None;
     ReadProcessMemory := fun _ _ _ => None |}.

(** The first nine events of scanning [two_regions] holding ["AbcdAxyz"]
    for the byte ['A'], and the match delivered next. *)
Definition nine_events : list event :=
  [EvCtx None;
   EvQuery 0 (Some (region 0 4 MEM_COMMIT PAGE_READWRITE));
   EvRead 0 4 0 (Some (bytes_of_string "Abcd"));
   EvCtx None;
   EvHandler {| Address := 0;
                Data := {| arr := 1; elems := bytes_of_string "A" |} |} true;
   EvCtx None;
   EvQuery 4 (Some (region 4 4 MEM_COMMIT PAGE_READONLY));
   EvRead 4 4 2 (Some (bytes_of_string "Axyz"));
   EvCtx None].

Definition second_match : Match :=
  {| Address := 4; Data := {| arr := 3; elems := bytes_of_string "A" |} |}.

(** ** What a history has to look like *)

(** The end of the range [scanRegion] reads, its length, and whether it
    reads at all. *)
Definition read_end (maxAddress : Z) (mbi : MemoryBasicInformation) : Z :=
  let readEnd := wrap64 (wrap64 (BaseAddress mbi) + wrap64 (RegionSize mbi)) in
  if readEnd >? maxAddress then maxAddress else readEnd.

Definition read_length (maxAddress : Z) (mbi : MemoryBasicInformation) : Z :=
  read_end maxAddress mbi - wrap64 (BaseAddress mbi).

Definition will_read (maxAddress : Z) (mbi : MemoryBasicInformation) : bool :=
  isReadableRegion mbi && (wrap64 (BaseAddress mbi) <? read_end maxAddress mbi).

(** Which event may come directly after which; [None] is the start. *)
Definition ok_after (maxAddress : Z) (prev : option event) (e : event) : Prop :=
  match prev with
  | None => exists d, e = EvCtx d
  | Some (EvCtx None) =>
      (exists a r, e = EvQuery a r) \/ (exists m r, e = EvHandler m r)
  | Some (EvCtx (Some _)) => False
  | Some (EvQuery _ None) => False
  | Some (EvQuery _ (Some mbi)) =>
      if will_read maxAddress mbi then
        exists buf r,
          e = EvRead (wrap64 (BaseAddress mbi)) (read_length maxAddress mbi)
                buf r
      else exists d, e = EvCtx d
  | Some (EvRead _ _ _ _) => exists d, e = EvCtx d
  | Some (EvHandler _ _) => exists d, e = EvCtx d
  end.

(** A history, most recent event first, in which every event is allowed
    after the one before it. *)
Fixpoint chain (maxAddress : Z) (h : list event) : Prop :=
  match h with
  | [] => True
  | e :: t => ok_after maxAddress (hd_error t) e /\ chain maxAddress t
  end.

(** A history after which the next thing to happen is a cancellation
    poll. *)
Definition resting (maxAddress : Z) (h : list event) : Prop :=
  ok_after maxAddress (hd_error h) (EvCtx None).

(** What the history looks like when the walk stops with outcome [o]. *)
Definition stopped (M : Z) (o : outcome) (h : list event) : Prop :=
  match o with
  | Returned (Some e) => hd_error h = Some (EvCtx (Some e))
  | Returned None =>
      resting M h \/ exists a, hd_error h = Some (EvQuery a None)
  | Unfinished => resting M h
  | Panicked => False
  end.

(** The events that can lie between a read and a handler call made for
    the region read. *)
Definition same_region_event (e : event) : Prop :=
  match e with
  | EvCtx _ | EvHandler _ _ => True
  | _ => False
  end.

(** The region being scanned: base, buffer array and bytes transferred of
    the most recent read, if nothing but polls and handler calls happened
    since. *)
Fixpoint last_read (h : list event) : option (Z * nat * list byte) :=
  match h with
  | [] => None
  | EvRead base _ buf (Some got) :: _ => Some (base, buf, got)
  | EvRead _ _ _ None :: _ => None
  | EvQuery _ _ :: _ => None
  | _ :: t => last_read t
  end.

(** The address of the most recent match delivered for that region. *)
Fixpoint last_address (h : list event) : option Z :=
  match h with
  | [] => None
  | EvHandler m _ :: _ => Some (Address m)
  | EvCtx _ :: t => last_address t
  | _ :: _ => None
  end.

(** The arrays a history mentions: read buffers and match payloads. *)
Fixpoint used_arrays (h : list event) : list nat :=
  match h with
  | [] => []
  | EvRead _ _ buf _ :: t => buf :: used_arrays t
  | EvHandler m _ :: t => arr (Data m) :: used_arrays t
  | _ :: t => used_arrays t
  end.

(** What holds of a match [m] handed to the handler after the history
    [t]. *)
Definition handler_ok (pm : PatternMatcher) (ignoreCase : bool)
    (t : list event) (m : Match) : Prop :=
  exists (base : Z) (buf : nat) (got : list byte) (off : Z),
    last_read t = Some (base, buf, got) /\
    0 <= off /\ off + patternLength pm <= len got /\
    occurs_at pm got ignoreCase off /\
    Address m = base + off /\
    elems (Data m)
    = firstn (Z.to_nat (patternLength pm)) (skipn (Z.to_nat off) got) /\
    len (elems (Data m)) = patternLength pm /\
    ~ In (arr (Data m)) (used_arrays t) /\
    (forall a, last_address t = Some a -> a < Address m).

Fixpoint hist_ok (pm : PatternMatcher) (ignoreCase : bool) (h : list event)
    : Prop :=
  match h with
  | [] => True
  | e :: t =>
      hist_ok pm ignoreCase t /\
      match e with
      | EvHandler m _ => handler_ok pm ignoreCase t m
      | _ => True
      end
  end.

(** Every array a history mentions was allocated before the [n]-th. *)
Definition ids_below (n : nat) (h : list event) : Prop :=
  Forall (fun a => (a < n)%nat) (used_arrays h).

(** The events cancellation is checked before: a region query and a
    handler call. *)
Definition checked_event (e : event) : Prop :=
  match e with
  | EvQuery _ _ | EvHandler _ _ => True
  | _ => False
  end.

(** The matcher [NewPatternMatcher] builds for the pattern ["41"], and the
    one for ["41 41"]. *)
Definition matcher_A : PatternMatcher :=
  {| patternBytes := ["A"%char]; wildcardMask := [false]; patternLength := 1 |}.

Definition matcher_AA : PatternMatcher :=
  {| patternBytes := ["A"%char; "A"%char];
     wildcardMask := [false; false];
     patternLength := 2 |}.

(** A descriptor, returned for the cursor [a], that lets the walk advance:
    it ends beyond the cursor within 64 bits, or it has size zero and does
    not lie below the cursor. *)
Definition advancing (a : Z) (mbi : MemoryBasicInformation) : Prop :=
  let base := wrap64 (BaseAddress mbi) in
  let size := wrap64 (RegionSize mbi) in
  (0 < size /\ a < base + size < 2 ^ 64) \/
  (size = 0 /\ a <= base /\ base + 1 < 2 ^ 64).

(** The environment keeps to that for every cursor below [maxAddress]. *)
Definition advancing_queries (env : Env) (maxAddress : Z) : Prop :=
  forall (h : list event) (a : Z) (mbi : MemoryBasicInformation),
    0 <= a < maxAddress ->
    VirtualQueryEx env h a = Some mbi -> advancing a mbi.

(** Once [t] events have happened the context is cancelled, and it stays
    cancelled. *)
Definition cancelled_after (env : Env) (t : nat) : Prop :=
  forall h : list event, (t <= List.length h)%nat -> ctx_Done env h <> None.

(** The four protections the scanner reads, as one mask. *)
Definition readable_mask : Z :=
  Z.lor (Z.lor (Z.lor PAGE_READONLY PAGE_READWRITE) PAGE_EXECUTE_READ)
    PAGE_EXECUTE_READWRITE.

Definition readable_protection (p : Z) : Prop :=
  p = PAGE_READONLY \/ p = PAGE_READWRITE \/
  p = PAGE_EXECUTE_READ \/ p = PAGE_EXECUTE_READWRITE.

Arguments wrap64 : simpl never.
Arguments Z.pow : simpl never.

(** * Properties *)

(** ** The package's tests *)

Example StringToPattern_basic_string :
  StringToPattern "WeChat" 6 = "57 65 43 68 61 74"%string.
Proof. reflexivity. Qed.

Example StringToPattern_string_with_padding :
  StringToPattern "WeChat" 10 = "57 65 43 68 61 74 ?? ?? ?? ??"%string.
Proof. reflexivity. Qed.

Example StringToPattern_string_with_wildcard :
  StringToPattern "We?Chat" 7 = "57 65 ?? 43 68 61 74"%string.
Proof. reflexivity. Qed.

Example StringToPattern_empty_string : StringToPattern "" 5 = ""%string.
Proof. reflexivity. Qed.

Example PatternMatcher_case_sensitive :
  exists pm,
    NewPatternMatcher "57 65 43 68 61 74" = Ok pm /\
    FindMatches pm (bytes_of_string "Hello WeChat World") false = Some [6].
Proof. eexists. split; reflexivity. Qed.

Example PatternMatcher_ignore_case :
  exists pm,
    NewPatternMatcher "57 65 43 68 61 74" = Ok pm /\
    FindMatches pm (bytes_of_string "Hello wechat world") true = Some [6] /\
    FindMatches pm (bytes_of_string "Hello wechat world") false = Some [].
Proof. eexists. repeat split; reflexivity. Qed.

Example PatternMatcher_overlapping :
  NewPatternMatcher "41 41" = Ok matcher_AA /\
  FindMatches matcher_AA (bytes_of_string "AAA") false = Some [0; 1] /\
  FindMatches matcher_AA (bytes_of_string "A") false = Some [].
Proof. repeat split; reflexivity. Qed.

Example PatternMatcher_wildcard :
  exists pm,
    NewPatternMatcher "57 65 ?? 68 61 74" = Ok pm /\
    wildcardMask pm = [false; false; true; false; false; false] /\
    FindMatches pm (bytes_of_string "WeChat Wexhat WeChaT") false
    = Some [0; 7].
Proof. eexists. repeat split; reflexivity. Qed.

Example NewPatternMatcher_rejects :
  NewPatternMatcher "" = Err ErrEmptyPattern /\
  NewPatternMatcher "  " = Err ErrEmptyPattern /\
  NewPatternMatcher "57 6" = Err (ErrInvalidHex "6") /\
  NewPatternMatcher "57 656" = Err (ErrInvalidHex "656") /\
  NewPatternMatcher "57 6G" = Err (ErrInvalidHex "6G") /\
  NewPatternMatcher "57 ?" = Err (ErrInvalidHex "?").
Proof. repeat split; reflexivity. Qed.

Example Fields_splits_at_white_space :
  Fields "  57  65  ??   74 " = ["57"; "65"; "??"; "74"]%string /\
  Fields (String "5" (String "7" (String (ascii_of_N 9)
            (String "6" (String "5" (String (ascii_of_N 10) EmptyString))))))
  = ["57"; "65"]%string /\
  Fields (String "5" (String "7" (String (ascii_of_N 194)
            (String (ascii_of_N 160) (String "6" (String "5" EmptyString))))))
  = ["57"; "65"]%string.
Proof. repeat split; reflexivity. Qed.

(** ** Strings and lists *)

Lemma append_nil_r (s : string) : (s ++ "")%string = s.
Proof. induction s as [|c s IH]; simpl; [reflexivity | now rewrite IH]. Qed.

Lemma append_assoc (a b c : string) :
  ((a ++ b) ++ c)%string = (a ++ (b ++ c))%string.
Proof. induction a as [|x a IH]; simpl; [reflexivity | now rewrite IH]. Qed.

Lemma concat_snoc (sep x : string) (l : list string) :
  l <> [] ->
  String.concat sep (l ++ [x]) = (String.concat sep l ++ sep ++ x)%string.
Proof.
  induction l as [|y l IH]; intros Hne; [congruence|].
  destruct l as [|z l].
  - reflexivity.
  - change (String.concat sep ((y :: z :: l) ++ [x]))
      with (y ++ sep ++ String.concat sep ((z :: l) ++ [x]))%string.
    rewrite IH by discriminate.
    change (String.concat sep (y :: z :: l))
      with (y ++ sep ++ String.concat sep (z :: l))%string.
    now rewrite !append_assoc.
Qed.

Lemma len_nonneg {A : Type} (l : list A) : 0 <= len l.
Proof. unfold len; lia. Qed.

Lemma len_app {A : Type} (l1 l2 : list A) : len (l1 ++ l2) = len l1 + len l2.
Proof. unfold len; rewrite length_app; lia. Qed.

Lemma index_nth_error {A : Type} (l : list A) (i : Z) :
  0 <= i -> index l i = nth_error l (Z.to_nat i).
Proof. intros H; unfold index; destruct (Z.ltb_spec i 0); [lia | reflexivity]. Qed.

Lemma index_in_range {A : Type} (l : list A) (i : Z) :
  0 <= i < len l -> exists x, index l i = Some x.
Proof.
  intros H; rewrite index_nth_error by lia.
  destruct (nth_error l (Z.to_nat i)) as [x|] eqn:E; [now exists x|].
  apply nth_error_None in E; unfold len in H; lia.
Qed.

Lemma index_Some_range {A : Type} (l : list A) (i : Z) (x : A) :
  index l i = Some x -> 0 <= i < len l.
Proof.
  unfold index; destruct (Z.ltb_spec i 0); [discriminate|].
  intros E. assert (Z.to_nat i < List.length l)%nat
    by (apply nth_error_Some; congruence).
  unfold len; lia.
Qed.

(** ** The pattern compiler *)

Lemma Sprintf_02X_decodes (b : byte) :
  hex_DecodeString (Sprintf_02X b) = ([b], None).
Proof.
  destruct b as [[] [] [] [] [] [] [] []]; vm_compute; reflexivity.
Qed.

Lemma StringToPattern_loop_spec (bytes : list byte) (total n k : nat) :
  (k + n = total)%nat ->
  StringToPattern_loop n (Z.of_nat k) bytes
    (String.concat " " (map (spec_token bytes) (seq 0 k)))
  = String.concat " " (map (spec_token bytes) (seq 0 total)).
Proof.
  revert k; induction n as [|n IH]; intros k Hk.
  - simpl. replace total with k by lia. reflexivity.
  - cbn [StringToPattern_loop].
    rewrite <- (IH (S k)) by lia.
    replace (Z.of_nat (S k)) with (Z.of_nat k + 1) by lia.
    f_equal.
    rewrite seq_S, map_app; cbn [map Nat.add].
    assert (Hspec : spec_token bytes k =
      if Z.of_nat k <? len bytes
      then (if Ascii.eqb (nth k bytes zero_byte) "?" then "??"%string
            else Sprintf_02X (nth k bytes zero_byte))
      else "??"%string).
    { unfold spec_token.
      destruct (Z.ltb_spec (Z.of_nat k) (len bytes)) as [Hlt|Hge].
      - destruct (nth_error bytes k) as [b|] eqn:E.
        + now rewrite (nth_error_nth _ _ zero_byte E).
        + apply nth_error_None in E. unfold len in Hlt; lia.
      - destruct (nth_error bytes k) as [b|] eqn:E; [|reflexivity].
        assert (k < List.length bytes)%nat by (apply nth_error_Some; congruence).
        unfold len in Hge; lia. }
    rewrite Nat2Z.id.
    destruct k as [|k].
    + cbn [seq map String.concat app]. rewrite Hspec.
      change (0 <? Z.of_nat 0) with false. cbn iota.
      destruct (Z.of_nat 0 <? len bytes);
        [destruct (Ascii.eqb _ _)|]; reflexivity.
    + rewrite concat_snoc
        by (rewrite seq_S, map_app; intros E; now apply app_eq_nil in E).
      replace (0 <? Z.of_nat (S k)) with true
        by (symmetry; apply Z.ltb_lt; lia).
      rewrite Hspec.
      destruct (Z.of_nat (S k) <? len bytes);
        [destruct (Ascii.eqb _ _)|]; now rewrite append_assoc.
Qed.

Lemma StringToPattern_spec_tokens (searchStr : string) (minLength : Z) :
  searchStr <> ""%string ->
  StringToPattern searchStr minLength
  = String.concat " " (spec_tokens searchStr minLength).
Proof.
  intros Hne. unfold StringToPattern, spec_tokens.
  destruct (String.eqb_spec searchStr ""); [contradiction|].
  cbv zeta.
  set (bytes := bytes_of_string searchStr).
  replace (if minLength >? len bytes then minLength else len bytes)
    with (Z.max (len bytes) minLength)
    by (destruct (Z.gtb_spec minLength (len bytes)); lia).
  apply (StringToPattern_loop_spec bytes _ _ 0%nat). lia.
Qed.

Lemma spaceWidth_plain (c : ascii) (rest : string) :
  plain_char c = true -> spaceWidth (String c rest) = None.
Proof.
  destruct c as [[] [] [] [] [] [] [] []]; intros H;
    try discriminate H; reflexivity.
Qed.

Lemma Fields_from_plain (tok : string) :
  plain_string tok = true ->
  forall rest cur : string,
    Fields_from (tok ++ rest) 0 cur = Fields_from rest 0 (cur ++ tok).
Proof.
  induction tok as [|c tok IH]; intros Hp rest cur.
  - cbn. now rewrite append_nil_r.
  - cbn in Hp. apply andb_true_iff in Hp. destruct Hp as [Hc Hp].
    cbn [append Fields_from]. rewrite (spaceWidth_plain c _ Hc).
    rewrite (IH Hp), append_assoc. reflexivity.
Qed.

Lemma Fields_concat_plain (tokens : list string) :
  Forall plain_token tokens -> Fields (String.concat " " tokens) = tokens.
Proof.
  unfold Fields. induction tokens as [|t [|t2 ts] IH]; intros Hall.
  - reflexivity.
  - inversion Hall as [|? ? [Hne Hp] _]; subst. cbn [String.concat].
    rewrite <- (append_nil_r t) at 1. rewrite (Fields_from_plain t Hp).
    cbn. destruct t; [contradiction | reflexivity].
  - inversion Hall as [|? ? [Hne Hp] Hrest]; subst.
    change (String.concat " " (t :: t2 :: ts))
      with (t ++ String " " (String.concat " " (t2 :: ts)))%string.
    rewrite (Fields_from_plain t Hp). cbn [append Fields_from].
    change (spaceWidth (String " " (String.concat " " (t2 :: ts))))
      with (Some 1%nat).
    cbn [Nat.pred]. rewrite (IH Hrest).
    destruct t; [contradiction | reflexivity].
Qed.

Lemma Sprintf_02X_plain (b : byte) : plain_token (Sprintf_02X b).
Proof.
  split; [discriminate|].
  destruct b as [[] [] [] [] [] [] [] []]; vm_compute; reflexivity.
Qed.

Lemma spec_tokens_plain (searchStr : string) (minLength : Z) :
  Forall plain_token (spec_tokens searchStr minLength).
Proof.
  unfold spec_tokens. apply Forall_forall. intros t Ht.
  apply in_map_iff in Ht. destruct Ht as (i & <- & _).
  unfold spec_token.
  destruct (nth_error _ i) as [b|]; [|split; [discriminate | reflexivity]].
  destruct (Ascii.eqb b "?"); [split; [discriminate | reflexivity]|].
  apply Sprintf_02X_plain.
Qed.

(** C6. [StringToPattern] of the empty string is the empty pattern whatever
    the minimum length; for a non-empty input the result is the tokens
    joined by single spaces, there are [max(len(input), minLength)] of
    them, the token at a position of the input is the wildcard token for
    the byte ['?'] and the two upper-case hexadecimal digits of the byte
    otherwise (digits that decode back to that byte), and every token past
    the input is the wildcard token; splitting the result at white space,
    as the matcher's constructor does, gives these tokens back. *)
Theorem StringToPattern_tokens (searchStr : string) (minLength : Z) :
  StringToPattern "" minLength = ""%string /\
  (searchStr <> ""%string ->
   exists tokens : list string,
     StringToPattern searchStr minLength = String.concat " " tokens /\
     Fields (StringToPattern searchStr minLength) = tokens /\
     len tokens = Z.max (len (bytes_of_string searchStr)) minLength /\
     (forall (i : nat) (b : byte),
        nth_error (bytes_of_string searchStr) i = Some b ->
        nth_error tokens i
        = Some (if Ascii.eqb b "?" then "??"%string else Sprintf_02X b) /\
        hex_DecodeString (Sprintf_02X b) = ([b], None)) /\
     (forall i : nat,
        (List.length (bytes_of_string searchStr) <= i < List.length tokens)%nat ->
        nth_error tokens i = Some "??"%string)).
Proof.
  split; [reflexivity|]. intros Hne.
  exists (spec_tokens searchStr minLength).
  split; [now apply StringToPattern_spec_tokens|].
  split.
  { rewrite StringToPattern_spec_tokens by exact Hne.
    apply Fields_concat_plain, spec_tokens_plain. }
  unfold spec_tokens. set (bytes := bytes_of_string searchStr).
  set (N := Z.to_nat (Z.max (len bytes) minLength)).
  assert (HN : (List.length bytes <= N)%nat) by (unfold N, len; lia).
  split; [|split].
  - unfold len at 1. rewrite length_map, length_seq.
    unfold N. pose proof (len_nonneg bytes). lia.
  - intros i b Hb. split; [|apply Sprintf_02X_decodes].
    assert (i < List.length bytes)%nat by (apply nth_error_Some; congruence).
    rewrite nth_error_map, nth_error_seq.
    destruct (Nat.ltb_spec i N); [|lia].
    cbn. unfold spec_token. now rewrite Hb.
  - intros i [Hlo Hhi]. rewrite length_map, length_seq in Hhi.
    rewrite nth_error_map, nth_error_seq.
    destruct (Nat.ltb_spec i N); [|lia].
    cbn. unfold spec_token.
    destruct (nth_error bytes i) eqn:E; [|reflexivity].
    assert (i < List.length bytes)%nat by (apply nth_error_Some; congruence). lia.
Qed.

(** ** Construction of the matcher *)

Lemma fromHexChar_Some_iff (c : ascii) :
  (exists v, fromHexChar c = Some v) <-> hex_digit c.
Proof.
  unfold fromHexChar, hex_digit; cbv zeta.
  destruct (N.leb_spec 48 (N_of_ascii c)), (N.leb_spec (N_of_ascii c) 57),
    (N.leb_spec 97 (N_of_ascii c)), (N.leb_spec (N_of_ascii c) 102),
    (N.leb_spec 65 (N_of_ascii c)), (N.leb_spec (N_of_ascii c) 70);
    cbn; split; intros Hc;
    try (destruct Hc as [v Hc]; discriminate);
    try (eexists; reflexivity); lia.
Qed.

Lemma fromHexChar_None_iff (c : ascii) :
  fromHexChar c = None <-> ~ hex_digit c.
Proof.
  rewrite <- fromHexChar_Some_iff. split.
  - intros E [v Hv]; congruence.
  - intros H. destruct (fromHexChar c) as [v|]; [|reflexivity].
    exfalso; apply H; now exists v.
Qed.

Lemma hex_Decode_nothing (src : list ascii) :
  hex_Decode src = ([], None) -> src = [].
Proof.
  destruct src as [|p [|q rest]]; [reflexivity| |]; cbn.
  - destruct (fromHexChar p); discriminate.
  - destruct (fromHexChar p); [|discriminate].
    destruct (fromHexChar q); [|discriminate].
    destruct (hex_Decode rest); discriminate.
Qed.

Lemma hex_DecodeString_one_byte (t : string) :
  (exists d, hex_DecodeString t = ([d], None)) <-> hex_byte_token t.
Proof.
  unfold hex_DecodeString, bytes_of_string, hex_byte_token. split.
  - intros [d Hd].
    destruct t as [|p [|q rest]]; cbn in Hd.
    + discriminate.
    + destruct (fromHexChar p); discriminate.
    + destruct (fromHexChar p) as [a|] eqn:Ea; [|discriminate].
      destruct (fromHexChar q) as [b|] eqn:Eb; [|discriminate].
      destruct (hex_Decode (list_ascii_of_string rest)) as [ds err] eqn:Er.
      injection Hd as _ Hds Herr; subst ds err.
      apply hex_Decode_nothing in Er.
      destruct rest; [|discriminate].
      exists p, q. repeat split; apply fromHexChar_Some_iff; eauto.
  - intros (hi & lo & -> & Hhi & Hlo).
    apply fromHexChar_Some_iff in Hhi, Hlo.
    destruct Hhi as [a Ha], Hlo as [b Hb].
    cbn. rewrite Ha, Hb. eauto.
Qed.

Lemma hex_byte_token_dec (t : string) : hex_byte_token t \/ ~ hex_byte_token t.
Proof.
  destruct (hex_DecodeString t) as [[|d [|d' ds]] [e|]] eqn:E;
    try (right; intros H; apply hex_DecodeString_one_byte in H;
         destruct H as [x Hx]; congruence).
  left; apply hex_DecodeString_one_byte; eauto.
Qed.

Lemma length_set_nth {A : Type} (i : nat) (x : A) (l : list A) :
  List.length (set_nth i x l) = List.length l.
Proof.
  revert i; induction l as [|h t IH]; intros [|i]; cbn; auto.
Qed.

Lemma NewPatternMatcher_loop_lengths (parts : list string) :
  forall i pBytes wMask pBytes' wMask',
    NewPatternMatcher_loop parts i pBytes wMask = Ok (pBytes', wMask') ->
    List.length pBytes' = List.length pBytes /\
    List.length wMask' = List.length wMask.
Proof.
  induction parts as [|part rest IH]; intros i pb wm pb' wm' H; cbn in H.
  - injection H as -> ->; auto.
  - destruct (String.eqb part "??").
    + apply IH in H. now rewrite length_set_nth in H.
    + destruct (hex_DecodeString part) as [[|d [|d' ds]] [e|]];
        try discriminate.
      apply IH in H. now rewrite length_set_nth in H.
Qed.

Lemma NewPatternMatcher_loop_fails_iff (parts : list string) :
  forall i pBytes wMask,
    (exists e, NewPatternMatcher_loop parts i pBytes wMask = Err e) <->
    (exists part, In part parts /\ part <> "??"%string /\ ~ hex_byte_token part).
Proof.
  induction parts as [|part rest IH]; intros i pb wm; cbn [NewPatternMatcher_loop].
  - split; [intros [e He]; discriminate | intros (p & [] & _)].
  - destruct (String.eqb_spec part "??") as [->|Hne].
    + rewrite IH. split.
      * intros (p & Hin & Hp); exists p; cbn; auto.
      * intros (p & [<-|Hin] & Hn & Hp); [congruence|]. exists p; auto.
    + destruct (hex_byte_token_dec part) as [Hok|Hbad].
      * pose proof Hok as Hd. apply hex_DecodeString_one_byte in Hd.
        destruct Hd as [d Hd]. rewrite Hd, IH. split.
        -- intros (p & Hin & Hp); exists p; cbn; auto.
        -- intros (p & [<-|Hin] & Hn & Hp); [contradiction|]. exists p; auto.
      * split; [intros _; exists part; cbn; auto|]. intros _.
        destruct (hex_DecodeString part) as [[|d [|d' ds]] [e|]] eqn:E;
          try (eexists; reflexivity).
        exfalso; apply Hbad, hex_DecodeString_one_byte; eauto.
Qed.

Lemma NewPatternMatcher_well_formed (pattern : string) (pm : PatternMatcher) :
  NewPatternMatcher pattern = Ok pm -> well_formed pm /\ 0 < patternLength pm.
Proof.
  unfold NewPatternMatcher, well_formed.
  destruct (Z.eqb_spec (len (Fields pattern)) 0) as [|Hne]; [discriminate|].
  destruct (NewPatternMatcher_loop _ _ _ _) as [[pb wm]|e] eqn:E; [|discriminate].
  intros H; injection H as <-. cbn.
  apply NewPatternMatcher_loop_lengths in E. rewrite !repeat_length in E.
  pose proof (len_nonneg (Fields pattern)) as Hlen.
  unfold len in *. lia.
Qed.

Lemma Scan_invalid_pattern (fuel : nat) (env : Env) (opts : ScanOptions)
    (e : error) :
  NewPatternMatcher (Pattern opts) = Err e ->
  Scan fuel env opts = (Returned (Some (ErrInvalidPattern e)), []).
Proof. intros H; unfold Scan; now rewrite H. Qed.

(** C7. Construction fails exactly when [strings.Fields] finds no token in
    the pattern or finds a token that is neither the wildcard marker nor
    two hexadecimal digits; and when it fails, [Scan] returns that error,
    wrapped, with no event at all: no cancellation poll, no region query,
    no read, no handler call. *)
Theorem NewPatternMatcher_fails_iff (fuel : nat) (env : Env)
    (opts : ScanOptions) :
  ((exists e, NewPatternMatcher (Pattern opts) = Err e) <->
   (Fields (Pattern opts) = [] \/
    exists part, In part (Fields (Pattern opts)) /\
                 part <> "??"%string /\ ~ hex_byte_token part)) /\
  (forall e, NewPatternMatcher (Pattern opts) = Err e ->
             Scan fuel env opts = (Returned (Some (ErrInvalidPattern e)), [])).
Proof.
  split; [|intros e; apply Scan_invalid_pattern].
  unfold NewPatternMatcher.
  destruct (Z.eqb_spec (len (Fields (Pattern opts))) 0) as [H0|Hne].
  - split; [intros _; left | intros _; eauto].
    destruct (Fields (Pattern opts)); [reflexivity | discriminate].
  - rewrite <- (NewPatternMatcher_loop_fails_iff (Fields (Pattern opts)) 0
                 (repeat zero_byte (List.length (Fields (Pattern opts))))
                 (repeat false (List.length (Fields (Pattern opts))))).
    destruct (NewPatternMatcher_loop _ _ _ _) as [[pb wm]|e] eqn:E.
    + split.
      * intros [e He]; discriminate.
      * intros [H|[e He]]; [rewrite H in Hne; cbn in Hne; congruence | discriminate].
    + split; eauto.
Qed.

(** ** Matching *)

Lemma byte_val_inj (a b : byte) : byte_val a = byte_val b -> a = b.
Proof.
  unfold byte_val; intros H.
  rewrite <- (ascii_N_embedding a), <- (ascii_N_embedding b). now rewrite H.
Qed.

Lemma toUpperASCII_eq_iff (a b : byte) :
  toUpperASCII a = toUpperASCII b <-> fold_equal a b.
Proof.
  unfold toUpperASCII, fold_equal, lower_case.
  pose proof (N_ascii_bounded a) as Ha. pose proof (N_ascii_bounded b) as Hb.
  fold (byte_val a) in Ha. fold (byte_val b) in Hb.
  assert (Hemb : forall n, (n < 256)%N -> byte_val (ascii_of_N n) = n)
    by (intros n Hn; now apply N_ascii_embedding).
  destruct (N.leb_spec 97 (byte_val a)), (N.leb_spec (byte_val a) 122),
    (N.leb_spec 97 (byte_val b)), (N.leb_spec (byte_val b) 122); cbn;
    (split;
     [ intros E; apply (f_equal byte_val) in E;
       rewrite ?Hemb in E by lia;
       first [ left; apply byte_val_inj; lia | right; left; lia | right; right; lia ]
     | intros [E|[[Hl E]|[Hl E]]];
       [ try (subst b; reflexivity); try (subst a; reflexivity);
         apply (f_equal byte_val) in E; try lia
       | try lia; apply byte_val_inj; rewrite ?Hemb by lia; try lia
       | try lia; apply byte_val_inj; rewrite ?Hemb by lia; try lia ] ]).
Qed.

Lemma matchesAt_loop_spec (pm : PatternMatcher) (data : list byte) (pos : Z)
    (ignoreCase : bool) :
  well_formed pm -> 0 <= pos -> pos + patternLength pm <= len data ->
  forall (n : nat) (j : Z),
    0 <= j -> j + Z.of_nat n = patternLength pm ->
    exists b : bool,
      matchesAt_loop pm data pos ignoreCase n j = Some b /\
      (b = true <->
       forall j' : Z,
         j <= j' < patternLength pm ->
         index (wildcardMask pm) j' = Some false ->
         exists d p : byte,
           index data (pos + j') = Some d /\
           index (patternBytes pm) j' = Some p /\
           byte_matches ignoreCase d p).
Proof.
  intros [Hwf1 Hwf2] Hpos Hfit.
  induction n as [|n IH]; intros j Hj Hn.
  - exists true. split; [reflexivity|]. split; [|reflexivity].
    intros _ j' Hj'. lia.
  - cbn [matchesAt_loop].
    destruct (index_in_range (wildcardMask pm) j) as [w Hw]; [lia|].
    destruct (index_in_range data (pos + j)) as [d Hd]; [lia|].
    destruct (index_in_range (patternBytes pm) j) as [p Hp]; [lia|].
    destruct (IH (j + 1)) as (b & Hb & Hspec); [lia | lia |].
    rewrite Hw. destruct w.
    + exists b. split; [exact Hb|]. rewrite Hspec. split.
      * intros H j' Hj' Hm. destruct (Z.eq_dec j' j) as [->|]; [congruence|].
        apply H; [lia | exact Hm].
      * intros H j' Hj' Hm. apply H; [lia | exact Hm].
    + rewrite Hd, Hp.
      assert (Heq :
        Ascii.eqb (if ignoreCase then toUpperASCII d else d)
                  (if ignoreCase then toUpperASCII p else p) = true
        <-> byte_matches ignoreCase d p).
      { rewrite Ascii.eqb_eq. unfold byte_matches.
        destruct ignoreCase; [apply toUpperASCII_eq_iff | reflexivity]. }
      destruct (Ascii.eqb _ _) eqn:E; cbn [negb].
      * exists b. split; [exact Hb|]. rewrite Hspec. split.
        -- intros H j' Hj' Hm. destruct (Z.eq_dec j' j) as [->|].
           ++ exists d, p. repeat split; auto. now apply Heq.
           ++ apply H; [lia | exact Hm].
        -- intros H j' Hj' Hm. apply H; [lia | exact Hm].
      * exists false. split; [reflexivity|]. split; [discriminate|].
        intros H. destruct (H j) as (d' & p' & Hd' & Hp' & Hm); [lia | exact Hw |].
        assert (d' = d) by congruence. assert (p' = p) by congruence. subst.
        apply Heq in Hm. discriminate.
Qed.

Lemma matchesAt_spec (pm : PatternMatcher) (data : list byte) (pos : Z)
    (ignoreCase : bool) :
  well_formed pm -> 0 <= pos -> pos + patternLength pm <= len data ->
  exists b : bool,
    matchesAt pm data pos ignoreCase = Some b /\
    (b = true <-> occurs_at pm data ignoreCase pos).
Proof.
  intros Hwf Hpos Hfit. unfold matchesAt.
  assert (0 <= patternLength pm)
    by (destruct Hwf as [-> _]; apply len_nonneg).
  destruct (matchesAt_loop_spec pm data pos ignoreCase Hwf Hpos Hfit
              (Z.to_nat (patternLength pm)) 0) as (b & Hb & Hspec); [lia | lia |].
  exists b. split; [exact Hb|]. rewrite Hspec. unfold occurs_at. reflexivity.
Qed.

Lemma FindMatches_loop_spec (pm : PatternMatcher) (data : list byte)
    (ignoreCase : bool) :
  well_formed pm ->
  forall (n : nat) (i : Z) (acc : list Z),
    0 <= i -> i + Z.of_nat n + patternLength pm <= len data + 1 ->
    exists l : list Z,
      FindMatches_loop pm data ignoreCase n i acc = Some (acc ++ l) /\
      StronglySorted Z.lt l /\
      (forall x, In x l <->
                 i <= x < i + Z.of_nat n /\ occurs_at pm data ignoreCase x).
Proof.
  intros Hwf. induction n as [|n IH]; intros i acc Hi Hfit.
  - exists []. cbn. rewrite app_nil_r. split; [reflexivity|].
    split; [constructor|].
    intros x; split; [intros [] | intros [? _]; lia].
  - cbn [FindMatches_loop].
    destruct (matchesAt_spec pm data i ignoreCase Hwf Hi) as (b & Hb & Hspec);
      [lia|].
    rewrite Hb. destruct b.
    + destruct (IH (i + 1) (acc ++ [i])) as (l & Hl & Hsort & Hin); [lia | lia |].
      exists (i :: l). rewrite Hl, <- app_assoc. split; [reflexivity|]. split.
      * constructor; [exact Hsort|]. apply Forall_forall.
        intros x Hx. apply Hin in Hx. lia.
      * intros x. cbn [In]. rewrite Hin. split.
        -- intros [<-|[Hr Ho]]; [split; [lia | now apply Hspec] | split; [lia | exact Ho]].
        -- intros [Hr Ho]. destruct (Z.eq_dec i x); [now left | right; split; [lia | exact Ho]].
    + destruct (IH (i + 1) acc) as (l & Hl & Hsort & Hin); [lia | lia |].
      exists l. split; [exact Hl|]. split; [exact Hsort|].
      intros x. rewrite Hin. split.
      * intros [Hr Ho]; split; [lia | exact Ho].
      * intros [Hr Ho]. split; [|exact Ho].
        destruct (Z.eq_dec i x) as [<-|]; [|lia].
        apply Hspec in Ho. discriminate.
Qed.

Lemma FindMatches_spec (pm : PatternMatcher) (data : list byte)
    (ignoreCase : bool) :
  well_formed pm ->
  exists offsets : list Z,
    FindMatches pm data ignoreCase = Some offsets /\
    StronglySorted Z.lt offsets /\
    (forall i, In i offsets <->
               0 < patternLength pm /\
               0 <= i <= len data - patternLength pm /\
               occurs_at pm data ignoreCase i).
Proof.
  intros Hwf. unfold FindMatches.
  assert (0 <= patternLength pm)
    by (destruct Hwf as [-> _]; apply len_nonneg).
  destruct (Z.eqb_spec (patternLength pm) 0) as [H0|H0]; cbn [orb].
  - exists []. split; [reflexivity|]. split; [constructor|].
    intros i; split; [intros [] | intros (? & _); lia].
  - destruct (Z.gtb_spec (patternLength pm) (len data)) as [Hgt|Hle].
    + exists []. split; [reflexivity|]. split; [constructor|].
      intros i; split; [intros [] | intros (_ & ? & _); lia].
    + destruct (FindMatches_loop_spec pm data ignoreCase Hwf
                  (Z.to_nat (len data - patternLength pm + 1)) 0 [])
        as (l & Hl & Hsort & Hin); [lia | lia |].
      exists l. split; [exact Hl|]. split; [exact Hsort|].
      intros i. rewrite Hin. split.
      * intros [Hr Ho]. repeat split; try lia. exact Ho.
      * intros (_ & Hr & Ho). split; [lia | exact Ho].
Qed.

Lemma StronglySorted_lt_NoDup (l : list Z) : StronglySorted Z.lt l -> NoDup l.
Proof.
  induction 1 as [|x l Hs IH Hall]; constructor; auto.
  intros Hin. rewrite Forall_forall in Hall. specialize (Hall x Hin). lia.
Qed.

(** C5. For a matcher as [NewPatternMatcher] builds it (and for the zero
    value), [FindMatches] returns, without panicking, a duplicate-free list
    that holds exactly the offsets [i] with [0 <= i <= len(data) -
    patternLength] at which every position of the pattern that is not a
    wildcard agrees with the byte of the buffer, byte for byte or, with
    [ignoreCase], up to the case of ASCII letters; every such offset is
    listed, overlapping or not; an empty pattern or one longer than the
    buffer gives the empty list. *)
Theorem FindMatches_exact (pm : PatternMatcher) (data : list byte)
    (ignoreCase : bool) :
  well_formed pm ->
  exists offsets : list Z,
    FindMatches pm data ignoreCase = Some offsets /\
    NoDup offsets /\
    (forall i, In i offsets <->
               0 < patternLength pm /\
               0 <= i <= len data - patternLength pm /\
               occurs_at pm data ignoreCase i) /\
    (patternLength pm = 0 \/ patternLength pm > len data -> offsets = []).
Proof.
  intros Hwf.
  destruct (FindMatches_spec pm data ignoreCase Hwf) as (l & Hl & Hsort & Hin).
  exists l. split; [exact Hl|]. split; [now apply StronglySorted_lt_NoDup|].
  split; [exact Hin|].
  intros Hdeg. destruct l as [|x l]; [reflexivity|].
  assert (Hx : In x (x :: l)) by now left.
  apply Hin in Hx. lia.
Qed.

(** ** The order of events in a scan *)

Lemma resting_ok_ctx (M : Z) (h : list event) (d : option error) :
  resting M h -> ok_after M (hd_error h) (EvCtx d).
Proof.
  unfold resting, ok_after.
  destruct (hd_error h) as [[[e|]|a [mbi|]|b n buf r|m r]|];
    try (intros _; eauto; fail); try tauto.
  - intros [(a & r & E)|(m & r & E)]; discriminate.
  - destruct (will_read M mbi); [|intros _; eauto].
    intros (buf & r & E); discriminate.
Qed.

Lemma resting_after_read (M : Z) (base n : Z) (buf : nat)
    (r : option (list byte)) (h : list event) :
  resting M (EvRead base n buf r :: h).
Proof. cbn. eauto. Qed.

Lemma resting_after_handler (M : Z) (m : Match) (r : bool) (h : list event) :
  resting M (EvHandler m r :: h).
Proof. cbn. eauto. Qed.

Lemma FindMatches_offsets_fit (pm : PatternMatcher) (data : list byte)
    (ignoreCase : bool) :
  well_formed pm ->
  exists offsets : list Z,
    FindMatches pm data ignoreCase = Some offsets /\
    StronglySorted Z.lt offsets /\
    Forall (fun off => 0 <= off /\ off + patternLength pm <= len data /\
                       occurs_at pm data ignoreCase off) offsets.
Proof.
  intros Hwf.
  destruct (FindMatches_spec pm data ignoreCase Hwf) as (l & Hl & Hsort & Hin).
  exists l. repeat split; auto.
  apply Forall_forall. intros x Hx. apply Hin in Hx.
  repeat split; try lia. tauto.
Qed.

Section Order.

Variables (env : Env) (opts : ScanOptions) (M : Z) (pm : PatternMatcher).
Hypothesis Hwf : well_formed pm.

Lemma scanRegion_loop_chain (base : Z) (buf : slice) :
  forall (matches : list Z) (s : St) (o : outcome) (s' : St),
    Forall (fun off => off + patternLength pm <= len (elems buf)) matches ->
    scanRegion_loop env opts base pm buf matches s = (o, s') ->
    chain M (hist s) -> resting M (hist s) ->
    chain M (hist s') /\
    match o with
    | Returned (Some e) => hd_error (hist s') = Some (EvCtx (Some e))
    | Returned None => resting M (hist s')
    | _ => False
    end.
Proof.
  induction matches as [|off rest IH]; intros s o s' Hall H Hc Hr.
  - cbn in H. injection H as <- <-. auto.
  - inversion Hall as [|? ? Hoff Hrest]; subst.
    cbn [scanRegion_loop] in H. unfold bind, select_ctx_Done in H.
    destruct (ctx_Done env (hist s)) as [e|] eqn:Ed.
    + injection H as <- <-. cbn. split; [|reflexivity].
      split; [now apply resting_ok_ctx | exact Hc].
    + unfold GetPatternLength in H.
      destruct (Z.gtb_spec (off + patternLength pm) (len (elems buf)));
        [lia|].
      unfold make, call_Handler in H. cbn in H.
      match type of H with
      | context [Handler opts ?h ?m] =>
          destruct (Handler opts h m) eqn:Eh
      end; cbn in H.
      * apply IH in H; auto.
        -- cbn. split; [right; eauto|]. split; [now apply resting_ok_ctx | exact Hc].
        -- apply resting_after_handler.
      * injection H as <- <-. cbn. split; [|eauto].
        split; [right; eauto|]. split; [now apply resting_ok_ctx | exact Hc].
Qed.

Lemma scanRegion_chain (a : Z) (mbi : MemoryBasicInformation)
    (s : St) (o : outcome) (s' : St) :
  isReadableRegion mbi = true ->
  hd_error (hist s) = Some (EvQuery a (Some mbi)) ->
  scanRegion env opts (wrap64 (BaseAddress mbi)) (wrap64 (RegionSize mbi))
    M pm s = (o, s') ->
  chain M (hist s) ->
  chain M (hist s') /\
  match o with
  | Returned (Some e) => hd_error (hist s') = Some (EvCtx (Some e))
  | Returned None => resting M (hist s')
  | _ => False
  end.
Proof.
  intros Hread Hhd H Hc. unfold scanRegion in H.
  fold (read_end M mbi) in H.
  assert (Hwill : will_read M mbi
                  = (wrap64 (BaseAddress mbi) <? read_end M mbi))
    by (unfold will_read; now rewrite Hread).
  destruct (Z.leb_spec (read_end M mbi) (wrap64 (BaseAddress mbi))) as [Hle|Hlt].
  - injection H as <- <-. split; [exact Hc|].
    unfold resting. rewrite Hhd. cbn.
    rewrite Hwill. destruct (Z.ltb_spec (wrap64 (BaseAddress mbi)) (read_end M mbi));
      [lia | eauto].
  - assert (Hok : forall buf r,
        ok_after M (hd_error (hist s))
          (EvRead (wrap64 (BaseAddress mbi))
             (read_end M mbi - wrap64 (BaseAddress mbi)) buf r)).
    { intros buf r. rewrite Hhd. cbn. rewrite Hwill.
      destruct (Z.ltb_spec (wrap64 (BaseAddress mbi)) (read_end M mbi)); [|lia].
      unfold read_length. eauto. }
    unfold bind, make, call_ReadProcessMemory in H. cbn in H.
    destruct (ReadProcessMemory env (hist s) _ _) as [l|].
    + cbn in H.
      match type of H with
      | context [len ?g =? 0] => destruct (len g =? 0)
      end.
      * injection H as <- <-. cbn. split; [split; [apply Hok | exact Hc]|].
        eauto.
      * match type of H with
        | context [FindMatches pm ?d ?ic] =>
            destruct (FindMatches_offsets_fit pm d ic Hwf)
              as (offs & Hoffs & _ & Hfit)
        end.
        rewrite Hoffs in H.
        eapply scanRegion_loop_chain in H; eauto.
        -- eapply Forall_impl; [|exact Hfit]. cbn. intros; lia.
        -- cbn. split; [apply Hok | exact Hc].
        -- apply resting_after_read.
    + injection H as <- <-. cbn. split; [split; [apply Hok | exact Hc]|].
      eauto.
Qed.

Lemma Scan_loop_chain :
  forall (fuel : nat) (address : Z) (s : St) (o : outcome) (s' : St),
    Scan_loop fuel env opts pm M address s = (o, s') ->
    chain M (hist s) -> resting M (hist s) ->
    chain M (hist s') /\ stopped M o (hist s').
Proof.
  induction fuel as [|fuel IH]; intros address s o s' H Hc Hr.
  - cbn in H. injection H as <- <-. cbn. auto.
  - cbn [Scan_loop] in H.
    destruct (address <? M).
    2:{ injection H as <- <-. cbn. auto. }
    unfold bind at 1, select_ctx_Done in H.
    destruct (ctx_Done env (hist s)) as [e|] eqn:Ed.
    { injection H as <- <-. cbn. split; [|reflexivity].
      split; [now apply resting_ok_ctx | exact Hc]. }
    unfold bind at 1, call_VirtualQueryEx in H. cbn [hist nalloc] in H.
    destruct (VirtualQueryEx env _ address) as [mbi|] eqn:Eq.
    2:{ injection H as <- <-. cbn. split; [|eauto].
        split; [left; eauto|]. split; [now apply resting_ok_ctx | exact Hc]. }
    set (s2 := {| hist := EvQuery address (Some mbi) :: EvCtx None :: hist s;
                  nalloc := nalloc s |}) in H.
    assert (Hc2 : chain M (hist s2)).
    { cbn. split; [left; eauto|]. split; [now apply resting_ok_ctx | exact Hc]. }
    unfold bind in H.
    destruct (isReadableRegion mbi) eqn:Hread.
    + destruct (scanRegion env opts _ _ M pm s2) as [o3 s3] eqn:E3.
      destruct (scanRegion_chain address mbi s2 o3 s3
                  Hread eq_refl E3 Hc2) as [Hc3 Hst3].
      destruct o3 as [[e|]| |]; try contradiction.
      * injection H as <- <-. auto.
      * eapply IH; eauto.
    + cbn in H. eapply IH; eauto.
      unfold resting. cbn. unfold will_read. rewrite Hread. cbn. eauto.
Qed.

End Order.

Lemma chain_split (M : Z) (newer : list event) (e : event)
    (older : list event) :
  chain M (newer ++ e :: older) ->
  ok_after M (hd_error older) e /\ chain M older.
Proof.
  induction newer as [|x newer IH]; cbn; [tauto|]. intros [_ H]; auto.
Qed.

Lemma hd_error_rev {A : Type} (l : list A) (x : A) :
  hd_error (rev l) = Some x <-> exists l', l = l' ++ [x].
Proof.
  split.
  - intros H. destruct (rev l) as [|y t] eqn:E; [discriminate|].
    injection H as ->. exists (rev t).
    rewrite <- (rev_involutive l), E. reflexivity.
  - intros [l' ->]. now rewrite rev_app_distr.
Qed.

Lemma hd_error_rev_None {A : Type} (l : list A) :
  hd_error (rev l) = None <-> l = [].
Proof.
  split.
  - intros H. destruct (rev l) as [|y t] eqn:E; [|discriminate].
    rewrite <- (rev_involutive l), E. reflexivity.
  - now intros ->.
Qed.

(** The trace of a scan with a valid pattern, read from the start: each
    event is allowed after the one just before it, and the outcome fits
    the last event. *)
Lemma Scan_trace_chain (fuel : nat) (env : Env) (opts : ScanOptions)
    (pm : PatternMatcher) :
  NewPatternMatcher (Pattern opts) = Ok pm ->
  let M := wrap64 (MaxAddress opts) in
  let tr := snd (Scan fuel env opts) in
  stopped M (fst (Scan fuel env opts)) (rev tr) /\
  forall pre e post,
    tr = pre ++ e :: post -> ok_after M (hd_error (rev pre)) e.
Proof.
  intros Hpm M tr. subst tr. unfold Scan. rewrite Hpm.
  destruct (Scan_loop fuel env opts pm _ _ init_St) as [o s] eqn:E.
  apply NewPatternMatcher_well_formed in Hpm. destruct Hpm as [Hwf _].
  eapply Scan_loop_chain in E; eauto; try (cbn; eauto; fail).
  destruct E as [Hc Hst]. cbn [fst snd]. rewrite rev_involutive.
  split; [exact Hst|].
  intros pre e post Htr.
  apply (f_equal (@rev event)) in Htr.
  rewrite rev_involutive, rev_app_distr in Htr. cbn in Htr.
  rewrite <- app_assoc in Htr. cbn in Htr. rewrite Htr in Hc.
  now apply chain_split in Hc.
Qed.

Lemma read_after_query (M : Z) (prev : option event) (b n : Z) (buf : nat)
    (r : option (list byte)) :
  ok_after M prev (EvRead b n buf r) ->
  exists a mbi,
    prev = Some (EvQuery a (Some mbi)) /\ will_read M mbi = true /\
    b = wrap64 (BaseAddress mbi) /\ n = read_length M mbi.
Proof.
  unfold ok_after.
  destruct prev as [[[e|]|a [mbi|]|b' n' buf' r'|m' r']|];
    try (intros (d & E); discriminate); try contradiction.
  - intros [(a & q & E)|(m & q & E)]; discriminate.
  - destruct (will_read M mbi) eqn:Hw; [|intros (d & E); discriminate].
    intros (buf0 & r0 & E). injection E as -> -> -> ->. eauto 6.
Qed.

(** ** The matches a scan delivers *)

Lemma wrap64_small (z : Z) : 0 <= z < 2 ^ 64 -> wrap64 z = z.
Proof. intros H; unfold wrap64; now apply Z.mod_small. Qed.

Lemma wrap64_range (z : Z) : 0 <= wrap64 z < 2 ^ 64.
Proof. unfold wrap64; apply Z.mod_pos_bound; lia. Qed.

Lemma read_buffer_elems (a : nat) (n : Z) (l : list byte) :
  let got := firstn (Z.to_nat n) l in
  elems (reslice (copy {| arr := a; elems := repeat zero_byte (Z.to_nat n) |}
                    got) 0 (len got)) = got
  /\ arr (reslice (copy {| arr := a; elems := repeat zero_byte (Z.to_nat n) |}
                     got) 0 (len got)) = a
  /\ len got <= Z.max 0 n.
Proof.
  intros got. cbn. rewrite repeat_length.
  assert (Hlen : (List.length got <= Z.to_nat n)%nat)
    by (unfold got; rewrite length_firstn; lia).
  split; [|split; [reflexivity | unfold len; lia]].
  rewrite (firstn_all2 got) by exact Hlen.
  unfold len. rewrite Z.sub_0_r, Nat2Z.id.
  rewrite firstn_app, firstn_all, Nat.sub_diag. cbn. apply app_nil_r.
Qed.

Lemma match_data_elems (a : nat) (plen off : Z) (data : list byte) :
  0 <= off -> 0 <= plen -> off + plen <= len data ->
  let d := copy {| arr := a; elems := repeat zero_byte (Z.to_nat plen) |}
             (elems (reslice {| arr := 0; elems := data |} off (off + plen))) in
  elems d = firstn (Z.to_nat plen) (skipn (Z.to_nat off) data) /\
  len (elems d) = plen.
Proof.
  intros Hoff Hplen Hfit d. subst d. cbn. rewrite repeat_length.
  replace (off + plen - off) with plen by lia.
  set (sl := firstn (Z.to_nat plen) (skipn (Z.to_nat off) data)).
  assert (Hsl : List.length sl = Z.to_nat plen).
  { unfold sl. rewrite length_firstn, length_skipn. unfold len in Hfit. lia. }
  rewrite Hsl, skipn_all2 by (rewrite repeat_length; lia).
  rewrite app_nil_r, firstn_all2 by lia.
  split; [reflexivity|]. unfold len. lia.
Qed.

Lemma ids_below_fresh (n : nat) (h : list event) :
  ids_below n h -> ~ In n (used_arrays h).
Proof.
  unfold ids_below. rewrite Forall_forall. intros H Hin.
  specialize (H n Hin). lia.
Qed.

Lemma ids_below_S (n : nat) (h : list event) :
  ids_below n h -> ids_below (S n) h.
Proof. unfold ids_below. apply Forall_impl. intros; lia. Qed.

Section Payload.

Variables (env : Env) (opts : ScanOptions) (M : Z) (pm : PatternMatcher).
Hypothesis Hwf : well_formed pm.

Lemma scanRegion_loop_data (base : Z) (buf : slice) :
  0 <= base -> base + len (elems buf) < 2 ^ 64 -> 0 <= patternLength pm ->
  forall (matches : list Z) (s : St) (o : outcome) (s' : St),
    StronglySorted Z.lt matches ->
    Forall (fun off => 0 <= off /\ off + patternLength pm <= len (elems buf) /\
                       occurs_at pm (elems buf) (IgnoreCase opts) off)
      matches ->
    scanRegion_loop env opts base pm buf matches s = (o, s') ->
    hist_ok pm (IgnoreCase opts) (hist s) ->
    ids_below (nalloc s) (hist s) ->
    last_read (hist s) = Some (base, arr buf, elems buf) ->
    (forall a, last_address (hist s) = Some a ->
               Forall (fun off => a < base + off) matches) ->
    hist_ok pm (IgnoreCase opts) (hist s') /\ ids_below (nalloc s') (hist s').
Proof.
  intros Hbase Hend Hplen.
  induction matches as [|off rest IH];
    intros s o s' Hsort Hall H Hok Hids Hread Hlast.
  - cbn in H. injection H as <- <-. auto.
  - inversion Hall as [|? ? (Hoff & Hfit & Hocc) Hrest]; subst.
    inversion Hsort as [|? ? Hsort' Hlt]; subst.
    cbn [scanRegion_loop] in H. unfold bind, select_ctx_Done in H.
    destruct (ctx_Done env (hist s)) as [e|] eqn:Ed.
    + injection H as <- <-. cbn. auto.
    + unfold GetPatternLength in H.
      destruct (Z.gtb_spec (off + patternLength pm) (len (elems buf)));
        [lia|].
      unfold make, call_Handler in H. cbn [hist nalloc] in H.
      set (m := {| Address := wrap64 (base + off);
                   Data := copy _ _ |}) in H.
      assert (Hm : handler_ok pm (IgnoreCase opts) (EvCtx None :: hist s) m).
      { exists base, (arr buf), (elems buf), off.
        destruct (match_data_elems (nalloc s) (patternLength pm) off
                    (elems buf) Hoff Hplen Hfit) as [Hd Hl].
        cbn [last_read last_address used_arrays].
        assert (Ha : Address m = base + off)
          by (cbn; apply wrap64_small; lia).
        repeat split; auto.
        - now apply ids_below_fresh.
        - intros a Ha'. rewrite Ha. specialize (Hlast a Ha').
          inversion Hlast; subst; assumption. }
      assert (Hids' : ids_below (S (nalloc s))
                        (EvHandler m true :: EvCtx None :: hist s)).
      { unfold ids_below. cbn. constructor; [lia|].
        now apply ids_below_S. }
      destruct (Handler opts _ m) eqn:Eh; cbn in H.
      * apply IH in H; auto.
        -- cbn. auto.
        -- cbn [hist last_address]. intros a Ha. injection Ha as <-.
           assert (Ha : Address m = base + off)
             by (cbn; apply wrap64_small; lia).
           cbn in Ha. rewrite Ha.
           eapply Forall_impl; [|exact Hlt]. cbn. intros; lia.
      * injection H as <- <-. cbn [hist nalloc]. split; [cbn; auto|].
        unfold ids_below in *. cbn. cbn in Hids'. exact Hids'.
Qed.

Lemma scanRegion_data (base size : Z) (s : St) (o : outcome) (s' : St) :
  0 <= base ->
  scanRegion env opts base size M pm s = (o, s') ->
  hist_ok pm (IgnoreCase opts) (hist s) ->
  ids_below (nalloc s) (hist s) ->
  hist_ok pm (IgnoreCase opts) (hist s') /\ ids_below (nalloc s') (hist s').
Proof.
  intros Hbase H Hok Hids. unfold scanRegion in H.
  set (readEnd := if wrap64 (base + size) >? M then M else wrap64 (base + size))
    in H.
  assert (HreadEnd : readEnd <= wrap64 (base + size))
    by (unfold readEnd; destruct (Z.gtb_spec (wrap64 (base + size)) M); lia).
  pose proof (wrap64_range (base + size)) as Hw.
  destruct (Z.leb_spec readEnd base) as [Hle|Hlt].
  { injection H as <- <-. auto. }
  unfold bind, make, call_ReadProcessMemory in H. cbn [hist nalloc arr] in H.
  destruct (ReadProcessMemory env (hist s) base (readEnd - base)) as [l|].
  2:{ injection H as <- <-. cbn. split; [auto|].
      unfold ids_below. cbn. constructor; [lia | now apply ids_below_S]. }
  destruct (read_buffer_elems (nalloc s) (readEnd - base) l)
    as (Helems & Harr & Hlen).
  cbv zeta in Helems, Harr, Hlen.
  set (got := firstn (Z.to_nat (readEnd - base)) l) in *.
  set (buffer := reslice _ 0 (len got)) in *.
  assert (Hids' : ids_below (S (nalloc s))
            (EvRead base (readEnd - base) (nalloc s) (Some got) :: hist s)).
  { unfold ids_below. cbn. constructor; [lia | now apply ids_below_S]. }
  destruct (len got =? 0).
  { injection H as <- <-. cbn. auto. }
  destruct (FindMatches_offsets_fit pm (elems buffer) (IgnoreCase opts) Hwf)
    as (offs & Hoffs & Hsort & Hfit).
  rewrite Hoffs in H.
  eapply scanRegion_loop_data in H; eauto.
  - rewrite Helems. lia.
  - destruct Hwf as [Hlen' _]. rewrite Hlen'. apply len_nonneg.
  - cbn. auto.
  - cbn [hist last_read]. now rewrite Harr, Helems.
  - cbn [hist last_address]. discriminate.
Qed.

Lemma Scan_loop_data :
  forall (fuel : nat) (address : Z) (s : St) (o : outcome) (s' : St),
    Scan_loop fuel env opts pm M address s = (o, s') ->
    hist_ok pm (IgnoreCase opts) (hist s) ->
    ids_below (nalloc s) (hist s) ->
    hist_ok pm (IgnoreCase opts) (hist s') /\ ids_below (nalloc s') (hist s').
Proof.
  induction fuel as [|fuel IH]; intros address s o s' H Hok Hids.
  - cbn in H. injection H as <- <-. auto.
  - cbn [Scan_loop] in H.
    destruct (address <? M).
    2:{ injection H as <- <-. auto. }
    unfold bind at 1, select_ctx_Done in H.
    destruct (ctx_Done env (hist s)) as [e|] eqn:Ed.
    { injection H as <- <-. cbn. auto. }
    unfold bind at 1, call_VirtualQueryEx in H. cbn [hist nalloc] in H.
    destruct (VirtualQueryEx env _ address) as [mbi|] eqn:Eq.
    2:{ injection H as <- <-. cbn. auto. }
    set (s2 := {| hist := EvQuery address (Some mbi) :: EvCtx None :: hist s;
                  nalloc := nalloc s |}) in H.
    assert (Hok2 : hist_ok pm (IgnoreCase opts) (hist s2)) by (cbn; auto).
    assert (Hids2 : ids_below (nalloc s2) (hist s2)) by exact Hids.
    unfold bind in H.
    destruct (isReadableRegion mbi).
    + destruct (scanRegion env opts _ _ M pm s2) as [o3 s3] eqn:E3.
      apply scanRegion_data in E3; auto; [|apply wrap64_range].
      destruct E3 as [Hok3 Hids3].
      destruct o3 as [[e|]| |]; try (injection H as <- <-; auto; fail).
      eapply IH; eauto.
    + cbn in H. eapply IH; eauto.
Qed.

End Payload.

Lemma hist_ok_split (pm : PatternMatcher) (ic : bool) (newer : list event)
    (m : Match) (r : bool) (older : list event) :
  hist_ok pm ic (newer ++ EvHandler m r :: older) -> handler_ok pm ic older m.
Proof.
  induction newer as [|x newer IH]; cbn; [tauto|]. intros [H _]; auto.
Qed.

Lemma hist_ok_tail (pm : PatternMatcher) (ic : bool)
    (newer older : list event) :
  hist_ok pm ic (newer ++ older) -> hist_ok pm ic older.
Proof.
  induction newer as [|x newer IH]; cbn; [tauto|]. intros [H _]; auto.
Qed.

Lemma last_read_split (h : list event) (base : Z) (buf : nat)
    (got : list byte) :
  last_read h = Some (base, buf, got) ->
  exists mid n older,
    h = mid ++ EvRead base n buf (Some got) :: older /\
    Forall same_region_event mid.
Proof.
  induction h as [|e h IH]; cbn; [discriminate|].
  destruct e as [d|a r|b n bf [g|]|m r]; try discriminate.
  - intros H. destruct (IH H) as (mid & n & older & -> & Hmid).
    exists (EvCtx d :: mid), n, older. split; [reflexivity|].
    constructor; cbn; auto.
  - intros H. injection H as -> -> ->. exists [], n, h. split; auto.
  - intros H. destruct (IH H) as (mid & n & older & -> & Hmid).
    exists (EvHandler m r :: mid), n, older. split; [reflexivity|].
    constructor; cbn; auto.
Qed.

Lemma used_arrays_app (l1 l2 : list event) :
  used_arrays (l1 ++ l2) = used_arrays l1 ++ used_arrays l2.
Proof.
  induction l1 as [|e l1 IH]; cbn; [reflexivity|].
  destruct e; cbn; now rewrite IH.
Qed.

Lemma used_arrays_rev (l : list event) (a : nat) :
  In a (used_arrays (rev l)) <-> In a (used_arrays l).
Proof.
  induction l as [|e l IH]; cbn; [tauto|].
  rewrite used_arrays_app, in_app_iff, IH.
  destruct e; cbn; tauto.
Qed.

Lemma last_address_since (pm : PatternMatcher) (ic : bool) (m1 : Match)
    (r1 : bool) (older : list event) :
  forall mid : list event,
    Forall same_region_event mid ->
    hist_ok pm ic (mid ++ EvHandler m1 r1 :: older) ->
    exists a, last_address (mid ++ EvHandler m1 r1 :: older) = Some a /\
              Address m1 <= a.
Proof.
  induction mid as [|e mid IH]; intros Hmid Hok.
  - cbn. exists (Address m1). split; [reflexivity | lia].
  - inversion Hmid as [|? ? He Hmid']; subst.
    cbn in Hok. destruct Hok as [Hok He'].
    destruct (IH Hmid' Hok) as (a & Ha & Hle).
    destruct e as [d|q r|b n bf g|m r]; cbn in He; try contradiction.
    + cbn. eauto.
    + cbn. exists (Address m). split; [reflexivity|].
      destruct He' as (_ & _ & _ & _ & _ & _ & _ & _ & _ & _ & _ & _ & Hlt).
      specialize (Hlt a Ha). lia.
Qed.

Lemma Scan_trace_data (fuel : nat) (env : Env) (opts : ScanOptions)
    (pm : PatternMatcher) :
  NewPatternMatcher (Pattern opts) = Ok pm ->
  hist_ok pm (IgnoreCase opts) (rev (snd (Scan fuel env opts))).
Proof.
  intros Hpm. unfold Scan. rewrite Hpm.
  destruct (Scan_loop fuel env opts pm _ _ init_St) as [o s] eqn:E.
  apply NewPatternMatcher_well_formed in Hpm. destruct Hpm as [Hwf _].
  eapply Scan_loop_data in E; eauto; try (cbn; auto; fail).
  - cbn [snd]. rewrite rev_involutive. tauto.
  - constructor.
Qed.

(** C8. Every match handed to the handler was cut from the buffer of the
    read just before it (only cancellation polls and other handler calls
    lie in between), at an offset where the pattern occurs in that buffer:
    its data has exactly the length of the compiled pattern, equals the
    bytes the read transferred at the match offset,
    sits in an array of its own that no earlier read buffer or match uses,
    and its address is the base address of that read, which is the base of
    the region queried, plus the offset. *)
Theorem Match_payload (fuel : nat) (env : Env) (opts : ScanOptions)
    (pm : PatternMatcher) (pre : list event) (m : Match) (r : bool)
    (post : list event) :
  NewPatternMatcher (Pattern opts) = Ok pm ->
  snd (Scan fuel env opts) = pre ++ EvHandler m r :: post ->
  exists (before : list event) (a : Z) (mbi : MemoryBasicInformation)
         (n : Z) (buf : nat) (got : list byte) (mid : list event) (off : Z),
    pre = before ++ EvQuery a (Some mbi)
                 :: EvRead (wrap64 (BaseAddress mbi)) n buf (Some got) :: mid /\
    Forall same_region_event mid /\
    0 <= off /\ off + patternLength pm <= len got /\
    occurs_at pm got (IgnoreCase opts) off /\
    len (elems (Data m)) = patternLength pm /\
    elems (Data m)
    = firstn (Z.to_nat (patternLength pm)) (skipn (Z.to_nat off) got) /\
    Address m = wrap64 (BaseAddress mbi) + off /\
    arr (Data m) <> buf /\
    ~ In (arr (Data m)) (used_arrays pre).
Proof.
  intros Hpm Htr.
  pose proof (Scan_trace_data fuel env opts pm Hpm) as Hok.
  destruct (Scan_trace_chain fuel env opts pm Hpm) as [_ Hchain].
  cbv zeta in Hchain.
  rewrite Htr, rev_app_distr in Hok. cbn in Hok. rewrite <- app_assoc in Hok.
  apply hist_ok_split in Hok.
  destruct Hok as (base & buf & got & off & Hread & Hoff & Hfit & Hocc
                   & Haddr & Helems & Hlen & Hfresh & _).
  apply last_read_split in Hread.
  destruct Hread as (mid & n & older & Hpre & Hmid).
  apply (f_equal (@rev event)) in Hpre.
  rewrite rev_involutive, rev_app_distr in Hpre. cbn in Hpre.
  rewrite <- app_assoc in Hpre. cbn in Hpre.
  assert (Hq : ok_after (wrap64 (MaxAddress opts)) (hd_error (rev (rev older)))
                 (EvRead base n buf (Some got))).
  { apply (Hchain (rev older) _ (rev mid ++ EvHandler m r :: post)).
    rewrite Htr, Hpre, <- app_assoc. reflexivity. }
  apply read_after_query in Hq.
  destruct Hq as (a & mbi & Hprev & _ & -> & _).
  apply hd_error_rev in Hprev. destruct Hprev as [before Hbefore].
  exists before, a, mbi, n, buf, got, (rev mid), off.
  assert (Hpre' : pre = before ++ EvQuery a (Some mbi)
                    :: EvRead (wrap64 (BaseAddress mbi)) n buf (Some got)
                    :: rev mid)
    by (rewrite Hpre, Hbefore, <- app_assoc; reflexivity).
  assert (Hnot : ~ In (arr (Data m)) (used_arrays pre))
    by (intros Hin; apply Hfresh; now apply used_arrays_rev).
  repeat split; auto.
  - now apply Forall_rev.
  - intros Heq. apply Hnot. rewrite Hpre', !used_arrays_app. cbn.
    apply in_or_app. right. left. now symmetry.
Qed.

(** C10. The offsets [FindMatches] returns are strictly increasing, hence
    without repetition; and of two handler calls made for the same region
    (nothing but cancellation polls and handler calls between them) the
    later one carries the strictly greater address. *)
Theorem matches_strictly_increasing :
  (forall (pm : PatternMatcher) (data : list byte) (ignoreCase : bool),
     well_formed pm ->
     exists offsets : list Z,
       FindMatches pm data ignoreCase = Some offsets /\
       StronglySorted Z.lt offsets /\ NoDup offsets) /\
  (forall (fuel : nat) (env : Env) (opts : ScanOptions) (pm : PatternMatcher)
          (pre : list event) (m1 : Match) (r1 : bool) (mid : list event)
          (m2 : Match) (r2 : bool) (post : list event),
     NewPatternMatcher (Pattern opts) = Ok pm ->
     snd (Scan fuel env opts)
     = pre ++ EvHandler m1 r1 :: mid ++ EvHandler m2 r2 :: post ->
     Forall same_region_event mid ->
     Address m1 < Address m2).
Proof.
  split.
  - intros pm data ic Hwf.
    destruct (FindMatches_spec pm data ic Hwf) as (l & Hl & Hsort & _).
    exists l. repeat split; auto. now apply StronglySorted_lt_NoDup.
  - intros fuel env opts pm pre m1 r1 mid m2 r2 post Hpm Htr Hmid.
    pose proof (Scan_trace_data fuel env opts pm Hpm) as Hok.
    rewrite Htr in Hok.
    rewrite rev_app_distr in Hok. cbn in Hok.
    rewrite rev_app_distr in Hok. cbn in Hok.
    rewrite <- !app_assoc in Hok. cbn in Hok.
    pose proof (hist_ok_split _ _ _ _ _ _ Hok) as Hm2.
    replace (rev post ++ EvHandler m2 r2 :: rev mid ++ EvHandler m1 r1 :: rev pre)
      with ((rev post ++ [EvHandler m2 r2])
            ++ rev mid ++ EvHandler m1 r1 :: rev pre) in Hok
      by (rewrite <- app_assoc; reflexivity).
    apply hist_ok_tail in Hok.
    destruct (last_address_since _ _ m1 r1 (rev pre) (rev mid)
                (Forall_rev Hmid) Hok) as (a & Ha & Hle).
    destruct Hm2 as (_ & _ & _ & _ & _ & _ & _ & _ & _ & _ & _ & _ & Hlt).
    specialize (Hlt a Ha). lia.
Qed.

(** ** Which regions are read *)

Lemma will_read_iff (M : Z) (mbi : MemoryBasicInformation) :
  will_read M mbi = true <->
  State mbi = MEM_COMMIT /\ Z.land (Protect mbi) readable_mask <> 0 /\
  wrap64 (BaseAddress mbi) < read_end M mbi.
Proof.
  unfold will_read, isReadableRegion, readable_mask.
  rewrite !andb_true_iff, negb_true_iff, Z.eqb_neq, Z.eqb_eq, Z.ltb_lt.
  tauto.
Qed.

Lemma Scan_query_then_read (fuel : nat) (env : Env) (opts : ScanOptions)
    (pm : PatternMatcher) (pre : list event) (a : Z)
    (mbi : MemoryBasicInformation) (post : list event) :
  NewPatternMatcher (Pattern opts) = Ok pm ->
  snd (Scan fuel env opts) = pre ++ EvQuery a (Some mbi) :: post ->
  if will_read (wrap64 (MaxAddress opts)) mbi then
    exists buf r post',
      post = EvRead (wrap64 (BaseAddress mbi))
               (read_length (wrap64 (MaxAddress opts)) mbi) buf r :: post'
  else
    post = [] \/ exists d post', post = EvCtx d :: post'.
Proof.
  intros Hpm Htr.
  destruct (Scan_trace_chain fuel env opts pm Hpm) as [Hstop Hchain].
  cbv zeta in Hstop, Hchain. set (M := wrap64 (MaxAddress opts)) in *.
  destruct post as [|e post'].
  - rewrite Htr, rev_app_distr in Hstop. cbn in Hstop.
    destruct (will_read M mbi) eqn:Hw; [|now left].
    exfalso.
    assert (Hrest : ~ resting M (EvQuery a (Some mbi) :: rev pre)).
    { unfold resting. cbn. rewrite Hw. intros (buf & r & E). discriminate. }
    destruct (fst (Scan fuel env opts)) as [[err|]| |]; cbn in Hstop.
    + discriminate.
    + destruct Hstop as [Hr|[a' E]]; [now apply Hrest | discriminate].
    + contradiction.
    + now apply Hrest.
  - specialize (Hchain (pre ++ [EvQuery a (Some mbi)]) e post').
    rewrite <- app_assoc in Hchain. specialize (Hchain Htr).
    rewrite rev_app_distr in Hchain. cbn in Hchain.
    destruct (will_read M mbi).
    + destruct Hchain as (buf & r & ->). eauto.
    + destruct Hchain as (d & ->). right. eauto.
Qed.

(** C3, as the code has it.  A descriptor the walk obtains is read from
    exactly when its state is [MEM_COMMIT], its protection word has one of
    the bits [PAGE_READONLY], [PAGE_READWRITE], [PAGE_EXECUTE_READ],
    [PAGE_EXECUTE_READWRITE] set, and its part below [MaxAddress] is not
    empty; the read then comes directly after the query, at the region's
    base, and every read of a scan is such a read.  Reserved and free
    regions and the protections no-access, write-copy, execute-only and
    execute-write-copy fail the test; the modifier bits [PAGE_GUARD],
    [PAGE_NOCACHE] and [PAGE_WRITECOMBINE] do not enter it. *)
Theorem reads_follow_region_test (fuel : nat) (env : Env) (opts : ScanOptions)
    (pm : PatternMatcher) :
  NewPatternMatcher (Pattern opts) = Ok pm ->
  (forall pre a mbi post,
     snd (Scan fuel env opts) = pre ++ EvQuery a (Some mbi) :: post ->
     ((exists n buf r post', post = EvRead (wrap64 (BaseAddress mbi)) n buf r :: post')
      <->
      (State mbi = MEM_COMMIT /\ Z.land (Protect mbi) readable_mask <> 0 /\
       wrap64 (BaseAddress mbi) < read_end (wrap64 (MaxAddress opts)) mbi))) /\
  (forall pre b n buf r post,
     snd (Scan fuel env opts) = pre ++ EvRead b n buf r :: post ->
     exists pre' a mbi,
       pre = pre' ++ [EvQuery a (Some mbi)] /\
       b = wrap64 (BaseAddress mbi) /\
       n = read_length (wrap64 (MaxAddress opts)) mbi /\
       State mbi = MEM_COMMIT /\ Z.land (Protect mbi) readable_mask <> 0) /\
  ((forall p, readable_protection p -> Z.land p readable_mask <> 0) /\
   Z.land PAGE_NOACCESS readable_mask = 0 /\
   Z.land PAGE_WRITECOPY readable_mask = 0 /\
   Z.land PAGE_EXECUTE readable_mask = 0 /\
   Z.land PAGE_EXECUTE_WRITECOPY readable_mask = 0 /\
   MEM_RESERVE <> MEM_COMMIT /\ MEM_FREE <> MEM_COMMIT /\
   (forall p, Z.land (Z.lor p PAGE_GUARD) readable_mask
              = Z.land p readable_mask) /\
   (forall p, Z.land (Z.lor p PAGE_NOCACHE) readable_mask
              = Z.land p readable_mask) /\
   (forall p, Z.land (Z.lor p PAGE_WRITECOMBINE) readable_mask
              = Z.land p readable_mask)).
Proof.
  intros Hpm. split; [|split].
  - intros pre a mbi post Htr.
    pose proof (Scan_query_then_read fuel env opts pm pre a mbi post Hpm Htr)
      as Hnext.
    rewrite <- will_read_iff.
    destruct (will_read (wrap64 (MaxAddress opts)) mbi).
    + destruct Hnext as (buf & r & post' & ->). split; eauto 6.
    + split; [|discriminate].
      intros (n & buf & r & post' & ->).
      destruct Hnext as [E|(d & p' & E)]; discriminate.
  - intros pre b n buf r post Htr.
    destruct (Scan_trace_chain fuel env opts pm Hpm) as [_ Hchain].
    cbv zeta in Hchain. specialize (Hchain pre _ post Htr).
    apply read_after_query in Hchain.
    destruct Hchain as (a & mbi & Hprev & Hw & -> & ->).
    apply hd_error_rev in Hprev. destruct Hprev as [pre' ->].
    apply will_read_iff in Hw. exists pre', a, mbi. tauto.
  - repeat split; try reflexivity; try discriminate.
    + intros p [ -> | [ -> | [ -> | -> ] ] ]; discriminate.
    + intros p. now rewrite Z.land_lor_distr_l, Z.lor_0_r.
    + intros p. now rewrite Z.land_lor_distr_l, Z.lor_0_r.
    + intros p. now rewrite Z.land_lor_distr_l, Z.lor_0_r.
Qed.

(** ** Termination of the walk *)

Lemma next_address_advances (a : Z) (mbi : MemoryBasicInformation) :
  advancing a mbi ->
  a < next_address (wrap64 (BaseAddress mbi)) (wrap64 (RegionSize mbi)).
Proof.
  unfold advancing, next_address.
  pose proof (wrap64_range (BaseAddress mbi)) as Hb.
  pose proof (wrap64_range (RegionSize mbi)) as Hs.
  intros [[Hpos Hend]|(Hz & Hle & Hend)].
  - destruct (Z.eqb_spec (wrap64 (RegionSize mbi)) 0); [lia|].
    rewrite wrap64_small; lia.
  - rewrite Hz, Z.add_0_r. cbn.
    rewrite (wrap64_small (wrap64 (BaseAddress mbi))) by lia.
    rewrite wrap64_small; lia.
Qed.

Lemma next_address_range (base size : Z) :
  0 <= next_address base size < 2 ^ 64.
Proof.
  unfold next_address. destruct (size =? 0); apply wrap64_range.
Qed.

Section Termination.

Variables (env : Env) (opts : ScanOptions) (M : Z) (pm : PatternMatcher).

Lemma scanRegion_loop_grows (base : Z) (buf : slice) :
  forall (matches : list Z) (s : St) (o : outcome) (s' : St),
    scanRegion_loop env opts base pm buf matches s = (o, s') ->
    (List.length (hist s) <= List.length (hist s'))%nat /\ o <> Unfinished.
Proof.
  induction matches as [|off rest IH]; intros s o s' H.
  - cbn in H. injection H as <- <-. split; [lia | discriminate].
  - cbn [scanRegion_loop] in H. unfold bind, select_ctx_Done in H.
    destruct (ctx_Done env (hist s)).
    + injection H as <- <-. cbn. split; [lia | discriminate].
    + destruct (_ >? _).
      * apply IH in H. cbn in H. split; [lia | tauto].
      * unfold make, call_Handler in H. cbn in H.
        destruct (Handler opts _ _); cbn in H.
        -- apply IH in H. cbn in H. split; [lia | tauto].
        -- injection H as <- <-. cbn. split; [lia | discriminate].
Qed.

Lemma scanRegion_grows (base size : Z) (s : St) (o : outcome) (s' : St) :
  scanRegion env opts base size M pm s = (o, s') ->
  (List.length (hist s) <= List.length (hist s'))%nat /\ o <> Unfinished.
Proof.
  unfold scanRegion. intros H.
  destruct (_ <=? base).
  { injection H as <- <-. split; [lia | discriminate]. }
  unfold bind, make, call_ReadProcessMemory in H. cbn in H.
  destruct (ReadProcessMemory env (hist s) _ _).
  2:{ injection H as <- <-. cbn. split; [lia | discriminate]. }
  cbn in H. destruct (_ =? 0).
  { injection H as <- <-. cbn. split; [lia | discriminate]. }
  destruct (FindMatches pm _ _).
  - apply scanRegion_loop_grows in H. cbn in H. split; [lia | tauto].
  - injection H as <- <-. cbn. split; [lia | discriminate].
Qed.

(** One more iteration than needed changes nothing. *)
Lemma Scan_loop_more_fuel :
  forall (fuel : nat) (address : Z) (s : St) (o : outcome) (s' : St),
    Scan_loop fuel env opts pm M address s = (o, s') ->
    o <> Unfinished ->
    forall k : nat, Scan_loop (fuel + k) env opts pm M address s = (o, s').
Proof.
  induction fuel as [|fuel IH]; intros address s o s' H Ho k.
  - cbn in H. injection H as <- <-. congruence.
  - cbn [Nat.add Scan_loop] in *.
    destruct (address <? M); [|exact H].
    unfold bind in *.
    destruct (select_ctx_Done env s) as [[e|] s1]; [exact H|].
    destruct (call_VirtualQueryEx env address s1) as [[mbi|] s2]; [|exact H].
    destruct (if isReadableRegion mbi then _ else _) as [[[e|]| |] s3];
      try exact H.
    now apply IH.
Qed.

Lemma Scan_loop_progress :
  advancing_queries env M ->
  forall (fuel : nat) (address : Z) (s : St),
    0 <= address ->
    Z.max 0 (M - address) < Z.of_nat fuel ->
    fst (Scan_loop fuel env opts pm M address s) <> Unfinished.
Proof.
  intros Hadv. induction fuel as [|fuel IH]; intros address s Ha Hfuel; [lia|].
  cbn [Scan_loop].
  destruct (Z.ltb_spec address M) as [Hlt|Hge]; [|discriminate].
  unfold bind at 1, select_ctx_Done.
  destruct (ctx_Done env (hist s)); [discriminate|].
  unfold bind at 1, call_VirtualQueryEx. cbn [hist nalloc].
  destruct (VirtualQueryEx env _ address) as [mbi|] eqn:Eq; [|discriminate].
  apply Hadv in Eq; [|lia]. apply next_address_advances in Eq.
  pose proof (next_address_range (wrap64 (BaseAddress mbi))
                (wrap64 (RegionSize mbi))) as Hn.
  unfold bind.
  destruct (if isReadableRegion mbi then _ else _) as [o3 s3] eqn:E3.
  assert (Ho3 : o3 <> Unfinished).
  { destruct (isReadableRegion mbi).
    - now apply scanRegion_grows in E3.
    - injection E3 as <- <-. discriminate. }
  destruct o3 as [[e|]| |]; try discriminate; [|contradiction].
  apply IH; lia.
Qed.

Lemma Scan_loop_cancelled (t : nat) :
  cancelled_after env t ->
  forall (fuel : nat) (address : Z) (s : St),
    (t < List.length (hist s) + fuel)%nat -> (0 < fuel)%nat ->
    fst (Scan_loop fuel env opts pm M address s) <> Unfinished.
Proof.
  intros Hc. induction fuel as [|fuel IH]; intros address s Ht Hfuel; [lia|].
  cbn [Scan_loop].
  destruct (address <? M); [|discriminate].
  unfold bind at 1, select_ctx_Done.
  destruct (ctx_Done env (hist s)) eqn:Ed; [discriminate|].
  assert (Hlen : (List.length (hist s) < t)%nat).
  { destruct (Nat.ltb_spec (List.length (hist s)) t) as [|Hge]; [assumption|].
    apply Hc in Hge. congruence. }
  unfold bind at 1, call_VirtualQueryEx. cbn [hist nalloc].
  destruct (VirtualQueryEx env _ address) as [mbi|]; [|discriminate].
  unfold bind.
  destruct (if isReadableRegion mbi then _ else _) as [o3 s3] eqn:E3.
  assert (Ho3 : (S (S (List.length (hist s))) <= List.length (hist s3))%nat
                /\ o3 <> Unfinished).
  { destruct (isReadableRegion mbi).
    - apply scanRegion_grows in E3. cbn in E3. exact E3.
    - injection E3 as <- <-. cbn. split; [lia | discriminate]. }
  destruct Ho3 as [Hgrow Ho3].
  destruct o3 as [[e|]| |]; try discriminate; [|contradiction].
  apply IH; lia.
Qed.

End Termination.

Lemma Scan_returns (fuel : nat) (env : Env) (opts : ScanOptions) :
  fst (Scan fuel env opts) <> Unfinished ->
  exists err, fst (Scan fuel env opts) = Returned err.
Proof.
  intros Hfin.
  destruct (NewPatternMatcher (Pattern opts)) as [pm|e] eqn:Hpm.
  - destruct (Scan_trace_chain fuel env opts pm Hpm) as [Hstop _].
    destruct (fst (Scan fuel env opts)) as [err| |]; cbn in Hstop;
      [eauto | contradiction | congruence].
  - rewrite (Scan_invalid_pattern fuel env opts e Hpm). cbn. eauto.
Qed.

Lemma Scan_more_fuel (fuel k : nat) (env : Env) (opts : ScanOptions) :
  fst (Scan fuel env opts) <> Unfinished ->
  Scan (fuel + k) env opts = Scan fuel env opts.
Proof.
  unfold Scan. destruct (NewPatternMatcher (Pattern opts)) as [pm|e];
    [|reflexivity].
  destruct (Scan_loop fuel env opts pm _ _ init_St) as [o s] eqn:E.
  cbn [fst]. intros Ho.
  now rewrite (Scan_loop_more_fuel env opts _ pm fuel _ _ o s E Ho k).
Qed.

(** C9, as the code has it.  After a region the cursor is [base + size]
    (modulo [2^64]), and [base + 1] when the size is zero.  If every
    descriptor the query returns for a cursor ends beyond that cursor
    within 64 bits, or has size zero and does not lie below the cursor,
    each iteration moves the cursor up by at least one and the walk
    returns after at most [MaxAddress - MinAddress] iterations, whatever
    else the surroundings do; more iterations allowed change nothing. *)
Theorem region_walk_terminates (env : Env) (opts : ScanOptions) :
  advancing_queries env (wrap64 (MaxAddress opts)) ->
  (forall fuel : nat,
     Z.max 0 (wrap64 (MaxAddress opts) - wrap64 (MinAddress opts))
     < Z.of_nat fuel ->
     (exists err, fst (Scan fuel env opts) = Returned err) /\
     (forall k : nat, Scan (fuel + k) env opts = Scan fuel env opts)) /\
  (forall base size : Z,
     size <> 0 -> next_address base size = wrap64 (base + size)) /\
  (forall base : Z,
     0 <= base -> base + 1 < 2 ^ 64 -> next_address base 0 = base + 1) /\
  (forall (a : Z) (mbi : MemoryBasicInformation),
     advancing a mbi ->
     a + 1 <= next_address (wrap64 (BaseAddress mbi))
                (wrap64 (RegionSize mbi))).
Proof.
  intros Hadv. split; [|split; [|split]].
  - intros fuel Hfuel.
    assert (Hfin : fst (Scan fuel env opts) <> Unfinished).
    { unfold Scan. destruct (NewPatternMatcher (Pattern opts)) as [pm|e];
        [|discriminate].
      pose proof (Scan_loop_progress env opts _ pm Hadv fuel
                    (wrap64 (MinAddress opts)) init_St
                    (proj1 (wrap64_range _)) Hfuel) as Hp.
      destruct (Scan_loop fuel env opts pm _ _ init_St). exact Hp. }
    split; [now apply Scan_returns|].
    intros k. now apply Scan_more_fuel.
  - intros base size Hsize. unfold next_address.
    destruct (Z.eqb_spec size 0); [contradiction | reflexivity].
  - intros base Hb Hend. unfold next_address. cbn.
    rewrite Z.add_0_r, (wrap64_small base) by lia.
    apply wrap64_small; lia.
  - intros a mbi Ha. apply next_address_advances in Ha. lia.
Qed.

(** C2, as the code has it.  When the context is cancelled at some moment
    and stays cancelled, [Scan] returns, and it returns [ctx.Err()], not
    [nil], exactly when a poll saw the cancellation; that poll is the last
    thing the scan does, so the handler calls made are those before it.
    A poll that saw nothing precedes every region query and every handler
    call. *)
Theorem Scan_cancellation (env : Env) (opts : ScanOptions)
    (pm : PatternMatcher) (t fuel : nat) :
  NewPatternMatcher (Pattern opts) = Ok pm ->
  cancelled_after env t ->
  (t < fuel)%nat ->
  (exists err, fst (Scan fuel env opts) = Returned err) /\
  (forall k : nat, Scan (fuel + k) env opts = Scan fuel env opts) /\
  (forall e : error,
     fst (Scan fuel env opts) = Returned (Some e) <->
     exists pre, snd (Scan fuel env opts) = pre ++ [EvCtx (Some e)]) /\
  (forall pre e post,
     snd (Scan fuel env opts) = pre ++ EvCtx (Some e) :: post ->
     post = [] /\ fst (Scan fuel env opts) = Returned (Some e)) /\
  (forall pre ev post,
     snd (Scan fuel env opts) = pre ++ ev :: post ->
     checked_event ev ->
     exists pre', pre = pre' ++ [EvCtx None]).
Proof.
  intros Hpm Hc Hfuel.
  assert (Hfin : fst (Scan fuel env opts) <> Unfinished).
  { unfold Scan. rewrite Hpm.
    pose proof (Scan_loop_cancelled env opts (wrap64 (MaxAddress opts)) pm t Hc
                  fuel (wrap64 (MinAddress opts)) init_St) as Hp.
    destruct (Scan_loop fuel env opts pm _ _ init_St).
    apply Hp; cbn; lia. }
  destruct (Scan_trace_chain fuel env opts pm Hpm) as [Hstop Hchain].
  cbv zeta in Hstop, Hchain. set (M := wrap64 (MaxAddress opts)) in *.
  assert (Hlast : forall pre e post,
            snd (Scan fuel env opts) = pre ++ EvCtx (Some e) :: post ->
            post = []).
  { intros pre e post Htr. destruct post as [|x post]; [reflexivity|].
    specialize (Hchain (pre ++ [EvCtx (Some e)]) x post).
    rewrite <- app_assoc in Hchain. specialize (Hchain Htr).
    rewrite rev_app_distr in Hchain. cbn in Hchain. contradiction. }
  assert (Hend : forall pre e,
            snd (Scan fuel env opts) = pre ++ [EvCtx (Some e)] ->
            fst (Scan fuel env opts) = Returned (Some e)).
  { intros pre e Htr. rewrite Htr, rev_app_distr in Hstop. cbn in Hstop.
    destruct (fst (Scan fuel env opts)) as [[e'|]| |]; cbn in Hstop.
    - now injection Hstop as <-.
    - destruct Hstop as [Hr|[a E]]; [contradiction | discriminate].
    - contradiction.
    - contradiction. }
  split; [now apply Scan_returns|].
  split; [intros k; now apply Scan_more_fuel|].
  split; [|split].
  - intros e. split; [|intros [pre Htr]; eapply Hend; eauto].
    intros Ho. rewrite Ho in Hstop. cbn in Hstop.
    now apply hd_error_rev in Hstop.
  - intros pre e post Htr. pose proof (Hlast pre e post Htr) as ->.
    split; [reflexivity|]. eapply Hend; eauto.
  - intros pre ev post Htr Hev. specialize (Hchain pre ev post Htr).
    apply hd_error_rev.
    destruct (hd_error (rev pre)) as [[[e|]|a [mbi|]|b n buf r|m r]|];
      cbn in Hchain; try contradiction; try reflexivity;
      try (destruct Hchain as (d & ->); contradiction).
    destruct (will_read M mbi).
    + destruct Hchain as (buf & r & ->). contradiction.
    + destruct Hchain as (d & ->). contradiction.
Qed.

(** ** The scan at concrete inputs *)

(** C1 fails on the code.  Two readable regions hold one match each and
    the handler asks to stop at its first call: [scanRegion] returns [nil]
    for the stop, [Scan] takes that for a region scanned to its end and
    goes on, so the second region is queried and read and the handler is
    called a second time. *)
Theorem stop_does_not_end_the_scan :
  Scan 10 (static_env never_done two_regions "AbcdAxyz") opts_stop_first
  = (Returned None,
     [EvCtx None;
      EvQuery 0 (Some (region 0 4 MEM_COMMIT PAGE_READWRITE));
      EvRead 0 4 0 (Some (bytes_of_string "Abcd"));
      EvCtx None;
      EvHandler {| Address := 0;
                   Data := {| arr := 1; elems := bytes_of_string "A" |} |}
        false;
      EvCtx None;
      EvQuery 4 (Some (region 4 4 MEM_COMMIT PAGE_READONLY));
      EvRead 4 4 2 (Some (bytes_of_string "Axyz"));
      EvCtx None;
      EvHandler {| Address := 4;
                   Data := {| arr := 3; elems := bytes_of_string "A" |} |}
        false]) /\
  handler_calls
    (snd (Scan 10 (static_env never_done two_regions "AbcdAxyz")
            opts_stop_first)) = 2%nat.
Proof. split; vm_compute; reflexivity. Qed.

(** C4 fails on the code.  One readable region covers the addresses 0 to
    15 and holds ["0123456789ABCDEF"]; the pattern is the bytes ['4'],
    ['5'], which sit at addresses 4 and 5.  With [MaxAddress = 5] the read
    stops after address 4 and the match that ends at [MaxAddress] is not
    reported; with [MaxAddress = 6] it is. *)
Theorem MaxAddress_is_not_scanned :
  Scan 10 (static_env never_done one_region "0123456789ABCDEF")
    (opts_all "34 35" 0 5)
  = (Returned None,
     [EvCtx None;
      EvQuery 0 (Some (region 0 16 MEM_COMMIT PAGE_READWRITE));
      EvRead 0 5 0 (Some (bytes_of_string "01234"))]) /\
  Scan 10 (static_env never_done one_region "0123456789ABCDEF")
    (opts_all "34 35" 0 6)
  = (Returned None,
     [EvCtx None;
      EvQuery 0 (Some (region 0 16 MEM_COMMIT PAGE_READWRITE));
      EvRead 0 6 0 (Some (bytes_of_string "012345"));
      EvCtx None;
      EvHandler {| Address := 4;
                   Data := {| arr := 1; elems := bytes_of_string "45" |} |}
        true]).
Proof. split; vm_compute; reflexivity. Qed.

(** No read of a scan reaches [MaxAddress]: a read of [n] bytes at [b] has
    [b + n <= MaxAddress], so the byte at [MaxAddress] is never
    transferred. *)
Lemma reads_end_below_MaxAddress (fuel : nat) (env : Env) (opts : ScanOptions)
    (pm : PatternMatcher) (pre : list event) (b n : Z) (buf : nat)
    (r : option (list byte)) (post : list event) :
  NewPatternMatcher (Pattern opts) = Ok pm ->
  snd (Scan fuel env opts) = pre ++ EvRead b n buf r :: post ->
  0 < n /\ b + n <= wrap64 (MaxAddress opts).
Proof.
  intros Hpm Htr.
  destruct (Scan_trace_chain fuel env opts pm Hpm) as [_ Hchain].
  cbv zeta in Hchain. specialize (Hchain pre _ post Htr).
  apply read_after_query in Hchain.
  destruct Hchain as (a & mbi & _ & Hw & -> & ->).
  apply will_read_iff in Hw. destruct Hw as (_ & _ & Hlt).
  unfold read_length. split; [lia|].
  unfold read_end in *.
  destruct (Z.gtb_spec
              (wrap64 (wrap64 (BaseAddress mbi) + wrap64 (RegionSize mbi)))
              (wrap64 (MaxAddress opts))); lia.
Qed.

(** The claim C2 as stated fails: cancelled after the first region was
    read, [Scan] returns [context.Canceled], not [nil]. *)
Lemma cancelled_scan_returns_error :
  Scan 10 (static_env (cancelled_from 3) two_regions "AbcdAxyz")
    (opts_all "41" 0 8)
  = (Returned (Some Canceled),
     [EvCtx None;
      EvQuery 0 (Some (region 0 4 MEM_COMMIT PAGE_READWRITE));
      EvRead 0 4 0 (Some (bytes_of_string "Abcd"));
      EvCtx (Some Canceled)]) /\
  fst (Scan 10 (static_env (cancelled_from 3) two_regions "AbcdAxyz")
         (opts_all "41" 0 8)) <> Returned None.
Proof. split; [vm_compute; reflexivity | vm_compute; discriminate]. Qed.

(** The claim C3 as stated fails: a committed read-write page with the
    guard modifier is a guard page, its protection word is none of the
    four readable values, and it is read all the same. *)
Lemma guard_page_is_read :
  Z.land (Protect guard_region) PAGE_GUARD = PAGE_GUARD /\
  ~ readable_protection (Protect guard_region) /\
  Scan 10 (static_env never_done guard_page "AbcdAxyz") (opts_all "41" 0 8)
  = (Returned None,
     [EvCtx None;
      EvQuery 0 (Some guard_region);
      EvRead 0 4 0 (Some (bytes_of_string "Abcd"));
      EvCtx None;
      EvHandler {| Address := 0;
                   Data := {| arr := 1; elems := bytes_of_string "A" |} |}
        true;
      EvCtx None;
      EvQuery 4 None]).
Proof.
  split; [reflexivity|]. split; [|vm_compute; reflexivity].
  intros [H|[H|[H|H]]]; vm_compute in H; discriminate.
Qed.

Lemma zero_size_step (fuel : nat) (s : St) :
  Scan_loop (S fuel) zero_size_env (opts_all "41" 0 4096) matcher_A 4096 1 s
  = Scan_loop fuel zero_size_env (opts_all "41" 0 4096) matcher_A 4096 1
      {| hist := EvQuery 1 (Some (region 0 0 MEM_FREE PAGE_NOACCESS))
                 :: EvCtx None :: hist s;
         nalloc := nalloc s |}.
Proof. reflexivity. Qed.

Lemma zero_size_stuck (fuel : nat) :
  forall s : St,
    fst (Scan_loop fuel zero_size_env (opts_all "41" 0 4096) matcher_A
           4096 1 s) = Unfinished.
Proof.
  induction fuel as [|fuel IH]; intros s; [reflexivity|].
  rewrite zero_size_step. apply IH.
Qed.

(** The claim C9 as stated fails: when the query answers with the page an
    address lies in and a size of zero, the cursor goes from 0 to 1 and
    stays at 1, and no number of iterations ends the walk. *)
Lemma zero_size_walk_never_returns :
  ~ exists (fuel : nat) (err : option error),
      fst (Scan fuel zero_size_env (opts_all "41" 0 4096)) = Returned err.
Proof.
  intros (fuel & err & H).
  assert (Hun : fst (Scan fuel zero_size_env (opts_all "41" 0 4096))
                = Unfinished).
  { destruct fuel as [|fuel]; [reflexivity|].
    change (Scan (S fuel) zero_size_env (opts_all "41" 0 4096))
      with (let (o, s) :=
              Scan_loop fuel zero_size_env (opts_all "41" 0 4096) matcher_A
                4096 1
                {| hist := [EvQuery 0 (Some (region 0 0 MEM_FREE PAGE_NOACCESS));
                            EvCtx None];
                   nalloc := 0 |} in
            (o, rev (hist s))).
    pose proof (zero_size_stuck fuel
                  {| hist := [EvQuery 0 (Some (region 0 0 MEM_FREE PAGE_NOACCESS));
                              EvCtx None];
                     nalloc := 0 |}) as Hs.
    destruct (Scan_loop fuel zero_size_env _ matcher_A 4096 1 _). exact Hs. }
  congruence.
Qed.

(** ** The theorems at concrete inputs *)

Lemma FindMatches_exact_witness :
  well_formed matcher_AA /\
  exists offsets : list Z,
    FindMatches matcher_AA (bytes_of_string "AAA") false = Some offsets /\
    NoDup offsets /\
    (forall i, In i offsets <->
               0 < patternLength matcher_AA /\
               0 <= i <= len (bytes_of_string "AAA") - patternLength matcher_AA /\
               occurs_at matcher_AA (bytes_of_string "AAA") false i) /\
    (patternLength matcher_AA = 0 \/
     patternLength matcher_AA > len (bytes_of_string "AAA") -> offsets = []).
Proof.
  split; [split; reflexivity|].
  apply (FindMatches_exact matcher_AA (bytes_of_string "AAA") false).
  split; reflexivity.
Defined.

Lemma StringToPattern_tokens_witness :
  "We?Chat"%string <> ""%string /\
  exists tokens : list string,
    StringToPattern "We?Chat" 10 = String.concat " " tokens /\
    Fields (StringToPattern "We?Chat" 10) = tokens /\
    len tokens = Z.max (len (bytes_of_string "We?Chat")) 10 /\
    (forall (i : nat) (b : byte),
       nth_error (bytes_of_string "We?Chat") i = Some b ->
       nth_error tokens i
       = Some (if Ascii.eqb b "?" then "??"%string else Sprintf_02X b) /\
       hex_DecodeString (Sprintf_02X b) = ([b], None)) /\
    (forall i : nat,
       (List.length (bytes_of_string "We?Chat") <= i < List.length tokens)%nat ->
       nth_error tokens i = Some "??"%string).
Proof.
  split; [discriminate|].
  apply (proj2 (StringToPattern_tokens "We?Chat" 10)). discriminate.
Defined.

Lemma NewPatternMatcher_fails_iff_witness :
  NewPatternMatcher (Pattern (opts_all "57 6" 0 8))
  = Err (ErrInvalidHex "6") /\
  Scan 10 (static_env never_done two_regions "AbcdAxyz") (opts_all "57 6" 0 8)
  = (Returned (Some (ErrInvalidPattern (ErrInvalidHex "6"))), []).
Proof.
  split; [reflexivity|].
  apply (proj2 (NewPatternMatcher_fails_iff 10
                  (static_env never_done two_regions "AbcdAxyz")
                  (opts_all "57 6" 0 8))).
  reflexivity.
Defined.

Lemma Match_payload_witness :
  NewPatternMatcher (Pattern (opts_all "41" 0 8)) = Ok matcher_A /\
  snd (Scan 10 (static_env never_done two_regions "AbcdAxyz")
         (opts_all "41" 0 8))
  = nine_events ++ EvHandler second_match true :: [] /\
  exists (before : list event) (a : Z) (mbi : MemoryBasicInformation)
         (n : Z) (buf : nat) (got : list byte) (mid : list event) (off : Z),
    nine_events
    = before ++ EvQuery a (Some mbi)
             :: EvRead (wrap64 (BaseAddress mbi)) n buf (Some got) :: mid /\
    Forall same_region_event mid /\
    0 <= off /\ off + patternLength matcher_A <= len got /\
    occurs_at matcher_A got (IgnoreCase (opts_all "41" 0 8)) off /\
    len (elems (Data second_match)) = patternLength matcher_A /\
    elems (Data second_match)
    = firstn (Z.to_nat (patternLength matcher_A)) (skipn (Z.to_nat off) got) /\
    Address second_match = wrap64 (BaseAddress mbi) + off /\
    arr (Data second_match) <> buf /\
    ~ In (arr (Data second_match)) (used_arrays nine_events).
Proof.
  split; [reflexivity|]. split; [reflexivity|].
  apply (Match_payload 10 (static_env never_done two_regions "AbcdAxyz")
           (opts_all "41" 0 8) matcher_A nine_events second_match true []);
    reflexivity.
Defined.

Lemma matches_strictly_increasing_witness :
  well_formed matcher_AA /\
  (exists offsets : list Z,
     FindMatches matcher_AA (bytes_of_string "AAA") false = Some offsets /\
     StronglySorted Z.lt offsets /\ NoDup offsets) /\
  snd (Scan 10 (static_env never_done one_region "AbcAdefghijklmno")
         (opts_all "41" 0 16))
  = [EvCtx None;
     EvQuery 0 (Some (region 0 16 MEM_COMMIT PAGE_READWRITE));
     EvRead 0 16 0 (Some (bytes_of_string "AbcAdefghijklmno"));
     EvCtx None]
    ++ EvHandler {| Address := 0;
                    Data := {| arr := 1; elems := bytes_of_string "A" |} |}
         true
    :: [EvCtx None]
    ++ EvHandler {| Address := 3;
                    Data := {| arr := 2; elems := bytes_of_string "A" |} |}
         true
    :: [] /\
  Address {| Address := 0;
             Data := {| arr := 1; elems := bytes_of_string "A" |} |}
  < Address {| Address := 3;
               Data := {| arr := 2; elems := bytes_of_string "A" |} |}.
Proof.
  split; [split; reflexivity|].
  split.
  - apply (proj1 matches_strictly_increasing). split; reflexivity.
  - split; [reflexivity|].
    apply (proj2 matches_strictly_increasing 10%nat
             (static_env never_done one_region "AbcAdefghijklmno")
             (opts_all "41" 0 16) matcher_A
             [EvCtx None;
              EvQuery 0 (Some (region 0 16 MEM_COMMIT PAGE_READWRITE));
              EvRead 0 16 0 (Some (bytes_of_string "AbcAdefghijklmno"));
              EvCtx None]
             _ true [EvCtx None] _ true []).
    + reflexivity.
    + reflexivity.
    + repeat constructor.
Defined.

Lemma reads_follow_region_test_witness :
  NewPatternMatcher (Pattern (opts_all "41" 0 8)) = Ok matcher_A /\
  snd (Scan 10 (static_env never_done two_regions "AbcdAxyz")
         (opts_all "41" 0 8))
  = [EvCtx None]
    ++ EvQuery 0 (Some (region 0 4 MEM_COMMIT PAGE_READWRITE))
    :: skipn 2 nine_events ++ [EvHandler second_match true] /\
  ((exists n buf r post',
      skipn 2 nine_events ++ [EvHandler second_match true]
      = EvRead (wrap64 (BaseAddress (region 0 4 MEM_COMMIT PAGE_READWRITE)))
          n buf r :: post')
   <->
   (State (region 0 4 MEM_COMMIT PAGE_READWRITE) = MEM_COMMIT /\
    Z.land (Protect (region 0 4 MEM_COMMIT PAGE_READWRITE)) readable_mask <> 0 /\
    wrap64 (BaseAddress (region 0 4 MEM_COMMIT PAGE_READWRITE))
    < read_end (wrap64 (MaxAddress (opts_all "41" 0 8)))
        (region 0 4 MEM_COMMIT PAGE_READWRITE))).
Proof.
  split; [reflexivity|]. split; [reflexivity|].
  apply (proj1 (reads_follow_region_test 10
                  (static_env never_done two_regions "AbcdAxyz")
                  (opts_all "41" 0 8) matcher_A eq_refl) [EvCtx None] 0
           (region 0 4 MEM_COMMIT PAGE_READWRITE)
           (skipn 2 nine_events ++ [EvHandler second_match true])).
  reflexivity.
Defined.

Lemma cancelled_from_stays (regions : list MemoryBasicInformation)
    (mem : string) (t : nat) :
  cancelled_after (static_env (cancelled_from t) regions mem) t.
Proof.
  intros h Hh. cbn. unfold cancelled_from.
  destruct (Nat.leb_spec t (List.length h)); [discriminate | lia].
Qed.

Lemma Scan_cancellation_witness :
  cancelled_after (static_env (cancelled_from 3) two_regions "AbcdAxyz") 3 /\
  (exists err,
     fst (Scan 4 (static_env (cancelled_from 3) two_regions "AbcdAxyz")
            (opts_all "41" 0 8)) = Returned err) /\
  (forall e : error,
     fst (Scan 4 (static_env (cancelled_from 3) two_regions "AbcdAxyz")
            (opts_all "41" 0 8)) = Returned (Some e) <->
     exists pre,
       snd (Scan 4 (static_env (cancelled_from 3) two_regions "AbcdAxyz")
              (opts_all "41" 0 8)) = pre ++ [EvCtx (Some e)]).
Proof.
  split; [apply cancelled_from_stays|].
  pose proof (Scan_cancellation
                (static_env (cancelled_from 3) two_regions "AbcdAxyz")
                (opts_all "41" 0 8) matcher_A 3 4 eq_refl
                (cancelled_from_stays two_regions "AbcdAxyz" 3)
                (le_n 4)) as H.
  split; [exact (proj1 H) | exact (proj1 (proj2 (proj2 H)))].
Defined.

Lemma zero_at_cursor_advancing :
  advancing_queries zero_at_cursor_env (wrap64 (MaxAddress (opts_all "41" 0 16))).
Proof.
  intros h a mbi Ha. cbn.
  destruct (Z.ltb_spec a 8) as [Hlt|Hge]; [|discriminate].
  intros E. injection E as <-. unfold advancing. cbn. right.
  change (wrap64 16) with 16 in Ha.
  rewrite (wrap64_small a) by lia.
  repeat split; try reflexivity; lia.
Qed.

Lemma region_walk_terminates_witness :
  advancing_queries zero_at_cursor_env
    (wrap64 (MaxAddress (opts_all "41" 0 16))) /\
  exists err,
    fst (Scan 17 zero_at_cursor_env (opts_all "41" 0 16)) = Returned err.
Proof.
  split; [apply zero_at_cursor_advancing|].
  apply (proj1 (region_walk_terminates zero_at_cursor_env (opts_all "41" 0 16)
                  zero_at_cursor_advancing) 17%nat).
  vm_compute. reflexivity.
Defined.

(** * Beyond the claims *)

(** ** Compiling a search string and building its matcher *)

(** What the constructor stores for a token. *)
Definition token_wild (t : string) : bool := String.eqb t "??".

Definition token_byte (t : string) : byte :=
  if String.eqb t "??" then zero_byte
  else
    match hex_DecodeString t with
    | ([d], None) => d
    | _ => zero_byte
    end.

Definition token_valid (t : string) : Prop :=
  t = "??"%string \/ hex_byte_token t.

Lemma set_nth_app {A : Type} (P : list A) (x y : A) (t : list A) :
  set_nth (List.length P) x (P ++ y :: t) = P ++ x :: t.
Proof. induction P as [|p P IH]; cbn; [reflexivity | now rewrite IH]. Qed.

Lemma NewPatternMatcher_loop_valid (parts : list string) :
  Forall token_valid parts ->
  forall (P : list byte) (W : list bool),
    List.length P = List.length W ->
    NewPatternMatcher_loop parts (List.length P)
      (P ++ repeat zero_byte (List.length parts))
      (W ++ repeat false (List.length parts))
    = Ok (P ++ map token_byte parts, W ++ map token_wild parts).
Proof.
  induction parts as [|part rest IH]; intros Hall P W Hlen.
  - reflexivity.
  - inversion Hall as [|? ? Hpart Hrest]; subst.
    cbn [NewPatternMatcher_loop List.length repeat map].
    unfold token_byte at 1, token_wild at 1.
    destruct (String.eqb_spec part "??") as [->|Hne].
    + rewrite Hlen at 2. rewrite set_nth_app.
      replace (S (List.length P)) with (List.length (P ++ [zero_byte]))
        by (rewrite length_app; cbn; lia).
      replace (P ++ zero_byte :: repeat zero_byte (List.length rest))
        with ((P ++ [zero_byte]) ++ repeat zero_byte (List.length rest))
        by (rewrite <- app_assoc; reflexivity).
      replace (W ++ true :: repeat false (List.length rest))
        with ((W ++ [true]) ++ repeat false (List.length rest))
        by (rewrite <- app_assoc; reflexivity).
      rewrite (IH Hrest) by (rewrite !length_app; cbn; lia).
      now rewrite <- !app_assoc.
    + destruct Hpart as [->|Hhex]; [contradiction|].
      apply hex_DecodeString_one_byte in Hhex. destruct Hhex as [d Hd].
      rewrite Hd. rewrite set_nth_app.
      replace (S (List.length P)) with (List.length (P ++ [d]))
        by (rewrite length_app; cbn; lia).
      replace (P ++ d :: repeat zero_byte (List.length rest))
        with ((P ++ [d]) ++ repeat zero_byte (List.length rest))
        by (rewrite <- app_assoc; reflexivity).
      replace (W ++ false :: repeat false (List.length rest))
        with ((W ++ [false]) ++ repeat false (List.length rest))
        by (rewrite <- app_assoc; reflexivity).
      rewrite (IH Hrest) by (rewrite !length_app; cbn; lia).
      now rewrite <- !app_assoc.
Qed.

Lemma NewPatternMatcher_valid_tokens (pattern : string) :
  Fields pattern <> [] ->
  Forall token_valid (Fields pattern) ->
  NewPatternMatcher pattern
  = Ok {| patternBytes := map token_byte (Fields pattern);
          wildcardMask := map token_wild (Fields pattern);
          patternLength := len (Fields pattern) |}.
Proof.
  intros Hne Hall. unfold NewPatternMatcher.
  destruct (Z.eqb_spec (len (Fields pattern)) 0) as [H0|_].
  { destruct (Fields pattern); [contradiction | discriminate]. }
  pose proof (NewPatternMatcher_loop_valid _ Hall [] [] eq_refl) as Hloop.
  cbn [List.length app] in Hloop. now rewrite Hloop.
Qed.

Lemma Sprintf_02X_not_wildcard (b : byte) :
  String.eqb (Sprintf_02X b) "??" = false.
Proof.
  destruct b as [[] [] [] [] [] [] [] []]; vm_compute; reflexivity.
Qed.

Lemma Sprintf_02X_hex_byte (b : byte) : hex_byte_token (Sprintf_02X b).
Proof.
  apply hex_DecodeString_one_byte. exists b. apply Sprintf_02X_decodes.
Qed.

Lemma spec_token_valid (bytes : list byte) (i : nat) :
  token_valid (spec_token bytes i).
Proof.
  unfold spec_token. destruct (nth_error bytes i) as [b|]; [|now left].
  destruct (Ascii.eqb b "?"); [now left | right; apply Sprintf_02X_hex_byte].
Qed.

Lemma spec_token_wild (bytes : list byte) (i : nat) :
  token_wild (spec_token bytes i)
  = match nth_error bytes i with
    | Some b => Ascii.eqb b "?"
    | None => true
    end.
Proof.
  unfold spec_token, token_wild.
  destruct (nth_error bytes i) as [b|]; [|reflexivity].
  destruct (Ascii.eqb b "?"); [reflexivity | apply Sprintf_02X_not_wildcard].
Qed.

Lemma spec_token_byte (bytes : list byte) (i : nat) :
  token_byte (spec_token bytes i)
  = match nth_error bytes i with
    | Some b => if Ascii.eqb b "?" then zero_byte else b
    | None => zero_byte
    end.
Proof.
  unfold spec_token, token_byte.
  destruct (nth_error bytes i) as [b|]; [|reflexivity].
  destruct (Ascii.eqb b "?"); [reflexivity|].
  now rewrite Sprintf_02X_not_wildcard, Sprintf_02X_decodes.
Qed.

Lemma StringToPattern_Fields (searchStr : string) (minLength : Z) :
  searchStr <> ""%string ->
  Fields (StringToPattern searchStr minLength)
  = spec_tokens searchStr minLength.
Proof.
  intros Hne. rewrite StringToPattern_spec_tokens by exact Hne.
  apply Fields_concat_plain, spec_tokens_plain.
Qed.

Lemma bytes_of_string_nonempty (s : string) :
  s <> ""%string -> (0 < List.length (bytes_of_string s))%nat.
Proof. destruct s; [contradiction | cbn; lia]. Qed.

(** The matcher built from a compiled search string, written out. *)
Definition compiled (searchStr : string) (minLength : Z) : PatternMatcher :=
  {| patternBytes := map token_byte (spec_tokens searchStr minLength);
     wildcardMask := map token_wild (spec_tokens searchStr minLength);
     patternLength := len (spec_tokens searchStr minLength) |}.

Lemma NewPatternMatcher_StringToPattern (searchStr : string) (minLength : Z) :
  searchStr <> ""%string ->
  NewPatternMatcher (StringToPattern searchStr minLength)
  = Ok (compiled searchStr minLength).
Proof.
  intros Hne.
  pose proof (StringToPattern_Fields searchStr minLength Hne) as HF.
  pose proof (bytes_of_string_nonempty searchStr Hne) as Hpos.
  rewrite NewPatternMatcher_valid_tokens; rewrite HF.
  - reflexivity.
  - unfold spec_tokens.
    assert (0 < Z.to_nat (Z.max (len (bytes_of_string searchStr)) minLength))%nat
      by (unfold len; lia).
    destruct (Z.to_nat _); [lia | discriminate].
  - unfold spec_tokens. apply Forall_forall. intros t Ht.
    apply in_map_iff in Ht. destruct Ht as (i & <- & _).
    apply spec_token_valid.
Qed.

Lemma compiled_length (searchStr : string) (minLength : Z) :
  patternLength (compiled searchStr minLength)
  = Z.max (len (bytes_of_string searchStr)) minLength.
Proof.
  cbn. unfold spec_tokens, len. rewrite length_map, length_seq. lia.
Qed.

Lemma compiled_nth (searchStr : string) (minLength : Z) (i : nat) :
  (i < Z.to_nat (Z.max (len (bytes_of_string searchStr)) minLength))%nat ->
  nth_error (wildcardMask (compiled searchStr minLength)) i
  = Some match nth_error (bytes_of_string searchStr) i with
         | Some b => Ascii.eqb b "?"
         | None => true
         end /\
  nth_error (patternBytes (compiled searchStr minLength)) i
  = Some match nth_error (bytes_of_string searchStr) i with
         | Some b => if Ascii.eqb b "?" then zero_byte else b
         | None => zero_byte
         end.
Proof.
  intros Hi. cbn. unfold spec_tokens.
  rewrite !nth_error_map, nth_error_seq.
  destruct (Nat.ltb_spec i
              (Z.to_nat (Z.max (len (bytes_of_string searchStr)) minLength)));
    [|lia].
  cbn. now rewrite spec_token_wild, spec_token_byte.
Qed.

(** X1. A non-empty search string always compiles to a pattern the
    constructor accepts; the matcher has [max(len(input), minLength)]
    positions, a position of the input is a wildcard exactly when the input
    byte is ['?'] and otherwise stores that byte, and every position past
    the input is a wildcard. *)
Theorem StringToPattern_builds_matcher (searchStr : string) (minLength : Z) :
  searchStr <> ""%string ->
  exists pm : PatternMatcher,
    NewPatternMatcher (StringToPattern searchStr minLength) = Ok pm /\
    patternLength pm = Z.max (len (bytes_of_string searchStr)) minLength /\
    (forall (i : nat) (b : byte),
       nth_error (bytes_of_string searchStr) i = Some b ->
       nth_error (wildcardMask pm) i = Some (Ascii.eqb b "?") /\
       nth_error (patternBytes pm) i
       = Some (if Ascii.eqb b "?" then zero_byte else b)) /\
    (forall i : nat,
       (List.length (bytes_of_string searchStr) <= i)%nat ->
       Z.of_nat i < Z.max (len (bytes_of_string searchStr)) minLength ->
       nth_error (wildcardMask pm) i = Some true).
Proof.
  intros Hne. exists (compiled searchStr minLength).
  split; [now apply NewPatternMatcher_StringToPattern|].
  split; [apply compiled_length|]. split.
  - intros i b Hb.
    assert (i < List.length (bytes_of_string searchStr))%nat
      by (apply nth_error_Some; congruence).
    destruct (compiled_nth searchStr minLength i) as [Hw Hp];
      [unfold len; lia|].
    now rewrite Hw, Hp, Hb.
  - intros i Hlo Hhi.
    destruct (compiled_nth searchStr minLength i) as [Hw _]; [lia|].
    rewrite Hw.
    destruct (nth_error (bytes_of_string searchStr) i) eqn:E; [|reflexivity].
    assert (i < List.length (bytes_of_string searchStr))%nat
      by (apply nth_error_Some; congruence). lia.
Qed.

Lemma StringToPattern_builds_matcher_witness :
  "We?Chat"%string <> ""%string /\
  exists pm : PatternMatcher,
    NewPatternMatcher (StringToPattern "We?Chat" 10) = Ok pm /\
    patternLength pm = Z.max (len (bytes_of_string "We?Chat")) 10 /\
    (forall (i : nat) (b : byte),
       nth_error (bytes_of_string "We?Chat") i = Some b ->
       nth_error (wildcardMask pm) i = Some (Ascii.eqb b "?") /\
       nth_error (patternBytes pm) i
       = Some (if Ascii.eqb b "?" then zero_byte else b)) /\
    (forall i : nat,
       (List.length (bytes_of_string "We?Chat") <= i)%nat ->
       Z.of_nat i < Z.max (len (bytes_of_string "We?Chat")) 10 ->
       nth_error (wildcardMask pm) i = Some true).
Proof.
  split; [discriminate|].
  apply (StringToPattern_builds_matcher "We?Chat" 10). discriminate.
Defined.

(** X2. The pattern compiled from a search string is rejected by the
    constructor exactly when the search string is empty, then as an empty
    pattern, and a scan configured with it returns that error without
    touching the target. *)
Theorem StringToPattern_rejected_iff_empty (searchStr : string)
    (minLength : Z) :
  ((exists e, NewPatternMatcher (StringToPattern searchStr minLength) = Err e)
   <-> searchStr = ""%string) /\
  NewPatternMatcher (StringToPattern "" minLength) = Err ErrEmptyPattern /\
  (forall (fuel : nat) (env : Env) (opts : ScanOptions),
     Pattern opts = StringToPattern "" minLength ->
     Scan fuel env opts
     = (Returned (Some (ErrInvalidPattern ErrEmptyPattern)), [])).
Proof.
  split; [|split].
  - split.
    + intros [e He]. destruct (String.eqb_spec searchStr ""); [assumption|].
      rewrite NewPatternMatcher_StringToPattern in He by assumption.
      discriminate.
    + intros ->. exists ErrEmptyPattern. reflexivity.
  - reflexivity.
  - intros fuel env opts Hp. apply Scan_invalid_pattern. now rewrite Hp.
Qed.

(** ** Searching for a compiled string *)

Lemma byte_matches_refl (ignoreCase : bool) (b : byte) :
  byte_matches ignoreCase b b.
Proof. destruct ignoreCase; cbn; [now left | reflexivity]. Qed.

Lemma byte_matches_exact (ignoreCase : bool) (d p : byte) :
  byte_matches false d p -> byte_matches ignoreCase d p.
Proof. cbn. intros ->. apply byte_matches_refl. Qed.

(** An occurrence of the search string itself: every byte of it that is
    not ['?'] agrees with the buffer. *)
Definition string_occurs_at (searchStr : string) (data : list byte)
    (ignoreCase : bool) (i : Z) : Prop :=
  forall (j : nat) (b : byte),
    nth_error (bytes_of_string searchStr) j = Some b ->
    b <> "?"%char ->
    exists d : byte,
      index data (i + Z.of_nat j) = Some d /\ byte_matches ignoreCase d b.

Lemma compiled_occurs_at (searchStr : string) (minLength : Z)
    (data : list byte) (ignoreCase : bool) (i : Z) :
  occurs_at (compiled searchStr minLength) data ignoreCase i <->
  string_occurs_at searchStr data ignoreCase i.
Proof.
  unfold occurs_at, string_occurs_at. rewrite compiled_length.
  set (bytes := bytes_of_string searchStr). split.
  - intros H j b Hb Hq.
    assert (Hj : (j < List.length bytes)%nat)
      by (apply nth_error_Some; congruence).
    destruct (compiled_nth searchStr minLength j) as [Hw Hp];
      [unfold len; fold bytes; lia|].
    fold bytes in Hw, Hp. rewrite Hb in Hw, Hp.
    assert (Hne : Ascii.eqb b "?" = false) by now apply Ascii.eqb_neq.
    rewrite Hne in Hw, Hp.
    destruct (H (Z.of_nat j)) as (d & p & Hd & Hp' & Hm).
    + unfold len; lia.
    + rewrite index_nth_error, Nat2Z.id by lia. exact Hw.
    + rewrite index_nth_error, Nat2Z.id in Hp' by lia.
      assert (p = b) by congruence. subst p. eauto.
  - intros H j Hj Hmask.
    rewrite index_nth_error in Hmask by lia.
    destruct (compiled_nth searchStr minLength (Z.to_nat j)) as [Hw Hp];
      [fold bytes; lia|].
    fold bytes in Hw, Hp. rewrite Hw in Hmask.
    destruct (nth_error bytes (Z.to_nat j)) as [b|] eqn:Hb; [|discriminate].
    injection Hmask as Hne. rewrite Hne in Hp.
    destruct (H (Z.to_nat j) b Hb) as (d & Hd & Hm);
      [now apply Ascii.eqb_neq|].
    rewrite Z2Nat.id in Hd by lia.
    exists d, b. repeat split; auto.
    now rewrite index_nth_error by lia.
Qed.

(** X3. Compiling a non-empty search string and searching a buffer with
    the matcher built from it returns exactly the offsets [i] with
    [0 <= i <= len(data) - max(len(input), minLength)] at which every byte
    of the search string other than ['?'] agrees with the buffer (up to the
    case of ASCII letters when [ignoreCase] is set): ['?'] and the padding
    match any byte, but the padding still has to fit into the buffer. *)
Theorem search_string_offsets (searchStr : string) (minLength : Z)
    (data : list byte) (ignoreCase : bool) :
  searchStr <> ""%string ->
  exists (pm : PatternMatcher) (offsets : list Z),
    NewPatternMatcher (StringToPattern searchStr minLength) = Ok pm /\
    FindMatches pm data ignoreCase = Some offsets /\
    forall i : Z,
      In i offsets <->
      0 <= i <= len data - Z.max (len (bytes_of_string searchStr)) minLength /\
      string_occurs_at searchStr data ignoreCase i.
Proof.
  intros Hne.
  pose proof (NewPatternMatcher_StringToPattern searchStr minLength Hne) as Hpm.
  destruct (NewPatternMatcher_well_formed _ _ Hpm) as [Hwf Hpos].
  destruct (FindMatches_spec (compiled searchStr minLength) data ignoreCase Hwf)
    as (l & Hl & _ & Hin).
  exists (compiled searchStr minLength), l.
  split; [exact Hpm|]. split; [exact Hl|].
  rewrite compiled_length in Hpos.
  intros i. rewrite Hin, compiled_occurs_at, compiled_length. tauto.
Qed.

Lemma search_string_offsets_witness :
  "We?Chat"%string <> ""%string /\
  exists (pm : PatternMatcher) (offsets : list Z),
    NewPatternMatcher (StringToPattern "We?Chat" 10) = Ok pm /\
    FindMatches pm (bytes_of_string "Hello WeXChat World") true
    = Some offsets /\
    forall i : Z,
      In i offsets <->
      0 <= i <= len (bytes_of_string "Hello WeXChat World")
                - Z.max (len (bytes_of_string "We?Chat")) 10 /\
      string_occurs_at "We?Chat" (bytes_of_string "Hello WeXChat World")
        true i.
Proof.
  split; [discriminate|].
  apply (search_string_offsets "We?Chat" 10). discriminate.
Defined.

Lemma index_app_middle {A : Type} (pre mid post : list A) (j : nat) (x : A) :
  nth_error mid j = Some x ->
  index (pre ++ mid ++ post) (len pre + Z.of_nat j) = Some x.
Proof.
  intros H. rewrite index_nth_error by (unfold len; lia).
  replace (Z.to_nat (len pre + Z.of_nat j)) with (List.length pre + j)%nat
    by (unfold len; lia).
  rewrite nth_error_app2 by lia.
  replace (List.length pre + j - List.length pre)%nat with j by lia.
  rewrite nth_error_app1; [exact H|].
  apply nth_error_Some; congruence.
Qed.

Lemma singleton_list (l : list Z) (x : Z) :
  NoDup l -> (forall i, In i l <-> i = x) -> l = [x].
Proof.
  intros Hnd Hin. destruct l as [|a l].
  - exfalso. apply (proj2 (Hin x) eq_refl).
  - assert (a = x) by (apply Hin; now left). subst a.
    destruct l as [|b l]; [reflexivity|].
    assert (b = x) by (apply Hin; right; now left). subst b.
    inversion Hnd as [|? ? Hnot _]; subst. exfalso. apply Hnot. now left.
Qed.

(** X4. A search string is found wherever it stands: in a buffer
    [pre ++ input ++ post] with room for the padding after the input, the
    offset [len(pre)] is among the matches, with or without [ignoreCase];
    and searching the input itself, with no padding asked for, returns
    exactly the offset 0. *)
Theorem search_string_is_found (searchStr : string) (minLength : Z)
    (pre post : list byte) (ignoreCase : bool) :
  searchStr <> ""%string ->
  minLength <= len (bytes_of_string searchStr) + len post ->
  exists (pm : PatternMatcher) (offsets : list Z),
    NewPatternMatcher (StringToPattern searchStr minLength) = Ok pm /\
    FindMatches pm (pre ++ bytes_of_string searchStr ++ post) ignoreCase
    = Some offsets /\
    In (len pre) offsets /\
    (minLength <= len (bytes_of_string searchStr) ->
     FindMatches pm (bytes_of_string searchStr) ignoreCase = Some [0]).
Proof.
  intros Hne Hroom.
  pose proof (NewPatternMatcher_StringToPattern searchStr minLength Hne) as Hpm.
  destruct (NewPatternMatcher_well_formed _ _ Hpm) as [Hwf Hpos].
  rewrite compiled_length in Hpos.
  set (bytes := bytes_of_string searchStr) in *.
  destruct (FindMatches_spec (compiled searchStr minLength)
              (pre ++ bytes ++ post) ignoreCase Hwf) as (l & Hl & _ & Hin).
  exists (compiled searchStr minLength), l.
  split; [exact Hpm|]. split; [exact Hl|]. split.
  - apply Hin. rewrite compiled_occurs_at, compiled_length. fold bytes.
    pose proof (len_nonneg pre). pose proof (len_nonneg post).
    rewrite !len_app.
    split; [lia|]. split; [lia|].
    intros j b Hb _. exists b. split; [|apply byte_matches_refl].
    now apply index_app_middle.
  - intros Hfit.
    destruct (FindMatches_spec (compiled searchStr minLength) bytes
                ignoreCase Hwf) as (l0 & Hl0 & Hsort & Hin0).
    rewrite Hl0. f_equal. apply singleton_list.
    + now apply StronglySorted_lt_NoDup.
    + intros i. rewrite Hin0, compiled_occurs_at, compiled_length.
      fold bytes. split; [lia|]. intros ->.
      split; [lia|]. split; [lia|].
      intros j b Hb _. exists b. split; [|apply byte_matches_refl].
      rewrite index_nth_error, Z.add_0_l, Nat2Z.id by lia. exact Hb.
Qed.

Lemma search_string_is_found_witness :
  "WeChat"%string <> ""%string /\
  6 <= len (bytes_of_string "WeChat") + len (bytes_of_string " World") /\
  exists (pm : PatternMatcher) (offsets : list Z),
    NewPatternMatcher (StringToPattern "WeChat" 6) = Ok pm /\
    FindMatches pm
      (bytes_of_string "Hello " ++ bytes_of_string "WeChat"
       ++ bytes_of_string " World") false = Some offsets /\
    In (len (bytes_of_string "Hello ")) offsets /\
    (6 <= len (bytes_of_string "WeChat") ->
     FindMatches pm (bytes_of_string "WeChat") false = Some [0]).
Proof.
  split; [discriminate|]. split; [vm_compute; discriminate|].
  apply (search_string_is_found "WeChat" 6). 
  - discriminate.
  - vm_compute. discriminate.
Defined.

(** X5. Ignoring case never loses a match: every offset [FindMatches]
    reports for an exact search is also reported, for the same matcher and
    buffer, when [ignoreCase] is set. *)
Theorem ignoreCase_finds_more (pm : PatternMatcher) (data : list byte) :
  well_formed pm ->
  exists exact folded : list Z,
    FindMatches pm data false = Some exact /\
    FindMatches pm data true = Some folded /\
    incl exact folded.
Proof.
  intros Hwf.
  destruct (FindMatches_spec pm data false Hwf) as (l1 & Hl1 & _ & Hin1).
  destruct (FindMatches_spec pm data true Hwf) as (l2 & Hl2 & _ & Hin2).
  exists l1, l2. split; [exact Hl1|]. split; [exact Hl2|].
  intros i Hi. apply Hin1 in Hi. apply Hin2.
  destruct Hi as (Hpos & Hr & Ho). split; [exact Hpos|]. split; [exact Hr|].
  intros j Hj Hm. destruct (Ho j Hj Hm) as (d & p & Hd & Hp & Hb).
  exists d, p. split; [exact Hd|]. split; [exact Hp|].
  now apply byte_matches_exact.
Qed.

Lemma ignoreCase_finds_more_witness :
  well_formed matcher_A /\
  exists exact folded : list Z,
    FindMatches matcher_A (bytes_of_string "aAbA") false = Some exact /\
    FindMatches matcher_A (bytes_of_string "aAbA") true = Some folded /\
    incl exact folded.
Proof.
  split; [split; reflexivity|].
  apply (ignoreCase_finds_more matcher_A (bytes_of_string "aAbA")).
  split; reflexivity.
Defined.

(** ** What the events of a scan record *)

(** Every event carries the answer the surroundings gave at that moment,
    that is, on the history before it. *)
Fixpoint truthful (env : Env) (opts : ScanOptions) (h : list event) : Prop :=
  match h with
  | [] => True
  | e :: t =>
      truthful env opts t /\
      match e with
      | EvCtx d => d = ctx_Done env t
      | EvQuery a r => r = VirtualQueryEx env t a
      | EvRead b n _ r =>
          r = option_map (firstn (Z.to_nat n)) (ReadProcessMemory env t b n)
      | EvHandler m r => r = Handler opts t m
      end
  end.

Section Truthful.

Variables (env : Env) (opts : ScanOptions) (M : Z) (pm : PatternMatcher).

Lemma scanRegion_loop_truthful (base : Z) (buf : slice) :
  forall (matches : list Z) (s : St) (o : outcome) (s' : St),
    scanRegion_loop env opts base pm buf matches s = (o, s') ->
    truthful env opts (hist s) -> truthful env opts (hist s').
Proof.
  induction matches as [|off rest IH]; intros s o s' H Ht.
  - cbn in H. now injection H as <- <-.
  - cbn [scanRegion_loop] in H. unfold bind, select_ctx_Done in H.
    destruct (ctx_Done env (hist s)) as [e|] eqn:Ed.
    + injection H as <- <-. cbn. auto.
    + assert (Ht1 : truthful env opts (EvCtx None :: hist s)) by (cbn; auto).
      destruct (_ >? _).
      * eapply IH; eauto.
      * unfold make, call_Handler in H. cbn [hist nalloc] in H.
        match type of H with
        | context [Handler opts ?h ?m] =>
            destruct (Handler opts h m) eqn:Eh
        end; cbn in H.
        -- eapply IH; eauto.
           cbn [hist truthful]; repeat split; auto; congruence.
        -- injection H as <- <-.
           cbn [hist truthful]; repeat split; auto; congruence.
Qed.

Lemma scanRegion_truthful (base size : Z) (s : St) (o : outcome) (s' : St) :
  scanRegion env opts base size M pm s = (o, s') ->
  truthful env opts (hist s) -> truthful env opts (hist s').
Proof.
  unfold scanRegion. intros H Ht.
  destruct (_ <=? base).
  { now injection H as <- <-. }
  unfold bind, make, call_ReadProcessMemory in H. cbn [hist nalloc arr] in H.
  destruct (ReadProcessMemory env (hist s) base _) as [l|] eqn:Er.
  2:{ injection H as <- <-. cbn. rewrite Er. auto. }
  match type of H with
  | context [EvRead ?b ?n ?a ?r :: hist s] =>
      assert (Ht1 : truthful env opts (EvRead b n a r :: hist s))
        by (cbn; rewrite Er; auto)
  end.
  destruct (_ =? 0).
  { now injection H as <- <-. }
  destruct (FindMatches pm _ _).
  - eapply scanRegion_loop_truthful; eauto.
  - now injection H as <- <-.
Qed.

Lemma Scan_loop_truthful :
  forall (fuel : nat) (address : Z) (s : St) (o : outcome) (s' : St),
    Scan_loop fuel env opts pm M address s = (o, s') ->
    truthful env opts (hist s) -> truthful env opts (hist s').
Proof.
  induction fuel as [|fuel IH]; intros address s o s' H Ht.
  - cbn in H. now injection H as <- <-.
  - cbn [Scan_loop] in H.
    destruct (address <? M); [|now injection H as <- <-].
    unfold bind at 1, select_ctx_Done in H.
    destruct (ctx_Done env (hist s)) as [e|] eqn:Ed.
    { injection H as <- <-. cbn. auto. }
    unfold bind at 1, call_VirtualQueryEx in H. cbn [hist nalloc] in H.
    destruct (VirtualQueryEx env _ address) as [mbi|] eqn:Eq.
    2:{ injection H as <- <-. cbn. rewrite Ed, Eq. auto. }
    set (s2 := {| hist := EvQuery address (Some mbi) :: EvCtx None :: hist s;
                  nalloc := nalloc s |}) in H.
    assert (Ht2 : truthful env opts (hist s2))
      by (cbn; rewrite Ed, Eq; auto).
    unfold bind in H.
    destruct (if isReadableRegion mbi then _ else _) as [o3 s3] eqn:E3.
    assert (Ht3 : truthful env opts (hist s3)).
    { destruct (isReadableRegion mbi).
      - eapply scanRegion_truthful; eauto.
      - now injection E3 as <- <-. }
    destruct o3 as [[e|]| |]; try (now injection H as <- <-).
    eapply IH; eauto.
Qed.

End Truthful.

Lemma Scan_trace_truthful (fuel : nat) (env : Env) (opts : ScanOptions) :
  truthful env opts (rev (snd (Scan fuel env opts))).
Proof.
  unfold Scan. destruct (NewPatternMatcher (Pattern opts)) as [pm|e];
    [|exact I].
  destruct (Scan_loop fuel env opts pm _ _ init_St) as [o s] eqn:E.
  cbn [snd]. rewrite rev_involutive.
  eapply Scan_loop_truthful; eauto. exact I.
Qed.

Lemma truthful_split (env : Env) (opts : ScanOptions) (newer : list event)
    (e : event) (older : list event) :
  truthful env opts (newer ++ e :: older) -> truthful env opts (e :: older).
Proof.
  induction newer as [|x newer IH]; [tauto|].
  intros [H _]. exact (IH H).
Qed.

Lemma Scan_trace_event (fuel : nat) (env : Env) (opts : ScanOptions)
    (pre : list event) (e : event) (post : list event) :
  snd (Scan fuel env opts) = pre ++ e :: post ->
  match e with
  | EvCtx d => d = ctx_Done env (rev pre)
  | EvQuery a r => r = VirtualQueryEx env (rev pre) a
  | EvRead b n _ r =>
      r = option_map (firstn (Z.to_nat n))
            (ReadProcessMemory env (rev pre) b n)
  | EvHandler m r => r = Handler opts (rev pre) m
  end.
Proof.
  intros Htr. pose proof (Scan_trace_truthful fuel env opts) as Ht.
  rewrite Htr, rev_app_distr in Ht. cbn in Ht. rewrite <- app_assoc in Ht.
  apply truthful_split in Ht. cbn in Ht. tauto.
Qed.

(** ** What a scan returns and where it reads *)


(** X7. An error returned by [Scan] has one of two sources: the pattern
    was rejected, and then nothing was done, or the last thing the scan did
    was to see the context cancelled, and the error is the one the context
    gave.  A failed region query, a failed or empty read and a handler's
    stop never surface as an error. *)
Theorem Scan_error_sources (fuel : nat) (env : Env) (opts : ScanOptions)
    (e : error) :
  fst (Scan fuel env opts) = Returned (Some e) ->
  (exists cause : error,
     NewPatternMatcher (Pattern opts) = Err cause /\
     e = ErrInvalidPattern cause /\
     snd (Scan fuel env opts) = []) \/
  (exists (pm : PatternMatcher) (pre : list event),
     NewPatternMatcher (Pattern opts) = Ok pm /\
     snd (Scan fuel env opts) = pre ++ [EvCtx (Some e)] /\
     ctx_Done env (rev pre) = Some e).
Proof.
  intros Ho.
  destruct (NewPatternMatcher (Pattern opts)) as [pm|cause] eqn:Hpm.
  - right. destruct (Scan_trace_chain fuel env opts pm Hpm) as [Hstop _].
    cbv zeta in Hstop. rewrite Ho in Hstop. cbn in Hstop.
    apply hd_error_rev in Hstop. destruct Hstop as [pre Htr].
    exists pm, pre. split; [reflexivity|]. split; [exact Htr|].
    pose proof (Scan_trace_event fuel env opts pre _ [] Htr) as He.
    cbn in He. now symmetry.
  - left. rewrite (Scan_invalid_pattern fuel env opts cause Hpm) in *.
    cbn in Ho. injection Ho as <-. eauto.
Qed.

Lemma Scan_error_sources_witness :
  fst (Scan 10 (static_env (cancelled_from 3) two_regions "AbcdAxyz")
         (opts_all "41" 0 8)) = Returned (Some Canceled) /\
  ((exists cause : error,
      NewPatternMatcher (Pattern (opts_all "41" 0 8)) = Err cause /\
      Canceled = ErrInvalidPattern cause /\
      snd (Scan 10 (static_env (cancelled_from 3) two_regions "AbcdAxyz")
             (opts_all "41" 0 8)) = []) \/
   (exists (pm : PatternMatcher) (pre : list event),
      NewPatternMatcher (Pattern (opts_all "41" 0 8)) = Ok pm /\
      snd (Scan 10 (static_env (cancelled_from 3) two_regions "AbcdAxyz")
             (opts_all "41" 0 8)) = pre ++ [EvCtx (Some Canceled)] /\
      ctx_Done (static_env (cancelled_from 3) two_regions "AbcdAxyz")
        (rev pre) = Some Canceled)).
Proof.
  split; [reflexivity|].
  apply (Scan_error_sources 10
           (static_env (cancelled_from 3) two_regions "AbcdAxyz")
           (opts_all "41" 0 8) Canceled).
  reflexivity.
Defined.

Lemma read_end_bounds (M : Z) (mbi : MemoryBasicInformation) :
  read_end M mbi <= M /\
  read_end M mbi
  <= wrap64 (wrap64 (BaseAddress mbi) + wrap64 (RegionSize mbi)).
Proof.
  unfold read_end. destruct (Z.gtb_spec
    (wrap64 (wrap64 (BaseAddress mbi) + wrap64 (RegionSize mbi))) M); lia.
Qed.

Lemma read_transfer_bounded (fuel : nat) (env : Env) (opts : ScanOptions)
    (pre : list event) (b n : Z) (buf : nat) (got : list byte)
    (post : list event) :
  snd (Scan fuel env opts) = pre ++ EvRead b n buf (Some got) :: post ->
  0 <= n -> len got <= n.
Proof.
  intros Htr Hn.
  pose proof (Scan_trace_event fuel env opts _ _ _ Htr) as He. cbn in He.
  destruct (ReadProcessMemory env _ _ _) as [l|]; [|discriminate].
  cbn in He. injection He as ->. unfold len.
  rewrite length_firstn. lia.
Qed.

(** X8. Every read of a scan asks for at least one byte, starts at the
    base of the region just queried, and ends at or before [MaxAddress]
    (so the byte at [MaxAddress] is never asked for) and at or before the
    end of that region. *)
Theorem reads_stay_in_bounds (fuel : nat) (env : Env) (opts : ScanOptions)
    (pm : PatternMatcher) (pre : list event) (b n : Z) (buf : nat)
    (r : option (list byte)) (post : list event) :
  NewPatternMatcher (Pattern opts) = Ok pm ->
  snd (Scan fuel env opts) = pre ++ EvRead b n buf r :: post ->
  exists (pre' : list event) (a : Z) (mbi : MemoryBasicInformation),
    pre = pre' ++ [EvQuery a (Some mbi)] /\
    b = wrap64 (BaseAddress mbi) /\
    0 < n /\
    b + n <= wrap64 (MaxAddress opts) /\
    b + n <= wrap64 (b + wrap64 (RegionSize mbi)).
Proof.
  intros Hpm Htr.
  destruct (Scan_trace_chain fuel env opts pm Hpm) as [_ Hchain].
  cbv zeta in Hchain. pose proof (Hchain pre _ post Htr) as Hq.
  apply read_after_query in Hq.
  destruct Hq as (a & mbi & Hprev & Hw & -> & ->).
  apply hd_error_rev in Hprev. destruct Hprev as [pre' ->].
  apply will_read_iff in Hw. destruct Hw as (_ & _ & Hlt).
  destruct (read_end_bounds (wrap64 (MaxAddress opts)) mbi) as [HM Hend].
  exists pre', a, mbi. unfold read_length.
  repeat split; lia.
Qed.

Lemma reads_stay_in_bounds_witness :
  NewPatternMatcher (Pattern (opts_all "34 35" 0 5)) = Ok
    {| patternBytes := bytes_of_string "45";
       wildcardMask := [false; false];
       patternLength := 2 |} /\
  snd (Scan 10 (static_env never_done one_region "0123456789ABCDEF")
         (opts_all "34 35" 0 5))
  = [EvCtx None; EvQuery 0 (Some (region 0 16 MEM_COMMIT PAGE_READWRITE))]
    ++ EvRead 0 5 0 (Some (bytes_of_string "01234")) :: [] /\
  exists (pre' : list event) (a : Z) (mbi : MemoryBasicInformation),
    [EvCtx None; EvQuery 0 (Some (region 0 16 MEM_COMMIT PAGE_READWRITE))]
    = pre' ++ [EvQuery a (Some mbi)] /\
    0 = wrap64 (BaseAddress mbi) /\
    0 < 5 /\
    0 + 5 <= wrap64 (MaxAddress (opts_all "34 35" 0 5)) /\
    0 + 5 <= wrap64 (0 + wrap64 (RegionSize mbi)).
Proof.
  split; [reflexivity|]. split; [reflexivity|].
  apply (reads_stay_in_bounds 10
           (static_env never_done one_region "0123456789ABCDEF")
           (opts_all "34 35" 0 5)
           {| patternBytes := bytes_of_string "45";
              wildcardMask := [false; false];
              patternLength := 2 |}
           [EvCtx None;
            EvQuery 0 (Some (region 0 16 MEM_COMMIT PAGE_READWRITE))]
           0 5 0%nat (Some (bytes_of_string "01234")) []); reflexivity.
Defined.

Lemma handler_region (fuel : nat) (env : Env) (opts : ScanOptions)
    (pm : PatternMatcher) (pre : list event) (m : Match) (r : bool)
    (post : list event) :
  NewPatternMatcher (Pattern opts) = Ok pm ->
  snd (Scan fuel env opts) = pre ++ EvHandler m r :: post ->
  exists (before : list event) (a : Z) (mbi : MemoryBasicInformation)
         (n : Z) (buf : nat) (got : list byte) (mid : list event) (off : Z),
    pre = before ++ EvQuery a (Some mbi)
                 :: EvRead (wrap64 (BaseAddress mbi)) n buf (Some got) :: mid /\
    Forall same_region_event mid /\
    0 <= off /\ off + patternLength pm <= len got /\
    len (elems (Data m)) = patternLength pm /\
    Address m = wrap64 (BaseAddress mbi) + off.
Proof.
  intros Hpm Htr.
  pose proof (Scan_trace_data fuel env opts pm Hpm) as Hok.
  destruct (Scan_trace_chain fuel env opts pm Hpm) as [_ Hchain].
  cbv zeta in Hchain.
  rewrite Htr, rev_app_distr in Hok. cbn in Hok. rewrite <- app_assoc in Hok.
  apply hist_ok_split in Hok.
  destruct Hok as (base & buf & got & off & Hread & Hoff & Hfit & _
                   & Haddr & _ & Hlen & _ & _).
  apply last_read_split in Hread.
  destruct Hread as (mid & n & older & Hpre & Hmid).
  apply (f_equal (@rev event)) in Hpre.
  rewrite rev_involutive, rev_app_distr in Hpre. cbn in Hpre.
  rewrite <- app_assoc in Hpre. cbn in Hpre.
  assert (Hq : ok_after (wrap64 (MaxAddress opts)) (hd_error (rev (rev older)))
                 (EvRead base n buf (Some got))).
  { apply (Hchain (rev older) _ (rev mid ++ EvHandler m r :: post)).
    rewrite Htr, Hpre, <- app_assoc. reflexivity. }
  apply read_after_query in Hq.
  destruct Hq as (a & mbi & Hprev & _ & -> & _).
  apply hd_error_rev in Hprev. destruct Hprev as [before Hbefore].
  exists before, a, mbi, n, buf, got, (rev mid), off.
  repeat split; auto.
  - rewrite Hpre, Hbefore, <- app_assoc. reflexivity.
  - now apply Forall_rev.
Qed.

(** X9. Every match reported lies in the part of its region that was
    read: it starts at or after the region's base and all its bytes lie
    below [MaxAddress] (address plus data length is at most
    [MaxAddress]). *)
Theorem matches_lie_below_MaxAddress (fuel : nat) (env : Env)
    (opts : ScanOptions) (pm : PatternMatcher) (pre : list event)
    (m : Match) (r : bool) (post : list event) :
  NewPatternMatcher (Pattern opts) = Ok pm ->
  snd (Scan fuel env opts) = pre ++ EvHandler m r :: post ->
  exists (a : Z) (mbi : MemoryBasicInformation),
    In (EvQuery a (Some mbi)) pre /\
    wrap64 (BaseAddress mbi) <= Address m /\
    Address m + len (elems (Data m)) <= wrap64 (MaxAddress opts).
Proof.
  intros Hpm Htr.
  destruct (handler_region fuel env opts pm pre m r post Hpm Htr)
    as (before & a & mbi & n & buf & got & mid & off & Hpre & _ & Hoff
        & Hfit & Hlen & Haddr).
  assert (Htr' : snd (Scan fuel env opts)
                 = (before ++ [EvQuery a (Some mbi)])
                   ++ EvRead (wrap64 (BaseAddress mbi)) n buf (Some got)
                   :: (mid ++ EvHandler m r :: post)).
  { rewrite Htr, Hpre, <- !app_assoc. reflexivity. }
  destruct (Scan_trace_chain fuel env opts pm Hpm) as [_ Hchain].
  cbv zeta in Hchain. pose proof (Hchain _ _ _ Htr') as Hq.
  apply read_after_query in Hq.
  destruct Hq as (a' & mbi' & Hprev & Hw & _ & ->).
  rewrite rev_app_distr in Hprev. cbn in Hprev.
  injection Hprev as <- <-.
  apply will_read_iff in Hw. destruct Hw as (_ & _ & Hlt).
  destruct (read_end_bounds (wrap64 (MaxAddress opts)) mbi) as [HM _].
  pose proof (read_transfer_bounded fuel env opts _ _ _ _ _ _ Htr') as Hgot.
  unfold read_length in Hgot.
  exists a, mbi. split; [|lia].
  rewrite Hpre. apply in_or_app. right. now left.
Qed.

Lemma matches_lie_below_MaxAddress_witness :
  NewPatternMatcher (Pattern (opts_all "41" 0 8)) = Ok matcher_A /\
  snd (Scan 10 (static_env never_done two_regions "AbcdAxyz")
         (opts_all "41" 0 8))
  = nine_events ++ EvHandler second_match true :: [] /\
  exists (a : Z) (mbi : MemoryBasicInformation),
    In (EvQuery a (Some mbi)) nine_events /\
    wrap64 (BaseAddress mbi) <= Address second_match /\
    Address second_match + len (elems (Data second_match))
    <= wrap64 (MaxAddress (opts_all "41" 0 8)).
Proof.
  split; [reflexivity|]. split; [reflexivity|].
  apply (matches_lie_below_MaxAddress 10
           (static_env never_done two_regions "AbcdAxyz")
           (opts_all "41" 0 8) matcher_A nine_events second_match true []);
    reflexivity.
Defined.

(** ** Which matches of a region reach the handler *)

(** How far the scan of the current region has come: it is still handing
    matches over, it has been told to stop (by the handler or by the
    context), or something was handed over after that. *)
Inductive phase : Type :=
| Delivering
| Halted
| Violated.

Definition phase_step (p : phase) (e : event) : phase :=
  match p, e with
  | Delivering, EvCtx None => Delivering
  | Delivering, EvHandler _ true => Delivering
  | Delivering, _ => Halted
  | Halted, EvCtx _ => Halted
  | Halted, _ => Violated
  | Violated, _ => Violated
  end.

(** The region being scanned at the end of a history (most recent event
    first): the base and the bytes of its read, the addresses handed to the
    handler since, oldest first, and the phase reached. *)
Fixpoint region_view (h : list event)
    : option (Z * list byte * list Z * phase) :=
  match h with
  | [] => None
  | EvRead base _ _ (Some got) :: _ => Some (base, got, [], Delivering)
  | EvRead _ _ _ None :: _ => None
  | EvQuery _ _ :: _ => None
  | EvCtx d :: t =>
      match region_view t with
      | Some (base, got, addrs, p) =>
          Some (base, got, addrs, phase_step p (EvCtx d))
      | None => None
      end
  | EvHandler m r :: t =>
      match region_view t with
      | Some (base, got, addrs, p) =>
          Some (base, got, addrs ++ [Address m],
                phase_step p (EvHandler m r))
      | None => None
      end
  end.

(** The region in progress has been served as far as it should: the
    addresses delivered are those of the first matches [FindMatches] finds
    in the bytes read, none left out, all of them unless a stop or a
    cancellation came, and nothing was delivered after one. *)
Definition region_done (pm : PatternMatcher) (ignoreCase : bool)
    (h : list event) : Prop :=
  match region_view h with
  | None => True
  | Some (base, got, addrs, p) =>
      p <> Violated /\
      exists offsets : list Z,
        FindMatches pm got ignoreCase = Some offsets /\
        (exists k : nat, addrs = map (Z.add base) (firstn k offsets)) /\
        (p = Delivering -> addrs = map (Z.add base) offsets)
  end.

(** Every region left behind was served in that way. *)
Fixpoint regions_ok (pm : PatternMatcher) (ignoreCase : bool)
    (h : list event) : Prop :=
  match h with
  | [] => True
  | e :: t =>
      regions_ok pm ignoreCase t /\
      match e with
      | EvQuery _ _ | EvRead _ _ _ _ => region_done pm ignoreCase t
      | _ => True
      end
  end.

(** The addresses handed to the handler in a stretch of the trace, and
    whether every poll and every handler call in it said to go on. *)
Definition delivered (seg : list event) : list Z :=
  flat_map (fun e => match e with
                     | EvHandler m _ => [Address m]
                     | _ => []
                     end) seg.

Definition continues (e : event) : bool :=
  match e with
  | EvCtx None | EvHandler _ true => true
  | _ => false
  end.

(** The stretch of the trace that belongs to one read is not followed by
    another poll or handler call. *)
Definition region_ends (rest : list event) : Prop :=
  match rest with
  | [] => True
  | e :: _ => ~ same_region_event e
  end.

Section Delivery.

Variables (env : Env) (opts : ScanOptions) (M : Z) (pm : PatternMatcher).
Hypothesis Hwf : well_formed pm.
Hypothesis Hpos : 0 < patternLength pm.

Lemma region_done_ctx (h : list event) (d : option error) :
  region_done pm (IgnoreCase opts) h ->
  region_done pm (IgnoreCase opts) (EvCtx d :: h).
Proof.
  unfold region_done. cbn [region_view].
  destruct (region_view h) as [[[[base got] addrs] p]|]; [|auto].
  intros (Hp & offsets & Hf & Hk & Hall).
  split; [destruct p, d; cbn; congruence|].
  exists offsets. split; [exact Hf|]. split; [exact Hk|].
  intros Hd. apply Hall. destruct p, d; cbn in Hd; congruence.
Qed.

Lemma scanRegion_loop_delivery (base : Z) (buf : slice) :
  0 <= base -> base + len (elems buf) < 2 ^ 64 ->
  forall (matches done : list Z) (s : St) (o : outcome) (s' : St),
    Forall (fun off => 0 <= off /\ off + patternLength pm <= len (elems buf))
      matches ->
    scanRegion_loop env opts base pm buf matches s = (o, s') ->
    regions_ok pm (IgnoreCase opts) (hist s) ->
    region_view (hist s)
    = Some (base, elems buf, map (Z.add base) done, Delivering) ->
    regions_ok pm (IgnoreCase opts) (hist s') /\
    exists (k : nat) (p : phase),
      region_view (hist s')
      = Some (base, elems buf,
              map (Z.add base) (done ++ firstn k matches), p) /\
      p <> Violated /\
      (p = Delivering -> firstn k matches = matches).
Proof.
  intros Hbase Hend.
  induction matches as [|off rest IH]; intros done s o s' Hall H Hok Hview.
  - cbn in H. injection H as <- <-. split; [exact Hok|].
    exists 0%nat, Delivering. cbn. rewrite app_nil_r.
    repeat split; [exact Hview | discriminate].
  - inversion Hall as [|? ? (Hoff & Hfit) Hrest]; subst.
    cbn [scanRegion_loop] in H. unfold bind, select_ctx_Done in H.
    destruct (ctx_Done env (hist s)) as [e|] eqn:Ed.
    + injection H as <- <-. cbn [hist regions_ok region_view].
      rewrite Hview. split; [tauto|].
      exists 0%nat, Halted. cbn. rewrite app_nil_r.
      repeat split; discriminate.
    + unfold GetPatternLength in H.
      destruct (Z.gtb_spec (off + patternLength pm) (len (elems buf)));
        [lia|].
      unfold make, call_Handler in H. cbn [hist nalloc] in H.
      set (m := {| Address := wrap64 (base + off);
                   Data := copy _ _ |}) in H.
      assert (Ha : Address m = base + off)
        by (cbn; apply wrap64_small; lia).
      assert (Hmap : map (Z.add base) done ++ [Address m]
                     = map (Z.add base) (done ++ [off]))
        by (rewrite Ha, map_app; reflexivity).
      destruct (Handler opts _ m) eqn:Eh; cbn in H.
      * apply (IH (done ++ [off])) in H; auto.
        -- destruct H as (Hok' & k & p & Hv & Hp & Hk).
           split; [exact Hok'|]. exists (S k), p.
           cbn [firstn]. rewrite <- app_assoc in Hv. cbn in Hv.
           repeat split; auto. intros Hd. now rewrite (Hk Hd).
        -- cbn. tauto.
        -- cbn [hist region_view]. rewrite Hview, Hmap. reflexivity.
      * injection H as <- <-. cbn [hist regions_ok region_view].
        rewrite Hview, Hmap. split; [tauto|].
        exists 1%nat, Halted. cbn [firstn].
        repeat split; discriminate.
Qed.

Lemma scanRegion_delivery (base size : Z) (s : St) (o : outcome) (s' : St) :
  0 <= base ->
  scanRegion env opts base size M pm s = (o, s') ->
  regions_ok pm (IgnoreCase opts) (hist s) ->
  region_done pm (IgnoreCase opts) (hist s) ->
  regions_ok pm (IgnoreCase opts) (hist s') /\
  region_done pm (IgnoreCase opts) (hist s').
Proof.
  intros Hbase H Hok Hdone. unfold scanRegion in H.
  set (readEnd := if wrap64 (base + size) >? M then M else wrap64 (base + size))
    in H.
  assert (HreadEnd : readEnd <= wrap64 (base + size))
    by (unfold readEnd; destruct (Z.gtb_spec (wrap64 (base + size)) M); lia).
  pose proof (wrap64_range (base + size)) as Hw.
  destruct (Z.leb_spec readEnd base) as [Hle|Hlt].
  { injection H as <- <-. auto. }
  unfold bind, make, call_ReadProcessMemory in H. cbn [hist nalloc arr] in H.
  destruct (ReadProcessMemory env (hist s) base (readEnd - base)) as [l|].
  2:{ injection H as <- <-. cbn [hist regions_ok].
      split; [tauto | exact I]. }
  destruct (read_buffer_elems (nalloc s) (readEnd - base) l)
    as (Helems & Harr & Hlen).
  cbv zeta in Helems, Harr, Hlen.
  set (got := firstn (Z.to_nat (readEnd - base)) l) in *.
  set (buffer := reslice _ 0 (len got)) in *.
  destruct (FindMatches_offsets_fit pm (elems buffer) (IgnoreCase opts) Hwf)
    as (offs & Hoffs & _ & Hfit).
  destruct (Z.eqb_spec (len got) 0) as [H0|H0].
  { injection H as <- <-. cbn [hist regions_ok]. split; [tauto|].
    unfold region_done. cbn [region_view].
    split; [discriminate|]. exists offs.
    rewrite Helems in Hoffs, Hfit.
    assert (offs = []) as ->.
    { destruct offs as [|x offs]; [reflexivity|].
      inversion Hfit as [|? ? (Hx & Hy & _) _]; subst. lia. }
    split; [exact Hoffs|]. split; [exists 0%nat|]; reflexivity. }
  rewrite Hoffs in H.
  apply (scanRegion_loop_delivery base buffer Hbase) with (done := []) in H.
  - destruct H as (Hok' & k & p & Hv & Hp & Hk). split; [exact Hok'|].
    unfold region_done. rewrite Hv. split; [exact Hp|].
    exists offs. rewrite Helems in Hoffs. rewrite Helems.
    split; [exact Hoffs|]. cbn [app].
    split; [exists k; reflexivity|].
    intros Hd. now rewrite (Hk Hd).
  - rewrite Helems. lia.
  - eapply Forall_impl; [|exact Hfit]. cbn. tauto.
  - cbn [hist regions_ok]. tauto.
  - cbn [hist region_view]. rewrite Helems. reflexivity.
Qed.

Lemma Scan_loop_delivery :
  forall (fuel : nat) (address : Z) (s : St) (o : outcome) (s' : St),
    Scan_loop fuel env opts pm M address s = (o, s') ->
    regions_ok pm (IgnoreCase opts) (hist s) ->
    region_done pm (IgnoreCase opts) (hist s) ->
    regions_ok pm (IgnoreCase opts) (hist s') /\
    region_done pm (IgnoreCase opts) (hist s').
Proof.
  induction fuel as [|fuel IH]; intros address s o s' H Hok Hdone.
  - cbn in H. injection H as <- <-. auto.
  - cbn [Scan_loop] in H.
    destruct (address <? M).
    2:{ injection H as <- <-. auto. }
    unfold bind at 1, select_ctx_Done in H.
    destruct (ctx_Done env (hist s)) as [e|] eqn:Ed.
    { injection H as <- <-. cbn [hist regions_ok].
      split; [tauto | now apply region_done_ctx]. }
    unfold bind at 1, call_VirtualQueryEx in H. cbn [hist nalloc] in H.
    assert (Hok1 : regions_ok pm (IgnoreCase opts)
                     (EvQuery address (VirtualQueryEx env
                        (EvCtx None :: hist s) address)
                      :: EvCtx None :: hist s)).
    { cbn [regions_ok]. split; [tauto | now apply region_done_ctx]. }
    destruct (VirtualQueryEx env _ address) as [mbi|] eqn:Eq.
    2:{ injection H as <- <-. cbn [hist]. split; [exact Hok1 | exact I]. }
    set (s2 := {| hist := EvQuery address (Some mbi) :: EvCtx None :: hist s;
                  nalloc := nalloc s |}) in H.
    assert (Hdone2 : region_done pm (IgnoreCase opts) (hist s2)) by exact I.
    unfold bind in H.
    destruct (isReadableRegion mbi).
    + destruct (scanRegion env opts _ _ M pm s2) as [o3 s3] eqn:E3.
      apply scanRegion_delivery in E3; auto; [|apply wrap64_range].
      destruct E3 as [Hok3 Hdone3].
      destruct o3 as [[e|]| |]; try (injection H as <- <-; auto; fail).
      eapply IH; eauto.
    + cbn in H. eapply IH; eauto.
Qed.

End Delivery.

Lemma Scan_trace_delivery (fuel : nat) (env : Env) (opts : ScanOptions)
    (pm : PatternMatcher) :
  NewPatternMatcher (Pattern opts) = Ok pm ->
  regions_ok pm (IgnoreCase opts) (rev (snd (Scan fuel env opts))) /\
  region_done pm (IgnoreCase opts) (rev (snd (Scan fuel env opts))).
Proof.
  intros Hpm. unfold Scan. rewrite Hpm.
  destruct (Scan_loop fuel env opts pm _ _ init_St) as [o s] eqn:E.
  apply NewPatternMatcher_well_formed in Hpm. destruct Hpm as [Hwf Hpos].
  cbn [snd]. rewrite rev_involutive.
  eapply Scan_loop_delivery; eauto; exact I.
Qed.

Lemma regions_ok_split (pm : PatternMatcher) (ic : bool)
    (newer : list event) (e : event) (older : list event) :
  regions_ok pm ic (newer ++ e :: older) ->
  ~ same_region_event e -> region_done pm ic older.
Proof.
  induction newer as [|x newer IH]; cbn [app regions_ok].
  - intros [_ H] He. destruct e; cbn in He; tauto.
  - intros [H _]. exact (IH H).
Qed.

Lemma region_view_segment (seg : list event) (base n : Z) (buf : nat)
    (got : list byte) (older : list event) :
  Forall same_region_event seg ->
  region_view (rev seg ++ EvRead base n buf (Some got) :: older)
  = Some (base, got, delivered seg, fold_left phase_step seg Delivering).
Proof.
  induction seg as [|e seg IH] using rev_ind; intros Hseg; [reflexivity|].
  apply Forall_app in Hseg. destruct Hseg as [Hseg He].
  inversion He as [|? ? He' _]; subst.
  rewrite rev_app_distr. cbn [rev app].
  unfold delivered. rewrite flat_map_app, fold_left_app. cbn [flat_map fold_left].
  destruct e; cbn in He'; try contradiction; cbn [region_view];
    rewrite (IH Hseg); unfold delivered; rewrite ?app_nil_r; reflexivity.
Qed.

Lemma phase_continues (seg : list event) :
  forallb continues seg = true -> fold_left phase_step seg Delivering = Delivering.
Proof.
  induction seg as [|e seg IH]; [reflexivity|].
  cbn [forallb fold_left]. intros H. apply andb_true_iff in H.
  destruct H as [He Hseg].
  destruct e as [[?|]| | |? []]; cbn in He; try discriminate; cbn; auto.
Qed.

Lemma Scan_region_segment (fuel : nat) (env : Env) (opts : ScanOptions)
    (pm : PatternMatcher) (pre : list event) (base n : Z) (buf : nat)
    (got : list byte) (seg rest : list event) :
  NewPatternMatcher (Pattern opts) = Ok pm ->
  snd (Scan fuel env opts)
  = pre ++ EvRead base n buf (Some got) :: seg ++ rest ->
  Forall same_region_event seg ->
  region_ends rest ->
  fold_left phase_step seg Delivering <> Violated /\
  exists offsets : list Z,
    FindMatches pm got (IgnoreCase opts) = Some offsets /\
    (exists k : nat, delivered seg = map (Z.add base) (firstn k offsets)) /\
    (fold_left phase_step seg Delivering = Delivering ->
     delivered seg = map (Z.add base) offsets).
Proof.
  intros Hpm Htr Hseg Hrest.
  destruct (Scan_trace_delivery fuel env opts pm Hpm) as [Hok Hdone].
  rewrite Htr in Hok, Hdone. rewrite rev_app_distr in Hok, Hdone.
  cbn [rev] in Hok, Hdone.
  rewrite rev_app_distr, <- !app_assoc in Hok, Hdone.
  cbn [app] in Hok, Hdone.
  assert (H : region_done pm (IgnoreCase opts)
                (rev seg ++ EvRead base n buf (Some got) :: rev pre)).
  { destruct rest as [|e rest]; [exact Hdone|].
    cbn [rev] in Hok. rewrite <- app_assoc in Hok. cbn [app] in Hok.
    exact (regions_ok_split _ _ _ _ _ Hok Hrest). }
  unfold region_done in H. rewrite (region_view_segment _ _ _ _ _ _ Hseg) in H.
  exact H.
Qed.

(** X10. Within a region the handler gets the matches of the bytes read in
    the order [FindMatches] finds them and with none left out: the
    addresses handed over between a read and the end of its region are the
    region's base plus the first so many offsets found, and they are the
    base plus all the offsets found when no handler call in between
    answered false and no poll saw the context cancelled. *)
Theorem region_matches_delivered (fuel : nat) (env : Env) (opts : ScanOptions)
    (pm : PatternMatcher) (pre : list event) (base n : Z) (buf : nat)
    (got : list byte) (seg rest : list event) :
  NewPatternMatcher (Pattern opts) = Ok pm ->
  snd (Scan fuel env opts)
  = pre ++ EvRead base n buf (Some got) :: seg ++ rest ->
  Forall same_region_event seg ->
  region_ends rest ->
  exists offsets : list Z,
    FindMatches pm got (IgnoreCase opts) = Some offsets /\
    (exists k : nat, delivered seg = map (Z.add base) (firstn k offsets)) /\
    (forallb continues seg = true ->
     delivered seg = map (Z.add base) offsets).
Proof.
  intros Hpm Htr Hseg Hrest.
  destruct (Scan_region_segment fuel env opts pm pre base n buf got seg rest
              Hpm Htr Hseg Hrest) as (_ & offsets & Hf & Hk & Hall).
  exists offsets. split; [exact Hf|]. split; [exact Hk|].
  intros Hc. apply Hall. now apply phase_continues.
Qed.

Lemma region_matches_delivered_witness :
  NewPatternMatcher (Pattern (opts_all "41" 0 16)) = Ok matcher_A /\
  snd (Scan 10 (static_env never_done one_region "AbcAefAhijklmnop")
         (opts_all "41" 0 16))
  = [EvCtx None; EvQuery 0 (Some (region 0 16 MEM_COMMIT PAGE_READWRITE))]
    ++ EvRead 0 16 0 (Some (bytes_of_string "AbcAefAhijklmnop"))
    :: [EvCtx None;
        EvHandler {| Address := 0;
                     Data := {| arr := 1; elems := bytes_of_string "A" |} |}
          true;
        EvCtx None;
        EvHandler {| Address := 3;
                     Data := {| arr := 2; elems := bytes_of_string "A" |} |}
          true;
        EvCtx None;
        EvHandler {| Address := 6;
                     Data := {| arr := 3; elems := bytes_of_string "A" |} |}
          true] ++ [] /\
  exists offsets : list Z,
    FindMatches matcher_A (bytes_of_string "AbcAefAhijklmnop")
      (IgnoreCase (opts_all "41" 0 16)) = Some offsets /\
    (exists k : nat, [0; 3; 6] = map (Z.add 0) (firstn k offsets)) /\
    (true = true -> [0; 3; 6] = map (Z.add 0) offsets).
Proof.
  split; [reflexivity|]. split; [reflexivity|].
  apply (region_matches_delivered 10
           (static_env never_done one_region "AbcAefAhijklmnop")
           (opts_all "41" 0 16) matcher_A
           [EvCtx None;
            EvQuery 0 (Some (region 0 16 MEM_COMMIT PAGE_READWRITE))]
           0 16 0%nat (bytes_of_string "AbcAefAhijklmnop")
           [EvCtx None;
            EvHandler {| Address := 0;
                         Data := {| arr := 1;
                                    elems := bytes_of_string "A" |} |} true;
            EvCtx None;
            EvHandler {| Address := 3;
                         Data := {| arr := 2;
                                    elems := bytes_of_string "A" |} |} true;
            EvCtx None;
            EvHandler {| Address := 6;
                         Data := {| arr := 3;
                                    elems := bytes_of_string "A" |} |} true]
           []).
  - reflexivity.
  - reflexivity.
  - repeat constructor.
  - exact I.
Defined.

Lemma span_region (l : list event) :
  exists seg rest : list event,
    l = seg ++ rest /\ Forall same_region_event seg /\ region_ends rest.
Proof.
  induction l as [|e l (seg & rest & -> & Hseg & Hrest)].
  - exists [], []. split; [reflexivity|]. split; [constructor | exact I].
  - destruct e as [d|a q|b n buf r|m r].
    + exists (EvCtx d :: seg), rest. split; [reflexivity|].
      split; [|exact Hrest]. constructor; [exact I | exact Hseg].
    + exists [], (EvQuery a q :: seg ++ rest). split; [reflexivity|].
      split; [constructor | exact (fun H => H)].
    + exists [], (EvRead b n buf r :: seg ++ rest). split; [reflexivity|].
      split; [constructor | exact (fun H => H)].
    + exists (EvHandler m r :: seg), rest. split; [reflexivity|].
      split; [|exact Hrest]. constructor; [exact I | exact Hseg].
Qed.

Lemma phase_violated_sticky (seg : list event) :
  fold_left phase_step seg Violated = Violated.
Proof. induction seg as [|e seg IH]; [reflexivity | exact IH]. Qed.

Lemma chain_next (fuel : nat) (env : Env) (opts : ScanOptions)
    (pre : list event) (e e' : event) (post : list event) :
  snd (Scan fuel env opts) = pre ++ e :: e' :: post ->
  ok_after (wrap64 (MaxAddress opts)) (Some e) e'.
Proof.
  intros Htr.
  destruct (NewPatternMatcher (Pattern opts)) as [pm|c] eqn:Hpm.
  - destruct (Scan_trace_chain fuel env opts pm Hpm) as [_ Hchain].
    cbv zeta in Hchain.
    specialize (Hchain (pre ++ [e]) e' post).
    rewrite rev_app_distr in Hchain. cbn in Hchain. apply Hchain.
    rewrite Htr, <- app_assoc. reflexivity.
  - rewrite (Scan_invalid_pattern fuel env opts c Hpm) in Htr.
    destruct pre; discriminate.
Qed.

(** X11. A handler answer of false ends the scan of the region it was
    given for, and only that: nothing more is delivered from that region.
    What follows the call in the trace is nothing at all (the range was
    exhausted), or one poll of the context and then, when the poll did not
    see the context cancelled, the query of the next region. *)
Theorem stop_ends_the_region (fuel : nat) (env : Env) (opts : ScanOptions)
    (pm : PatternMatcher) (pre : list event) (m : Match)
    (post : list event) :
  NewPatternMatcher (Pattern opts) = Ok pm ->
  snd (Scan fuel env opts) = pre ++ EvHandler m false :: post ->
  post = [] \/
  (exists d : option error, post = [EvCtx d]) \/
  (exists (a : Z) (q : option MemoryBasicInformation) (rest : list event),
     post = EvCtx None :: EvQuery a q :: rest).
Proof.
  intros Hpm Htr.
  destruct post as [|e1 post]; [now left|]. right.
  pose proof (chain_next fuel env opts pre _ e1 post Htr) as H1.
  cbn in H1. destruct H1 as [d ->].
  destruct post as [|e2 post]; [left; eauto|]. right.
  pose proof (chain_next fuel env opts (pre ++ [EvHandler m false])
                (EvCtx d) e2 post) as H2.
  rewrite <- app_assoc in H2. specialize (H2 Htr).
  destruct d as [e|]; [contradiction|].
  cbn in H2. destruct H2 as [(a & q & ->)|(m' & r' & ->)]; [eauto|].
  exfalso.
  destruct (handler_region fuel env opts pm pre m false _ Hpm Htr)
    as (before & a & mbi & n & buf & got & mid & off & Hpre & Hmid & _).
  destruct (span_region post) as (seg2 & rest & -> & Hseg2 & Hrest).
  destruct (Scan_region_segment fuel env opts pm
              (before ++ [EvQuery a (Some mbi)])
              (wrap64 (BaseAddress mbi)) n buf got
              (mid ++ EvHandler m false :: EvCtx None :: EvHandler m' r'
                   :: seg2) rest Hpm) as [Hp _].
  - rewrite Htr, Hpre, <- !app_assoc. reflexivity.
  - apply Forall_app. split; [exact Hmid|].
    repeat (constructor; [exact I|]). exact Hseg2.
  - exact Hrest.
  - apply Hp. rewrite fold_left_app. cbn [fold_left].
    destruct (fold_left phase_step mid Delivering); cbn;
      apply phase_violated_sticky.
Qed.

Lemma stop_ends_the_region_witness :
  NewPatternMatcher (Pattern opts_stop_first) = Ok matcher_A /\
  snd (Scan 10 (static_env never_done two_regions "AbcdAxyz") opts_stop_first)
  = [EvCtx None;
     EvQuery 0 (Some (region 0 4 MEM_COMMIT PAGE_READWRITE));
     EvRead 0 4 0 (Some (bytes_of_string "Abcd"));
     EvCtx None]
    ++ EvHandler {| Address := 0;
                    Data := {| arr := 1; elems := bytes_of_string "A" |} |}
         false
    :: [EvCtx None;
        EvQuery 4 (Some (region 4 4 MEM_COMMIT PAGE_READONLY));
        EvRead 4 4 2 (Some (bytes_of_string "Axyz"));
        EvCtx None;
        EvHandler second_match false] /\
  ([EvCtx None;
    EvQuery 4 (Some (region 4 4 MEM_COMMIT PAGE_READONLY));
    EvRead 4 4 2 (Some (bytes_of_string "Axyz"));
    EvCtx None;
    EvHandler second_match false] = [] \/
   (exists d : option error,
      [EvCtx None;
       EvQuery 4 (Some (region 4 4 MEM_COMMIT PAGE_READONLY));
       EvRead 4 4 2 (Some (bytes_of_string "Axyz"));
       EvCtx None;
       EvHandler second_match false] = [EvCtx d]) \/
   (exists (a : Z) (q : option MemoryBasicInformation) (rest : list event),
      [EvCtx None;
       EvQuery 4 (Some (region 4 4 MEM_COMMIT PAGE_READONLY));
       EvRead 4 4 2 (Some (bytes_of_string "Axyz"));
       EvCtx None;
       EvHandler second_match false] = EvCtx None :: EvQuery a q :: rest)).
Proof.
  split; [reflexivity|]. split; [reflexivity|].
  apply (stop_ends_the_region 10
           (static_env never_done two_regions "AbcdAxyz") opts_stop_first
           matcher_A
           [EvCtx None;
            EvQuery 0 (Some (region 0 4 MEM_COMMIT PAGE_READWRITE));
            EvRead 0 4 0 (Some (bytes_of_string "Abcd"));
            EvCtx None]
           {| Address := 0;
              Data := {| arr := 1; elems := bytes_of_string "A" |} |});
    reflexivity.
Defined.

(** X12. A region query that fails ends the scan at once and without an
    error: it is the last event of the trace and [Scan] returns nil. *)
Theorem failed_query_ends_scan (fuel : nat) (env : Env) (opts : ScanOptions)
    (pre : list event) (a : Z) (post : list event) :
  snd (Scan fuel env opts) = pre ++ EvQuery a None :: post ->
  post = [] /\ fst (Scan fuel env opts) = Returned None.
Proof.
  intros Htr.
  assert (Hpost : post = []).
  { destruct post as [|e post]; [reflexivity|].
    pose proof (chain_next fuel env opts pre _ e post Htr) as H.
    contradiction. }
  subst post. split; [reflexivity|].
  destruct (NewPatternMatcher (Pattern opts)) as [pm|c] eqn:Hpm.
  - destruct (Scan_trace_chain fuel env opts pm Hpm) as [Hstop _].
    cbv zeta in Hstop. rewrite Htr, rev_app_distr in Hstop. cbn in Hstop.
    destruct (fst (Scan fuel env opts)) as [[e|]| |]; cbn in Hstop;
      try contradiction; [discriminate | reflexivity].
  - rewrite (Scan_invalid_pattern fuel env opts c Hpm) in Htr.
    destruct pre; discriminate.
Qed.

(** X13. A read that fails or transfers no byte is passed over without an
    error and without a handler call: after it the trace ends, or holds
    one poll of the context and then, when the poll did not see the
    context cancelled, the query of the next region. *)
Theorem failed_read_is_skipped (fuel : nat) (env : Env) (opts : ScanOptions)
    (pre : list event) (b n : Z) (buf : nat) (r : option (list byte))
    (post : list event) :
  snd (Scan fuel env opts) = pre ++ EvRead b n buf r :: post ->
  r = None \/ r = Some [] ->
  post = [] \/
  (exists d : option error, post = [EvCtx d]) \/
  (exists (a : Z) (q : option MemoryBasicInformation) (rest : list event),
     post = EvCtx None :: EvQuery a q :: rest).
Proof.
  intros Htr Hr.
  destruct post as [|e1 post]; [now left|]. right.
  pose proof (chain_next fuel env opts pre _ e1 post Htr) as H1.
  cbn in H1. destruct H1 as [d ->].
  destruct post as [|e2 post]; [left; eauto|]. right.
  pose proof (chain_next fuel env opts (pre ++ [EvRead b n buf r])
                (EvCtx d) e2 post) as H2.
  rewrite <- app_assoc in H2. specialize (H2 Htr).
  destruct d as [e|]; [contradiction|].
  cbn in H2. destruct H2 as [(a & q & ->)|(m' & r' & ->)]; [eauto|].
  exfalso.
  destruct (NewPatternMatcher (Pattern opts)) as [pm|c] eqn:Hpm.
  2:{ rewrite (Scan_invalid_pattern fuel env opts c Hpm) in Htr.
      destruct pre; discriminate. }
  pose proof (Scan_trace_data fuel env opts pm Hpm) as Hok.
  apply NewPatternMatcher_well_formed in Hpm. destruct Hpm as [_ Hpos].
  rewrite Htr, rev_app_distr in Hok. cbn in Hok.
  rewrite <- !app_assoc in Hok. cbn [app] in Hok.
  apply hist_ok_split in Hok.
  destruct Hok as (base & buf' & got & off & Hread & Hoff & Hfit & _).
  cbn in Hread.
  destruct Hr as [-> | ->]; [discriminate|].
  injection Hread as <- <- <-. cbn in Hfit. lia.
Qed.

Lemma failed_query_ends_scan_witness :
  snd (Scan 10 (static_env never_done two_regions "AbcdAxyz")
         (opts_all "41" 0 100))
  = (nine_events ++ [EvHandler second_match true; EvCtx None])
    ++ EvQuery 8 None :: [] /\
  ([] = @nil event /\
   fst (Scan 10 (static_env never_done two_regions "AbcdAxyz")
          (opts_all "41" 0 100)) = Returned None).
Proof.
  split; [reflexivity|].
  apply (failed_query_ends_scan 10
           (static_env never_done two_regions "AbcdAxyz")
           (opts_all "41" 0 100)
           (nine_events ++ [EvHandler second_match true; EvCtx None]) 8 []).
  reflexivity.
Defined.

Lemma failed_read_is_skipped_witness :
  snd (Scan 10 (static_env never_done two_regions "") (opts_all "41" 0 8))
  = [EvCtx None; EvQuery 0 (Some (region 0 4 MEM_COMMIT PAGE_READWRITE))]
    ++ EvRead 0 4 0 (Some [])
    :: [EvCtx None;
        EvQuery 4 (Some (region 4 4 MEM_COMMIT PAGE_READONLY));
        EvRead 4 4 1 (Some [])] /\
  (@None (list byte) = Some [] \/ Some (@nil byte) = Some []) /\
  ([EvCtx None;
    EvQuery 4 (Some (region 4 4 MEM_COMMIT PAGE_READONLY));
    EvRead 4 4 1 (Some [])] = [] \/
   (exists d : option error,
      [EvCtx None;
       EvQuery 4 (Some (region 4 4 MEM_COMMIT PAGE_READONLY));
       EvRead 4 4 1 (Some [])] = [EvCtx d]) \/
   (exists (a : Z) (q : option MemoryBasicInformation) (rest : list event),
      [EvCtx None;
       EvQuery 4 (Some (region 4 4 MEM_COMMIT PAGE_READONLY));
       EvRead 4 4 1 (Some [])] = EvCtx None :: EvQuery a q :: rest)).
Proof.
  split; [reflexivity|]. split; [right; reflexivity|].
  apply (failed_read_is_skipped 10
           (static_env never_done two_regions "") (opts_all "41" 0 8)
           [EvCtx None;
            EvQuery 0 (Some (region 0 4 MEM_COMMIT PAGE_READWRITE))]
           0 4 0%nat (Some [])).
  - reflexivity.
  - right. reflexivity.
Defined.

(** ** The command's scan of one process *)

(** The scanner object: the process id and the handle [OpenProcess]
    gave. *)
Record Scanner : Type := {
  pid : Z;
  processHandle : Z
}.

(** [NewScanner]; [None] is the error "failed to open process". *)
Definition NewScanner (OpenProcess : Z -> option Z) (p : Z) : option Scanner :=
  match OpenProcess p with
  | None => None
  | Some hProcess => Some {| pid := p; processHandle := hProcess |}
  end.

(** [Close]: the scanner afterwards and the handles passed to
    [CloseHandle]. *)
Definition Close (s : Scanner) : Scanner * list Z :=
  if negb (processHandle s =? 0) then
    ({| pid := pid s; processHandle := 0 |}, [processHandle s])
  else (s, []).

Definition GetPID (s : Scanner) : Z := pid s.

(** What [scanProcess] can fail with: the scanner could not be created, or
    the scan failed with the given cause. *)
Inductive process_error : Type :=
| ErrCreateScanner
| ErrScanFailed (cause : error).

(** How a call of [scanProcess] ends. *)
Inductive run (A : Type) : Type :=
| Finished (a : A)
| Crashed
| Running.

Arguments Finished {A} a.
Arguments Crashed {A}.
Arguments Running {A}.

(** The options [scanProcess] scans with; its handler stores the match
    and always answers true. *)
Definition scanProcess_opts (pattern : string) : ScanOptions :=
  {| Pattern := pattern;
     IgnoreCase := true;
     MinAddress := 0;
     MaxAddress := 0x7FFFFFFFFFFF;
     Handler := fun _ _ => true |}.

(** What that handler has appended to [matches] over a trace. *)
Definition collected (tr : list event) : list Match :=
  flat_map (fun e => match e with
                     | EvHandler m _ => [m]
                     | _ => []
                     end) tr.

(** [scanProcess]: the matches and the error it returns.  [target] is the
    memory and the context seen through a process handle; the deferred
    [Close] releases the handle and does not change the result. *)
Definition scanProcess (fuel : nat) (OpenProcess : Z -> option Z)
    (target : Z -> Env) (p : Z) (pattern : string)
    : run (list Match * option process_error) :=
  match NewScanner OpenProcess p with
  | None => Finished ([], Some ErrCreateScanner)
  | Some scanner =>
      let (o, tr) :=
        Scan fuel (target (processHandle scanner)) (scanProcess_opts pattern) in
      match o with
      | Returned None => Finished (collected tr, None)
      | Returned (Some Canceled) => Finished (collected tr, None)
      | Returned (Some err) => Finished (collected tr, Some (ErrScanFailed err))
      | Panicked => Crashed
      | Unfinished => Running
      end
  end.

(** A context made by [context.WithCancel]: the only error it ever gives
    is [Canceled]. *)
Definition cancel_only (env : Env) : Prop :=
  forall (h : list event) (e : error), ctx_Done env h = Some e -> e = Canceled.

Lemma Scan_error_is_ctx (fuel : nat) (env : Env) (opts : ScanOptions)
    (pm : PatternMatcher) (e : error) :
  NewPatternMatcher (Pattern opts) = Ok pm ->
  fst (Scan fuel env opts) = Returned (Some e) ->
  exists pre : list event,
    snd (Scan fuel env opts) = pre ++ [EvCtx (Some e)] /\
    ctx_Done env (rev pre) = Some e.
Proof.
  intros Hpm Ho.
  destruct (Scan_trace_chain fuel env opts pm Hpm) as [Hstop _].
  cbv zeta in Hstop. rewrite Ho in Hstop. cbn in Hstop.
  apply hd_error_rev in Hstop. destruct Hstop as [pre Htr].
  exists pre. split; [exact Htr|].
  pose proof (Scan_trace_event fuel env opts pre _ [] Htr) as He.
  cbn in He. now symmetry.
Qed.

Lemma no_cancel_seen (fuel : nat) (env : Env) (opts : ScanOptions)
    (e : error) :
  fst (Scan fuel env opts) = Returned None ->
  ~ In (EvCtx (Some e)) (snd (Scan fuel env opts)).
Proof.
  intros Ho Hin. apply in_split in Hin. destruct Hin as (l1 & l2 & Htr).
  destruct l2 as [|e' l2].
  - destruct (NewPatternMatcher (Pattern opts)) as [pm|c] eqn:Hpm.
    + destruct (Scan_trace_chain fuel env opts pm Hpm) as [Hstop _].
      cbv zeta in Hstop. rewrite Ho, Htr, rev_app_distr in Hstop.
      cbn in Hstop. destruct Hstop as [H|[a H]]; [exact H | discriminate].
    + rewrite (Scan_invalid_pattern fuel env opts c Hpm) in Htr.
      destruct l1; discriminate.
  - exact (chain_next fuel env opts l1 _ e' l2 Htr).
Qed.

Lemma handler_answer (fuel : nat) (env : Env) (opts : ScanOptions)
    (m : Match) (r : bool) :
  In (EvHandler m r) (snd (Scan fuel env opts)) ->
  exists h : list event, r = Handler opts h m.
Proof.
  intros Hin. apply in_split in Hin. destruct Hin as (l1 & l2 & Htr).
  exists (rev l1). exact (Scan_trace_event fuel env opts l1 _ l2 Htr).
Qed.

Lemma last_read_segment (seg : list event) (base n : Z) (buf : nat)
    (got : list byte) (older : list event) :
  Forall same_region_event seg ->
  last_read (rev seg ++ EvRead base n buf (Some got) :: older)
  = Some (base, buf, got).
Proof.
  induction seg as [|e seg IH] using rev_ind; intros Hseg; [reflexivity|].
  apply Forall_app in Hseg. destruct Hseg as [Hseg He].
  inversion He as [|? ? He' _]; subst.
  rewrite rev_app_distr. cbn [rev app].
  destruct e; cbn in He'; try contradiction; cbn [last_read]; auto.
Qed.

Lemma delivered_In (seg : list event) (a : Z) :
  In a (delivered seg) ->
  exists (m : Match) (r : bool), In (EvHandler m r) seg /\ Address m = a.
Proof.
  unfold delivered. rewrite in_flat_map. intros (e & He & Ha).
  destruct e as [| | |m r]; cbn in Ha; try contradiction.
  destruct Ha as [<-|[]]. eauto.
Qed.

Lemma collected_In (tr : list event) (m : Match) (r : bool) :
  In (EvHandler m r) tr -> In m (collected tr).
Proof.
  intros H. unfold collected. apply in_flat_map.
  exists (EvHandler m r). split; [exact H | now left].
Qed.

(** What a scan whose handler never stops and whose context was not seen
    cancelled has delivered for a read: a match at every offset
    [FindMatches] finds in the bytes read, holding the bytes at that
    offset. *)
Lemma unstopped_scan_delivers_all (fuel : nat) (env : Env)
    (opts : ScanOptions) (pm : PatternMatcher) (pre : list event)
    (base n : Z) (buf : nat) (got : list byte) (post : list event)
    (offsets : list Z) (off : Z) :
  (forall h m, Handler opts h m = true) ->
  NewPatternMatcher (Pattern opts) = Ok pm ->
  fst (Scan fuel env opts) = Returned None ->
  snd (Scan fuel env opts) = pre ++ EvRead base n buf (Some got) :: post ->
  FindMatches pm got (IgnoreCase opts) = Some offsets ->
  In off offsets ->
  exists m : Match,
    In m (collected post) /\
    Address m = base + off /\
    elems (Data m)
    = firstn (Z.to_nat (patternLength pm)) (skipn (Z.to_nat off) got).
Proof.
  intros Htrue Hpm Ho Htr Hf Hoff.
  destruct (span_region post) as (seg & rest & -> & Hseg & Hrest).
  assert (Hin : forall e, In e seg -> In e (snd (Scan fuel env opts))).
  { intros e He. rewrite Htr. apply in_or_app. right. right.
    apply in_or_app. now left. }
  assert (Hc : forallb continues seg = true).
  { apply forallb_forall. intros e He.
    pose proof (proj1 (Forall_forall _ _) Hseg e He) as Hs.
    destruct e as [[c|]| | |m []]; cbn in Hs; try contradiction;
      try reflexivity; exfalso.
    - exact (no_cancel_seen fuel env opts c Ho (Hin _ He)).
    - destruct (handler_answer fuel env opts m false (Hin _ He)) as [h Hh].
      rewrite Htrue in Hh. discriminate. }
  destruct (Scan_region_segment fuel env opts pm pre base n buf got seg rest
              Hpm Htr Hseg Hrest) as (_ & offsets' & Hf' & _ & Hall).
  rewrite Hf in Hf'. injection Hf' as <-.
  specialize (Hall (phase_continues seg Hc)).
  assert (Ha : In (base + off) (delivered seg))
    by (rewrite Hall; now apply in_map).
  apply delivered_In in Ha. destruct Ha as (m & r & Hm & Haddr).
  exists m. split; [|split; [exact Haddr|]].
  - unfold collected. rewrite flat_map_app. apply in_or_app. left.
    exact (collected_In seg m r Hm).
  - apply in_split in Hm. destruct Hm as (s1 & s2 & ->).
    apply Forall_app in Hseg. destruct Hseg as [Hs1 _].
    pose proof (Scan_trace_data fuel env opts pm Hpm) as Hok.
    rewrite Htr in Hok.
    replace (pre ++ EvRead base n buf (Some got)
                 :: (s1 ++ EvHandler m r :: s2) ++ rest)
      with ((pre ++ EvRead base n buf (Some got) :: s1)
            ++ EvHandler m r :: s2 ++ rest) in Hok
      by (rewrite <- !app_assoc; reflexivity).
    rewrite rev_app_distr in Hok. cbn [rev] in Hok.
    rewrite <- app_assoc in Hok. cbn [app] in Hok.
    apply hist_ok_split in Hok.
    destruct Hok as (base' & buf' & got' & off' & Hread & _ & _ & _
                     & Haddr' & Hdata & _).
    rewrite rev_app_distr in Hread. cbn [rev] in Hread.
    rewrite <- app_assoc in Hread. cbn [app] in Hread.
    rewrite (last_read_segment s1 base n buf got (rev pre) Hs1) in Hread.
    injection Hread as <- <- <-.
    assert (off' = off) as -> by lia. exact Hdata.
Qed.

(** X14. [scanProcess] misses nothing when the scan is not interrupted:
    if the scan it runs returns nil without having seen the context
    cancelled, then for every read of that scan and every offset at which
    [FindMatches] (ignoring case) finds the pattern in the bytes read, the
    matches [scanProcess] returns contain one with the region's base plus
    that offset as its address and the bytes at that offset as its data,
    and the error it returns is nil. *)
Theorem scanProcess_finds_all (fuel : nat) (OpenProcess : Z -> option Z)
    (target : Z -> Env) (p hProcess : Z) (pattern : string)
    (pm : PatternMatcher) (pre : list event) (base n : Z) (buf : nat)
    (got : list byte) (post : list event) (offsets : list Z) (off : Z) :
  OpenProcess p = Some hProcess ->
  NewPatternMatcher pattern = Ok pm ->
  fst (Scan fuel (target hProcess) (scanProcess_opts pattern))
  = Returned None ->
  snd (Scan fuel (target hProcess) (scanProcess_opts pattern))
  = pre ++ EvRead base n buf (Some got) :: post ->
  FindMatches pm got true = Some offsets ->
  In off offsets ->
  exists (matches : list Match) (m : Match),
    scanProcess fuel OpenProcess target p pattern = Finished (matches, None) /\
    In m matches /\
    Address m = base + off /\
    elems (Data m)
    = firstn (Z.to_nat (patternLength pm)) (skipn (Z.to_nat off) got).
Proof.
  intros Hopen Hpm Ho Htr Hf Hoff.
  destruct (unstopped_scan_delivers_all fuel (target hProcess)
              (scanProcess_opts pattern) pm pre base n buf got post offsets
              off (fun _ _ => eq_refl) Hpm Ho Htr Hf Hoff)
    as (m & Hm & Haddr & Hdata).
  exists (collected (snd (Scan fuel (target hProcess)
                            (scanProcess_opts pattern)))), m.
  split; [|split; [|split; [exact Haddr | exact Hdata]]].
  - unfold scanProcess, NewScanner. rewrite Hopen. cbn [processHandle].
    destruct (Scan fuel (target hProcess) (scanProcess_opts pattern))
      as [o tr]. cbn [fst] in Ho. subst o. reflexivity.
  - rewrite Htr. unfold collected. rewrite flat_map_app.
    apply in_or_app. right. cbn [flat_map app]. exact Hm.
Qed.

(** X15. In the command, [scanProcess] can only fail at opening the
    process: with a pattern compiled from a non-empty search string and a
    context that can only be cancelled (not timed out), a call that opened
    the process returns a nil error, whatever the target does, and every
    match it returns has as many bytes as the compiled pattern has
    positions. *)
Theorem scanProcess_fails_only_at_open (fuel : nat)
    (OpenProcess : Z -> option Z) (target : Z -> Env) (p hProcess : Z)
    (searchStr : string) (searchLength : Z)
    (matches : list Match) (err : option process_error) :
  searchStr <> ""%string ->
  OpenProcess p = Some hProcess ->
  cancel_only (target hProcess) ->
  scanProcess fuel OpenProcess target p
    (StringToPattern searchStr searchLength) = Finished (matches, err) ->
  err = None /\
  forall m : Match,
    In m matches ->
    len (elems (Data m))
    = Z.max (len (bytes_of_string searchStr)) searchLength.
Proof.
  intros Hne Hopen Hctx Hrun.
  pose proof (NewPatternMatcher_StringToPattern searchStr searchLength Hne)
    as Hpm.
  set (pattern := StringToPattern searchStr searchLength) in *.
  assert (Hms : forall m, In m (collected (snd (Scan fuel (target hProcess)
                                  (scanProcess_opts pattern)))) ->
                len (elems (Data m))
                = Z.max (len (bytes_of_string searchStr)) searchLength).
  { intros m Hm. unfold collected in Hm. apply in_flat_map in Hm.
    destruct Hm as (e & He & Hm).
    destruct e as [| | |m' r]; cbn in Hm; try contradiction.
    destruct Hm as [->|[]].
    apply in_split in He. destruct He as (l1 & l2 & Htr).
    destruct (handler_region fuel (target hProcess) (scanProcess_opts pattern)
                (compiled searchStr searchLength) l1 m r l2 Hpm Htr)
      as (_ & _ & _ & _ & _ & _ & _ & _ & _ & _ & _ & _ & Hlen & _).
    rewrite Hlen. apply compiled_length. }
  unfold scanProcess, NewScanner in Hrun. rewrite Hopen in Hrun.
  cbn [processHandle] in Hrun.
  destruct (Scan fuel (target hProcess) (scanProcess_opts pattern))
    as [o tr] eqn:E.
  cbn [snd] in Hms.
  destruct o as [[e|]| |]; try discriminate.
  - pose proof (Scan_error_is_ctx fuel (target hProcess)
                  (scanProcess_opts pattern) _ e Hpm) as Hc.
    rewrite E in Hc. destruct (Hc eq_refl) as (pre & _ & Hdone).
    apply Hctx in Hdone. subst e.
    injection Hrun as <- <-. split; [reflexivity | exact Hms].
  - injection Hrun as <- <-. split; [reflexivity | exact Hms].
Qed.

(** A system with one process, number 7, opened as handle 3, whose memory
    is [two_regions] holding ["AbcdAxyz"]. *)
Definition open_seven (p : Z) : option Z := if p =? 7 then Some 3 else None.

Definition seven_target (hProcess : Z) : Env :=
  static_env never_done two_regions "AbcdAxyz".

Definition first_match : Match :=
  {| Address := 0; Data := {| arr := 1; elems := bytes_of_string "A" |} |}.

Lemma scanProcess_finds_all_witness :
  open_seven 7 = Some 3 /\
  NewPatternMatcher "41" = Ok matcher_A /\
  fst (Scan 10 (seven_target 3) (scanProcess_opts "41")) = Returned None /\
  snd (Scan 10 (seven_target 3) (scanProcess_opts "41"))
  = (nine_events ++ [EvHandler second_match true; EvCtx None])
    ++ EvQuery 8 None :: [] /\
  FindMatches matcher_A (bytes_of_string "Axyz") true = Some [0] /\
  In 0 [0] /\
  exists (matches : list Match) (m : Match),
    scanProcess 10 open_seven seven_target 7 "41" = Finished (matches, None) /\
    In m matches /\
    Address m = 4 + 0 /\
    elems (Data m)
    = firstn (Z.to_nat (patternLength matcher_A))
        (skipn (Z.to_nat 0) (bytes_of_string "Axyz")).
Proof.
  split; [reflexivity|]. split; [reflexivity|]. split; [reflexivity|].
  split; [reflexivity|]. split; [reflexivity|]. split; [now left|].
  apply (scanProcess_finds_all 10 open_seven seven_target 7 3 "41" matcher_A
           [EvCtx None;
            EvQuery 0 (Some (region 0 4 MEM_COMMIT PAGE_READWRITE));
            EvRead 0 4 0 (Some (bytes_of_string "Abcd"));
            EvCtx None;
            EvHandler first_match true;
            EvCtx None;
            EvQuery 4 (Some (region 4 4 MEM_COMMIT PAGE_READONLY))]
           4 4 2%nat (bytes_of_string "Axyz")
           [EvCtx None; EvHandler second_match true; EvCtx None;
            EvQuery 8 None]
           [0] 0); try reflexivity.
  now left.
Defined.

Lemma scanProcess_fails_only_at_open_witness :
  "A"%string <> ""%string /\
  open_seven 7 = Some 3 /\
  cancel_only (seven_target 3) /\
  scanProcess 10 open_seven seven_target 7 (StringToPattern "A" 1)
  = Finished ([first_match; second_match], None) /\
  (@None process_error = None /\
   forall m : Match,
     In m [first_match; second_match] ->
     len (elems (Data m)) = Z.max (len (bytes_of_string "A")) 1).
Proof.
  split; [discriminate|]. split; [reflexivity|].
  split; [intros h e; discriminate|]. split; [reflexivity|].
  apply (scanProcess_fails_only_at_open 10 open_seven seven_target 7 3 "A" 1
           [first_match; second_match] None).
  - discriminate.
  - reflexivity.
  - intros h e; discriminate.
  - reflexivity.
Defined.

(** ** The scanner object *)

(** X16. [NewScanner] keeps the process id it was given and the handle
    [OpenProcess] returned, and fails exactly when [OpenProcess] fails.
    [Close] releases the handle at most once: it passes to [CloseHandle]
    nothing but the scanner's own non-zero handle, leaves the scanner with
    handle zero and its process id unchanged, and a second [Close]
    releases nothing and changes nothing. *)
Theorem Close_releases_once (OpenProcess : Z -> option Z) (p : Z)
    (s : Scanner) :
  (NewScanner OpenProcess p = None <-> OpenProcess p = None) /\
  (forall s0, NewScanner OpenProcess p = Some s0 ->
              GetPID s0 = p /\ OpenProcess p = Some (processHandle s0)) /\
  processHandle (fst (Close s)) = 0 /\
  GetPID (fst (Close s)) = GetPID s /\
  (forall h, In h (snd (Close s)) -> h = processHandle s /\ h <> 0) /\
  (processHandle s <> 0 -> snd (Close s) = [processHandle s]) /\
  Close (fst (Close s)) = (fst (Close s), []).
Proof.
  unfold NewScanner, Close, GetPID.
  split; [destruct (OpenProcess p); split; congruence|].
  split.
  { intros s0 H. destruct (OpenProcess p); [|discriminate].
    injection H as <-. auto. }
  destruct (Z.eqb_spec (processHandle s) 0) as [H0|H0]; cbn.
  - split; [exact H0|]. split; [reflexivity|]. split; [intros h []|].
    split; [intros H; contradiction|].
    destruct (Z.eqb_spec (processHandle s) 0); [reflexivity | contradiction].
  - split; [reflexivity|]. split; [reflexivity|].
    split; [intros h [<-|[]]; split; [reflexivity | exact H0]|].
    split; reflexivity.
Qed.

(** ** Shortening text for the console *)

(** [s[:hi]] on a string; [None] is the run-time panic for bounds out of
    range. *)
Definition slice_to (s : string) (hi : Z) : option string :=
  if (0 <=? hi) && (hi <=? len (bytes_of_string s))
  then Some (substring 0 (Z.to_nat hi) s)
  else None.

Definition truncateString (s : string) (maxLen : Z) : option string :=
  if len (bytes_of_string s) <=? maxLen then Some s
  else if maxLen <=? 3 then slice_to s maxLen
  else
    match slice_to s (maxLen - 3) with
    | Some head => Some (head ++ "...")%string
    | None => None
    end.

(** [strings.ReplaceAll(s, old, new)] for an [old] of one byte: every
    occurrence of the byte is replaced. *)
Fixpoint ReplaceAll (s : string) (old : ascii) (new : string) : string :=
  match s with
  | EmptyString => EmptyString
  | String c rest =>
      ((if Ascii.eqb c old then new else String c EmptyString)
       ++ ReplaceAll rest old new)%string
  end.

Definition line_feed : ascii := "010"%char.
Definition carriage_return : ascii := "013"%char.
Definition tab : ascii := "009"%char.

Definition formatForConsole (s : string) (maxLen : Z) : option string :=
  let display := ReplaceAll s line_feed "\n" in
  let display := ReplaceAll display carriage_return "\r" in
  let display := ReplaceAll display tab "\t" in
  truncateString display maxLen.

(** A string without line feed, carriage return and tab. *)
Definition one_line (s : string) : Prop :=
  forall c : ascii,
    In c (bytes_of_string s) ->
    c <> line_feed /\ c <> carriage_return /\ c <> tab.

Lemma bytes_of_string_app (a b : string) :
  bytes_of_string (a ++ b) = bytes_of_string a ++ bytes_of_string b.
Proof.
  unfold bytes_of_string.
  induction a as [|c a IH]; [reflexivity|]. cbn. now rewrite IH.
Qed.

Lemma len_bytes_String (c : ascii) (s : string) :
  len (bytes_of_string (String c s)) = 1 + len (bytes_of_string s).
Proof.
  unfold len, bytes_of_string. cbn [list_ascii_of_string List.length]. lia.
Qed.

Lemma substring_split (n : nat) (s : string) :
  (n <= List.length (bytes_of_string s))%nat ->
  exists t : string,
    s = (substring 0 n s ++ t)%string /\
    len (bytes_of_string (substring 0 n s)) = Z.of_nat n.
Proof.
  revert s; induction n as [|n IH]; intros s Hn.
  - exists s. destruct s; cbn; auto.
  - destruct s as [|c s]; [cbn in Hn; lia|].
    unfold bytes_of_string in Hn. cbn in Hn.
    destruct (IH s) as (t & Ht & Hl); [unfold bytes_of_string; lia|].
    exists t. cbn [substring]. split.
    + cbn. now rewrite <- Ht.
    + rewrite len_bytes_String, Hl. lia.
Qed.

Lemma slice_to_spec (s : string) (hi : Z) :
  (slice_to s hi = None <-> hi < 0 \/ len (bytes_of_string s) < hi) /\
  forall r, slice_to s hi = Some r ->
    len (bytes_of_string r) = hi /\ exists t, s = (r ++ t)%string.
Proof.
  unfold slice_to.
  destruct (Z.leb_spec 0 hi), (Z.leb_spec hi (len (bytes_of_string s)));
    cbn [andb]; (split; [split; [intros; try discriminate; lia
                               | intros; try reflexivity; lia]|]);
    intros r Hr; try discriminate.
  injection Hr as <-.
  destruct (substring_split (Z.to_nat hi) s) as (t & Ht & Hl);
    [unfold len in *; lia|].
  split; [rewrite Hl; lia | eauto].
Qed.

Lemma truncateString_bytes (s : string) (maxLen : Z) :
  0 <= maxLen ->
  exists r : string,
    truncateString s maxLen = Some r /\
    len (bytes_of_string r) <= maxLen /\
    forall c, In c (bytes_of_string r) ->
              In c (bytes_of_string s) \/ c = "."%char.
Proof.
  intros Hmax. unfold truncateString.
  destruct (Z.leb_spec (len (bytes_of_string s)) maxLen) as [Hfit|Hlong].
  { exists s. auto. }
  destruct (Z.leb_spec maxLen 3) as [H3|H3].
  - destruct (slice_to_spec s maxLen) as [Hnone Hsome].
    destruct (slice_to s maxLen) as [r|] eqn:E.
    + destruct (Hsome r eq_refl) as [Hl [t Ht]].
      exists r. split; [reflexivity|]. split; [lia|].
      intros c Hc. left. rewrite Ht, bytes_of_string_app.
      apply in_or_app. now left.
    + exfalso. assert (None = @None string) as H by reflexivity.
      apply Hnone in H. lia.
  - destruct (slice_to_spec s (maxLen - 3)) as [Hnone Hsome].
    destruct (slice_to s (maxLen - 3)) as [head|] eqn:E.
    + destruct (Hsome head eq_refl) as [Hl [t Ht]].
      exists (head ++ "...")%string. split; [reflexivity|].
      rewrite bytes_of_string_app, len_app, Hl.
      split; [cbn; lia|].
      intros c Hc. apply in_app_or in Hc. destruct Hc as [Hc|Hc].
      * left. rewrite Ht, bytes_of_string_app. apply in_or_app. now left.
      * right. cbn in Hc. destruct Hc as [<-|[ <- | [ <- | [] ] ]]; reflexivity.
    + exfalso. assert (None = @None string) as H by reflexivity.
      apply Hnone in H. lia.
Qed.

(** X17. [truncateString] panics exactly when [maxLen] is negative.
    Otherwise its result has [min(len(s), maxLen)] bytes; it is [s] itself
    when [s] fits, the first [maxLen] bytes of [s] when [s] does not fit
    and [maxLen <= 3], and the first [maxLen - 3] bytes of [s] followed by
    three dots in the remaining case; and shortening the result again with
    the same bound changes nothing. *)
Theorem truncateString_spec (s : string) (maxLen : Z) :
  (truncateString s maxLen = None <-> maxLen < 0) /\
  forall r : string,
    truncateString s maxLen = Some r ->
    len (bytes_of_string r) = Z.min (len (bytes_of_string s)) maxLen /\
    truncateString r maxLen = Some r /\
    (len (bytes_of_string s) <= maxLen -> r = s) /\
    (maxLen < len (bytes_of_string s) -> maxLen <= 3 ->
     exists t, s = (r ++ t)%string) /\
    (maxLen < len (bytes_of_string s) -> 3 < maxLen ->
     exists head t,
       r = (head ++ "...")%string /\ s = (head ++ t)%string /\
       len (bytes_of_string head) = maxLen - 3).
Proof.
  pose proof (len_nonneg (bytes_of_string s)) as Hs.
  unfold truncateString.
  destruct (Z.leb_spec (len (bytes_of_string s)) maxLen) as [Hfit|Hlong].
  { split; [split; [discriminate | lia]|].
    intros r Hr. injection Hr as <-.
    split; [lia|].
    split; [destruct (Z.leb_spec (len (bytes_of_string s)) maxLen);
            [reflexivity | lia]|].
    split; [reflexivity|].
    split; intros; lia. }
  destruct (Z.leb_spec maxLen 3) as [H3|H3].
  - destruct (slice_to_spec s maxLen) as [Hnone Hsome].
    split; [rewrite Hnone; lia|].
    intros r Hr. destruct (Hsome r Hr) as [Hl Ht].
    split; [lia|].
    split; [destruct (Z.leb_spec (len (bytes_of_string r)) maxLen);
            [reflexivity | lia]|].
    split; [lia|].
    split; [intros; exact Ht | intros; lia].
  - destruct (slice_to_spec s (maxLen - 3)) as [Hnone Hsome].
    destruct (slice_to s (maxLen - 3)) as [head|] eqn:E.
    + split; [split; [discriminate | lia]|].
      intros r Hr. injection Hr as <-.
      destruct (Hsome head eq_refl) as [Hl [t Ht]].
      assert (Hr : len (bytes_of_string (head ++ "...")) = maxLen).
      { rewrite bytes_of_string_app, len_app, Hl. cbn. lia. }
      split; [lia|].
      split; [destruct (Z.leb_spec (len (bytes_of_string (head ++ "...")))
                          maxLen); [reflexivity | lia]|].
      split; [lia|].
      split; [intros; lia|]. intros _ _. exists head, t. auto.
    + exfalso. assert (None = @None string) as H by reflexivity.
      apply Hnone in H. lia.
Qed.

Lemma ReplaceAll_bytes (s : string) (old : ascii) (new : string) (c : ascii) :
  In c (bytes_of_string (ReplaceAll s old new)) ->
  (In c (bytes_of_string s) /\ c <> old) \/ In c (bytes_of_string new).
Proof.
  induction s as [|x s IH]; cbn [ReplaceAll]; [intros []|].
  rewrite bytes_of_string_app. intros H. apply in_app_or in H.
  destruct H as [H|H].
  - destruct (Ascii.eqb_spec x old) as [->|Hne]; [now right|].
    cbn in H. destruct H as [<-|[]]. left. split; [now left | exact Hne].
  - destruct (IH H) as [[H1 H2]|H1]; [left | now right].
    split; [now right | exact H2].
Qed.

Lemma ReplaceAll_absent (s : string) (old : ascii) (new : string) :
  ~ In old (bytes_of_string s) -> ReplaceAll s old new = s.
Proof.
  induction s as [|x s IH]; [reflexivity|]. cbn. intros H.
  destruct (Ascii.eqb_spec x old) as [->|Hne]; [tauto|].
  cbn. rewrite IH; tauto.
Qed.

(** X18. For a bound that is not negative [formatForConsole] does not
    panic, its result has at most [maxLen] bytes and holds no line feed,
    carriage return or tab; and on a string that holds none of the three
    it does what [truncateString] does. *)
Theorem formatForConsole_spec (s : string) (maxLen : Z) :
  0 <= maxLen ->
  (exists r : string,
     formatForConsole s maxLen = Some r /\
     len (bytes_of_string r) <= maxLen /\
     one_line r) /\
  (one_line s -> formatForConsole s maxLen = truncateString s maxLen).
Proof.
  intros Hmax. unfold formatForConsole. cbv zeta. split.
  - set (display := ReplaceAll (ReplaceAll (ReplaceAll s line_feed "\n")
                                  carriage_return "\r") tab "\t").
    assert (Hd : one_line display).
    { intros c Hc. unfold display in Hc.
      apply ReplaceAll_bytes in Hc. destruct Hc as [[Hc Htab]|Hc].
      2:{ cbn in Hc. destruct Hc as [ <- | [ <- | [] ] ]; repeat split; discriminate. }
      apply ReplaceAll_bytes in Hc. destruct Hc as [[Hc Hcr]|Hc].
      2:{ cbn in Hc. destruct Hc as [ <- | [ <- | [] ] ]; repeat split; discriminate. }
      apply ReplaceAll_bytes in Hc. destruct Hc as [[Hc Hlf]|Hc].
      2:{ cbn in Hc. destruct Hc as [ <- | [ <- | [] ] ]; repeat split; discriminate. }
      auto. }
    destruct (truncateString_bytes display maxLen Hmax)
      as (r & Hr & Hlen & Hin).
    exists r. split; [exact Hr|]. split; [exact Hlen|].
    intros c Hc. destruct (Hin c Hc) as [H | ->]; [now apply Hd|].
    repeat split; discriminate.
  - intros Hs.
    assert (H1 : ReplaceAll s line_feed "\n" = s).
    { apply ReplaceAll_absent. intros H. now apply Hs in H. }
    rewrite H1.
    assert (H2 : ReplaceAll s carriage_return "\r" = s).
    { apply ReplaceAll_absent. intros H. apply Hs in H. tauto. }
    rewrite H2.
    assert (H3 : ReplaceAll s tab "\t" = s).
    { apply ReplaceAll_absent. intros H. apply Hs in H. tauto. }
    rewrite H3. reflexivity.
Qed.

Lemma formatForConsole_spec_witness :
  0 <= 50 /\
  (exists r : string,
     formatForConsole (String "a" (String line_feed "b")) 50 = Some r /\
     len (bytes_of_string r) <= 50 /\
     one_line r) /\
  (one_line (String "a" (String line_feed "b")) ->
   formatForConsole (String "a" (String line_feed "b")) 50
   = truncateString (String "a" (String line_feed "b")) 50).
Proof.
  split; [lia|].
  apply (formatForConsole_spec (String "a" (String line_feed "b")) 50).
  lia.
Defined.

Example formatForConsole_escapes :
  formatForConsole (String "a" (String line_feed (String tab "b"))) 50
  = Some "a\n\tb"%string.
Proof. reflexivity. Qed.

Example truncateString_long :
  truncateString "WeChatAppEx.exe" 10 = Some "WeChatA..."%string.
Proof. reflexivity. Qed.

(** ** Addresses as text *)

(** [fmt.Sprintf("%X", n)] for an unsigned [n]: the upper-case hexadecimal
    digits of [n] without leading zeros, one digit for zero.  Sixteen
    digits are enough for 64 bits. *)
Fixpoint upperHex (digits : nat) (n : Z) (acc : string) : string :=
  match digits with
  | O => acc
  | S digits' =>
      let acc' := String (upperHexDigit (Z.to_N (n mod 16))) acc in
      if n / 16 =? 0 then acc' else upperHex digits' (n / 16) acc'
  end.

Definition Sprintf_X (n : Z) : string := upperHex 16 n "".

(** [Address.String]. *)
Definition Address_String (a : Z) : string :=
  ("0x" ++ Sprintf_X (wrap64 a))%string.

(** The number a string of hexadecimal digits stands for, read from the
    left starting with [v]. *)
Fixpoint hex_value (s : string) (v : Z) : option Z :=
  match s with
  | EmptyString => Some v
  | String c rest =>
      match fromHexChar c with
      | Some d => hex_value rest (16 * v + Z.of_N d)
      | None => None
      end
  end.

Definition upper_hex_digit (c : ascii) : Prop :=
  (48 <= N_of_ascii c <= 57)%N \/ (65 <= N_of_ascii c <= 70)%N.

Lemma upperHexDigit_value (d : N) :
  (d < 16)%N ->
  fromHexChar (upperHexDigit d) = Some d /\ upper_hex_digit (upperHexDigit d).
Proof.
  intros Hd.
  assert (H : In d [0; 1; 2; 3; 4; 5; 6; 7; 8; 9; 10; 11; 12; 13; 14; 15]%N).
  { cbn. lia. }
  cbn in H. unfold upper_hex_digit.
  repeat (destruct H as [ <- | H ];
          [split; [reflexivity | cbn; lia]|]).
  contradiction.
Qed.

Lemma hex_value_app (a b : string) (v : Z) :
  hex_value (a ++ b) v
  = match hex_value a v with
    | Some w => hex_value b w
    | None => None
    end.
Proof.
  revert v; induction a as [|c a IH]; intros v; [reflexivity|].
  cbn. destruct (fromHexChar c); [apply IH | reflexivity].
Qed.

Lemma upperHex_S (digits : nat) (n : Z) (acc : string) :
  upperHex (S digits) n acc
  = if n / 16 =? 0 then String (upperHexDigit (Z.to_N (n mod 16))) acc
    else upperHex digits (n / 16)
           (String (upperHexDigit (Z.to_N (n mod 16))) acc).
Proof. reflexivity. Qed.

Lemma upperHex_spec (digits : nat) :
  forall (n : Z) (acc : string),
    0 <= n < 16 ^ Z.of_nat (S digits) ->
    exists ds : string,
      upperHex (S digits) n acc = (ds ++ acc)%string /\
      hex_value ds 0 = Some n /\
      (forall c, In c (bytes_of_string ds) -> upper_hex_digit c) /\
      (0 < n -> exists c rest, ds = String c rest /\ c <> "0"%char) /\
      (n = 0 -> ds = "0"%string) /\
      1 <= len (bytes_of_string ds) <= Z.of_nat (S digits).
Proof.
  assert (Hone : forall (n : Z) (acc : string),
            0 <= n -> n / 16 = 0 ->
            let d := upperHexDigit (Z.to_N (n mod 16)) in
            hex_value (String d "") 0 = Some n /\
            (forall c, In c (bytes_of_string (String d "")) ->
                       upper_hex_digit c) /\
            (0 < n -> exists c rest, String d "" = String c rest /\
                                     c <> "0"%char) /\
            (n = 0 -> String d "" = "0"%string) /\
            len (bytes_of_string (String d "")) = 1).
  { intros n acc Hn Hq d.
    assert (Hmod : 0 <= n mod 16 < 16) by (apply Z.mod_pos_bound; lia).
    destruct (upperHexDigit_value (Z.to_N (n mod 16))) as [Hval Hup]; [lia|].
    fold d in Hval, Hup.
    assert (Hsmall : n = n mod 16)
      by (rewrite (Z.div_mod n 16) at 1; lia).
    split; [cbn; rewrite Hval; f_equal; lia|].
    split; [intros c [ <- | [] ]; exact Hup|].
    split.
    { intros Hpos. exists d, EmptyString. split; [reflexivity|].
      intros Hd. rewrite Hd in Hval.
      change (fromHexChar "0") with (Some 0%N) in Hval.
      injection Hval as Hval. lia. }
    split; [|reflexivity].
    intros H0. unfold d. rewrite H0. reflexivity. }
  induction digits as [|digits IH]; intros n acc Hn; rewrite upperHex_S.
  - assert (Hq : n / 16 = 0) by (apply Z.div_small; cbn in Hn; lia).
    rewrite Hq. cbn [Z.eqb].
    destruct (Hone n acc (proj1 Hn) Hq) as (H1 & H2 & H3 & H4 & H5).
    exists (String (upperHexDigit (Z.to_N (n mod 16))) "").
      split; [reflexivity|]. split; [exact H1|]. split; [exact H2|].
      split; [exact H3|]. split; [exact H4|]. rewrite H5. lia.
  - destruct (Z.eqb_spec (n / 16) 0) as [Hq|Hq].
    + destruct (Hone n acc (proj1 Hn) Hq) as (H1 & H2 & H3 & H4 & H5).
      exists (String (upperHexDigit (Z.to_N (n mod 16))) "").
      split; [reflexivity|]. split; [exact H1|]. split; [exact H2|].
      split; [exact H3|]. split; [exact H4|]. rewrite H5. lia.
    + assert (Hmod : 0 <= n mod 16 < 16) by (apply Z.mod_pos_bound; lia).
      destruct (upperHexDigit_value (Z.to_N (n mod 16))) as [Hval Hup]; [lia|].
      set (d := upperHexDigit (Z.to_N (n mod 16))) in *.
      assert (Hdiv : 0 <= n / 16 < 16 ^ Z.of_nat (S digits)).
      { split; [apply Z.div_pos; lia|].
        apply Z.div_lt_upper_bound; [lia|].
        replace (16 * 16 ^ Z.of_nat (S digits))
          with (16 ^ Z.of_nat (S (S digits))); [lia|].
        rewrite (Nat2Z.inj_succ (S digits)), Z.pow_succ_r; lia. }
      destruct (IH (n / 16) (String d acc) Hdiv)
        as (ds & Hds & Hv & Hall & Hlead & _ & Hlen).
      exists (ds ++ String d "")%string.
      split; [rewrite Hds, append_assoc; reflexivity|].
      split.
      { rewrite hex_value_app, Hv. cbn [hex_value]. rewrite Hval. f_equal.
        rewrite (Z.div_mod n 16) at 3; lia. }
      split.
      { intros c Hc. rewrite bytes_of_string_app in Hc.
        apply in_app_or in Hc. destruct Hc as [Hc|[ <- | [] ]]; auto. }
      split.
      { intros _. destruct Hlead as (c & rest & -> & Hc).
        - assert (0 <= n / 16) by (apply Z.div_pos; lia). lia.
        - exists c, (rest ++ String d "")%string.
          split; [reflexivity | exact Hc]. }
      split; [intros H0; subst n; cbn in Hq; lia|].
      rewrite bytes_of_string_app, len_app.
      change (len (bytes_of_string (String d ""))) with 1. lia.
Qed.

(** X19. [Address.String] is ["0x"] followed by between one and sixteen
    upper-case hexadecimal digits that read back as the address (modulo
    [2^64]), with no leading zero unless the address is zero, which gives
    ["0x0"]; so different addresses below [2^64] have different texts. *)
Theorem Address_String_spec (a : Z) :
  exists ds : string,
    Address_String a = ("0x" ++ ds)%string /\
    hex_value ds 0 = Some (wrap64 a) /\
    (forall c, In c (bytes_of_string ds) -> upper_hex_digit c) /\
    1 <= len (bytes_of_string ds) <= 16 /\
    (wrap64 a = 0 -> ds = "0"%string) /\
    (0 < wrap64 a -> exists c rest, ds = String c rest /\ c <> "0"%char) /\
    (forall b, Address_String b = Address_String a -> wrap64 b = wrap64 a).
Proof.
  assert (Hspec : forall x, exists ds,
            Address_String x = ("0x" ++ ds)%string /\
            hex_value ds 0 = Some (wrap64 x) /\
            (forall c, In c (bytes_of_string ds) -> upper_hex_digit c) /\
            (0 < wrap64 x ->
             exists c rest, ds = String c rest /\ c <> "0"%char) /\
            (wrap64 x = 0 -> ds = "0"%string) /\
            1 <= len (bytes_of_string ds) <= 16).
  { intros x. pose proof (wrap64_range x) as Hx.
    destruct (upperHex_spec 15 (wrap64 x) "") as (ds & Hds & H).
    { change (16 ^ Z.of_nat 16) with (2 ^ 64). exact Hx. }
    exists ds. split; [|exact H].
    unfold Address_String, Sprintf_X. rewrite Hds, append_nil_r.
    reflexivity. }
  destruct (Hspec a) as (ds & Hds & Hv & Hall & Hlead & Hzero & Hlen).
  exists ds. split; [exact Hds|]. split; [exact Hv|]. split; [exact Hall|].
  split; [exact Hlen|]. split; [exact Hzero|]. split; [exact Hlead|].
  intros b Hb. destruct (Hspec b) as (ds' & Hds' & Hv' & _).
  rewrite Hds, Hds' in Hb. injection Hb as ->. congruence.
Qed.

(** The package's test of [Address.String]. *)
Example Address_String_tests :
  Address_String 0 = "0x0"%string /\
  Address_String 0x1234 = "0x1234"%string /\
  Address_String 0x7FFFFFFFFFFF = "0x7FFFFFFFFFFF"%string.
Proof. repeat split; reflexivity. Qed.

(** ** The text of a match *)

(** [unicode/utf8]: what a lead byte announces, the number of bytes of
    the encoding and the range its second byte has to lie in; [None] for
    a byte that cannot start an encoding of more than one byte. *)
Definition utf8_lead (n : N) : option (nat * N * N) :=
  if ((194 <=? n) && (n <=? 223))%N then Some (2%nat, 128, 191)%N
  else if (n =? 224)%N then Some (3%nat, 160, 191)%N
  else if ((225 <=? n) && (n <=? 236))%N then Some (3%nat, 128, 191)%N
  else if (n =? 237)%N then Some (3%nat, 128, 159)%N
  else if ((238 <=? n) && (n <=? 239))%N then Some (3%nat, 128, 191)%N
  else if (n =? 240)%N then Some (4%nat, 144, 191)%N
  else if ((241 <=? n) && (n <=? 243))%N then Some (4%nat, 128, 191)%N
  else if (n =? 244)%N then Some (4%nat, 128, 143)%N
  else None.

Definition in_range (b : byte) (lo hi : N) : bool :=
  ((lo <=? byte_val b) && (byte_val b <=? hi))%N.

(** The bytes after the lead byte are as the lead byte announces. *)
Definition utf8_tail (size : nat) (lo hi : N) (t : list byte) : bool :=
  match size, t with
  | 2%nat, b1 :: _ => in_range b1 lo hi
  | 3%nat, b1 :: b2 :: _ => in_range b1 lo hi && in_range b2 128 191
  | 4%nat, b1 :: b2 :: b3 :: _ =>
      in_range b1 lo hi && in_range b2 128 191 && in_range b3 128 191
  | _, _ => false
  end.

(** The width [utf8.DecodeRune] reports at the head of a non-empty
    string: the length of a well-formed encoding, and 1 for an ASCII byte
    and for anything malformed. *)
Definition rune_width (c : byte) (t : list byte) : nat :=
  match utf8_lead (byte_val c) with
  | Some (size, lo, hi) => if utf8_tail size lo hi t then size else 1%nat
  | None => 1%nat
  end.

(** [strings.ToValidUTF8(s, "")]: ASCII bytes and well-formed encodings are
    copied, every other byte is dropped.  [pending] counts the bytes of
    the encoding being copied that are still to come. *)
Fixpoint ToValidUTF8 (s : list byte) (pending : nat) : list byte :=
  match s with
  | [] => []
  | c :: t =>
      match pending with
      | S pending' => c :: ToValidUTF8 t pending'
      | O =>
          if (byte_val c <? 128)%N then c :: ToValidUTF8 t 0
          else
            match rune_width c t with
            | S (S more) => c :: ToValidUTF8 t (S more)
            | _ => ToValidUTF8 t 0
            end
      end
  end.

(** [Match.Content], as bytes. *)
Definition Content (m : Match) : list byte := ToValidUTF8 (elems (Data m)) 0.

(** [l] can be obtained from [s] by dropping elements. *)
Inductive subsequence {A : Type} : list A -> list A -> Prop :=
| sub_nil : subsequence [] []
| sub_keep (x : A) (l s : list A) :
    subsequence l s -> subsequence (x :: l) (x :: s)
| sub_drop (x : A) (l s : list A) :
    subsequence l s -> subsequence l (x :: s).

Lemma ToValidUTF8_subsequence (s : list byte) :
  forall pending : nat, subsequence (ToValidUTF8 s pending) s.
Proof.
  induction s as [|c t IH]; intros pending; cbn [ToValidUTF8];
    [constructor|].
  destruct pending as [|pending]; [|constructor; apply IH].
  destruct (byte_val c <? 128)%N; [constructor; apply IH|].
  destruct (rune_width c t) as [|[|more]]; constructor; apply IH.
Qed.

Lemma subsequence_length {A : Type} (l s : list A) :
  subsequence l s -> (List.length l <= List.length s)%nat.
Proof. induction 1; cbn; lia. Qed.

Lemma ToValidUTF8_pending (l rest : list byte) :
  ToValidUTF8 (l ++ rest) (List.length l) = l ++ ToValidUTF8 rest 0.
Proof.
  induction l as [|x l IH]; cbn [app List.length].
  - destruct rest; reflexivity.
  - cbn [ToValidUTF8]. now rewrite IH.
Qed.

Lemma utf8_lead_size (n : N) (size : nat) (lo hi : N) :
  utf8_lead n = Some (size, lo, hi) ->
  (128 <= n)%N /\ (size = 2 \/ size = 3 \/ size = 4)%nat.
Proof.
  unfold utf8_lead.
  repeat match goal with
         | |- context [if ?b then _ else _] => destruct b eqn:?
         end; intros H; try discriminate; injection H as <- <- <-;
    (split; [|auto]).
  all: repeat match goal with
         | H : (_ && _)%bool = true |- _ => apply andb_true_iff in H; destruct H
         | H : (_ <=? _)%N = true |- _ => apply N.leb_le in H
         | H : (_ =? _)%N = true |- _ => apply N.eqb_eq in H
         end; lia.
Qed.

(** A well-formed encoding is recognised from its own bytes: it has that
    many bytes, and whatever follows them does not change the width. *)
Lemma rune_width_own_bytes (c : byte) (t : list byte) (more : nat) :
  rune_width c t = S (S more) ->
  exists (l rest : list byte),
    t = l ++ rest /\ List.length l = S more /\
    (byte_val c <? 128)%N = false /\
    forall rest', rune_width c (l ++ rest') = S (S more).
Proof.
  unfold rune_width.
  destruct (utf8_lead (byte_val c)) as [[[size lo] hi]|] eqn:El;
    [|discriminate].
  destruct (utf8_lead_size _ _ _ _ El) as [Hc Hsize].
  assert (Hascii : (byte_val c <? 128)%N = false) by (apply N.ltb_ge; exact Hc).
  destruct (utf8_tail size lo hi t) eqn:Et; [|discriminate].
  intros Hw. subst size.
  destruct Hsize as [H|[H|H]]; injection H as ->.
  - destruct t as [|b1 t]; [discriminate|].
    exists [b1], t. repeat split; auto.
    intros rest'. cbn [app]. cbn in Et. cbn. now rewrite Et.
  - destruct t as [|b1 [|b2 t]]; try discriminate.
    exists [b1; b2], t. repeat split; auto.
    intros rest'. cbn [app]. cbn in Et. cbn. now rewrite Et.
  - destruct t as [|b1 [|b2 [|b3 t]]]; try discriminate.
    exists [b1; b2; b3], t. repeat split; auto.
    intros rest'. cbn [app]. cbn in Et. cbn. now rewrite Et.
Qed.

Lemma ToValidUTF8_idempotent_upto (k : nat) :
  forall s : list byte,
    (List.length s <= k)%nat ->
    ToValidUTF8 (ToValidUTF8 s 0) 0 = ToValidUTF8 s 0.
Proof.
  induction k as [|k IH]; intros s Hk.
  - destruct s; [reflexivity | cbn in Hk; lia].
  - destruct s as [|c t]; [reflexivity|]. cbn in Hk.
    cbn [ToValidUTF8].
    destruct (byte_val c <? 128)%N eqn:Ea.
    + cbn [ToValidUTF8]. rewrite Ea, IH; [reflexivity | lia].
    + destruct (rune_width c t) as [|[|more]] eqn:Ew;
        try (apply IH; lia).
      destruct (rune_width_own_bytes c t more Ew)
        as (l & rest & -> & Hl & _ & Hw).
      rewrite <- Hl, ToValidUTF8_pending.
      cbn [ToValidUTF8]. rewrite Ea, Hw, <- Hl, ToValidUTF8_pending.
      rewrite IH; [reflexivity|].
      rewrite length_app in Hk. lia.
Qed.

(** X20. [Match.Content] only drops bytes: its bytes are the bytes of
    [Data] with some left out, in the same order, so it is never longer
    than [Data]; data that is all ASCII comes back unchanged; and what
    comes back is stable, cleaning it again changes nothing. *)
Theorem Content_spec (m : Match) :
  subsequence (Content m) (elems (Data m)) /\
  len (Content m) <= len (elems (Data m)) /\
  (Forall (fun b => (byte_val b < 128)%N) (elems (Data m)) ->
   Content m = elems (Data m)) /\
  ToValidUTF8 (Content m) 0 = Content m.
Proof.
  unfold Content. split; [apply ToValidUTF8_subsequence|].
  split.
  { pose proof (subsequence_length _ _
                  (ToValidUTF8_subsequence (elems (Data m)) 0)).
    unfold len. lia. }
  split.
  - induction (elems (Data m)) as [|c t IH]; intros H; [reflexivity|].
    inversion H as [|? ? Hc Ht]; subst. cbn [ToValidUTF8].
    apply N.ltb_lt in Hc. rewrite Hc, IH; auto.
  - apply (ToValidUTF8_idempotent_upto (List.length (elems (Data m)))). lia.
Qed.

(** The package's test of [Content], and bytes it drops: a lone
    continuation byte, an encoding cut short, a surrogate. *)
Example Content_tests :
  Content {| Address := 0;
             Data := {| arr := 0; elems := bytes_of_string "Hello World" |} |}
  = bytes_of_string "Hello World" /\
  Content {| Address := 0; Data := {| arr := 0; elems := [] |} |} = [] /\
  ToValidUTF8 ["a"; "128"; "b"; "226"; "130"; "c"; "237"; "160"; "128";
               "226"; "130"; "172"]%char 0
  = ["a"; "b"; "c"; "226"; "130"; "172"]%char.
Proof. repeat split; reflexivity. Qed.

(** ** Finding processes by name *)

(** What [Process32First] and [Process32Next] answer: the next entry of
    the snapshot (executable name, already converted from UTF-16, and
    process id), the end of the snapshot, or another failure. *)
Inductive enum_result : Type :=
| Entry (exe : string) (id : Z)
| NoMoreFiles
| EnumFailed.

(** A snapshot: the answer of [Process32First] and the answer of the
    [k]-th call of [Process32Next], counted from zero. *)
Record Snapshot : Type := {
  Process32First : enum_result;
  Process32Next : nat -> enum_result
}.

Inductive find_error : Type :=
| ErrSnapshot                  (* "failed to create process snapshot" *)
| ErrEnumerate                 (* "failed to enumerate processes" *)
| ErrNotFound (name : string). (* "process not found: %s" *)

(** The snapshot that lists the given entries and then ends. *)
Definition entry_at (entries : list (string * Z)) (k : nat) : enum_result :=
  match nth_error entries k with
  | Some (exe, id) => Entry exe id
  | None => NoMoreFiles
  end.

Definition snapshot_of (entries : list (string * Z)) : Snapshot :=
  {| Process32First := entry_at entries 0;
     Process32Next := fun k => entry_at entries (S k) |}.

(** [strings.EqualFold] on names of ASCII characters: equality up to the
    case of letters. *)
Definition EqualFold_ascii (s t : string) : bool :=
  if list_eq_dec ascii_dec (map toUpperASCII (bytes_of_string s))
       (map toUpperASCII (bytes_of_string t))
  then true else false.

Section Processes.

(** [strings.EqualFold], equality under Unicode case folding. *)
Variable EqualFold : string -> string -> bool.

(** The [for] loop of [FindProcessesByName] with the entry at hand, at
    most [fuel] iterations of it; [k] calls of [Process32Next] have been
    made. *)
Fixpoint FindProcessesByName_loop (fuel : nat) (snapshot : Snapshot)
    (name : string) (k : nat) (exe : string) (id : Z) (pids : list Z)
    : run (list Z + find_error) :=
  match fuel with
  | O => Running
  | S fuel' =>
      let pids := if EqualFold exe name then pids ++ [id] else pids in
      match Process32Next snapshot k with
      | Entry exe' id' =>
          FindProcessesByName_loop fuel' snapshot name (S k) exe' id' pids
      | NoMoreFiles => Finished (inl pids)
      | EnumFailed => Finished (inr ErrEnumerate)
      end
  end.

Definition FindProcessesByName (fuel : nat)
    (CreateToolhelp32Snapshot : option Snapshot) (name : string)
    : run (list Z + find_error) :=
  match CreateToolhelp32Snapshot with
  | None => Finished (inr ErrSnapshot)
  | Some snapshot =>
      match Process32First snapshot with
      | Entry exe id =>
          match FindProcessesByName_loop fuel snapshot name 0 exe id [] with
          | Finished (inl pids) =>
              if len pids =? 0 then Finished (inr (ErrNotFound name))
              else Finished (inl pids)
          | other => other
          end
      | _ => Finished (inr ErrEnumerate)
      end
  end.

(** The ids of the entries whose name equals [name] under case folding. *)
Definition matching_ids (name : string) (entries : list (string * Z))
    : list Z :=
  map snd (filter (fun e => EqualFold (fst e) name) entries).

Lemma FindProcessesByName_loop_lists (name : string)
    (entries : list (string * Z)) :
  forall (rest : list (string * Z)) (k : nat) (exe : string) (id : Z)
         (pids : list Z) (fuel : nat),
    skipn k entries = (exe, id) :: rest ->
    (List.length rest < fuel)%nat ->
    FindProcessesByName_loop fuel (snapshot_of entries) name k exe id pids
    = Finished (inl (pids ++ matching_ids name ((exe, id) :: rest))).
Proof.
  induction rest as [|[exe' id'] rest IH]; intros k exe id pids fuel Hk Hfuel;
    (destruct fuel as [|fuel]; [cbn in Hfuel; lia|]);
    cbn [FindProcessesByName_loop snapshot_of Process32Next].
  - assert (Hnext : entry_at entries (S k) = NoMoreFiles).
    { unfold entry_at.
      replace (nth_error entries (S k)) with (@None (string * Z));
        [reflexivity|].
      symmetry. apply nth_error_None.
      assert (H : List.length (skipn k entries) = 1%nat) by now rewrite Hk.
      rewrite length_skipn in H. lia. }
    rewrite Hnext. unfold matching_ids. cbn.
    destruct (EqualFold exe name); cbn; [reflexivity | now rewrite app_nil_r].
  - assert (Hskip : skipn (S k) entries = (exe', id') :: rest).
    { change (S k) with (1 + k)%nat. rewrite <- skipn_skipn, Hk.
      reflexivity. }
    assert (Hnext : entry_at entries (S k) = Entry exe' id').
    { unfold entry_at.
      replace (nth_error entries (S k)) with (Some (exe', id'));
        [reflexivity|].
      rewrite <- (Nat.add_0_r (S k)), <- nth_error_skipn, Hskip.
      reflexivity. }
    rewrite Hnext.
    rewrite (IH (S k) exe' id' _ fuel Hskip); [|cbn in Hfuel; lia].
    f_equal. f_equal. unfold matching_ids. cbn [filter fst].
    destruct (EqualFold exe name); cbn [map snd app].
    + rewrite <- app_assoc. reflexivity.
    + reflexivity.
Qed.

Lemma FindProcessesByName_loop_result (snapshot : Snapshot) (name : string) :
  forall (fuel k : nat) (exe : string) (id : Z) (pids found : list Z),
    FindProcessesByName_loop fuel snapshot name k exe id pids
    = Finished (inl found) ->
    exists more : list Z,
      found = pids ++ more /\
      forall p, In p more ->
        (p = id /\ EqualFold exe name = true) \/
        exists j exe', Process32Next snapshot j = Entry exe' p /\
                       EqualFold exe' name = true.
Proof.
  induction fuel as [|fuel IH]; intros k exe id pids found H;
    [discriminate|].
  cbn [FindProcessesByName_loop] in H.
  destruct (Process32Next snapshot k) as [exe' id'| |] eqn:En;
    [|injection H as <-|discriminate].
  - apply IH in H. destruct H as (more & -> & Hmore).
    destruct (EqualFold exe name) eqn:Ef.
    + exists (id :: more). rewrite <- app_assoc. split; [reflexivity|].
      intros p [ <- | Hp]; [now left|].
      right. destruct (Hmore p Hp) as [[-> Hf]|H]; [eauto | exact H].
    + exists more. split; [reflexivity|].
      intros p Hp. right.
      destruct (Hmore p Hp) as [[-> Hf]|H]; [eauto | exact H].
  - destruct (EqualFold exe name) eqn:Ef.
    + exists [id]. split; [reflexivity|]. intros p [ <- | []]. now left.
    + exists []. split; [now rewrite app_nil_r | intros p []].
Qed.

End Processes.

(** X21. On a snapshot that lists its entries and then ends,
    [FindProcessesByName] returns the ids of exactly the entries whose
    name equals [name] up to case, in the order of the snapshot; when
    there is none it fails with "process not found", and on a snapshot
    without any entry it fails with "failed to enumerate processes",
    because [Process32First] already reports the end. *)
Theorem FindProcessesByName_lists_matches
    (EqualFold : string -> string -> bool) (name : string)
    (entries : list (string * Z)) :
  FindProcessesByName EqualFold (List.length entries)
    (Some (snapshot_of entries)) name
  = match entries, matching_ids EqualFold name entries with
    | [], _ => Finished (inr ErrEnumerate)
    | _ :: _, [] => Finished (inr (ErrNotFound name))
    | _ :: _, pids => Finished (inl pids)
    end.
Proof.
  unfold FindProcessesByName. cbn [snapshot_of Process32First].
  destruct entries as [|[exe id] rest]; [reflexivity|].
  cbn [entry_at nth_error].
  rewrite (FindProcessesByName_loop_lists EqualFold name ((exe, id) :: rest)
             rest 0 exe id [] (List.length ((exe, id) :: rest)) eq_refl);
    [|cbn; lia].
  cbn [app].
  destruct (matching_ids EqualFold name ((exe, id) :: rest)) as [|p pids];
    [reflexivity|].
  unfold len. cbn [List.length].
  destruct (Z.eqb_spec (Z.of_nat (S (List.length pids))) 0); [lia|reflexivity].
Qed.

(** X22. Whatever the enumeration answers, a list of process ids that
    [FindProcessesByName] returns without error is never empty, and every
    id in it belongs to an entry the snapshot reported whose name equals
    [name] up to case. *)
Theorem FindProcessesByName_result (EqualFold : string -> string -> bool)
    (fuel : nat) (snapshot : Snapshot) (name : string) (pids : list Z) :
  FindProcessesByName EqualFold fuel (Some snapshot) name
  = Finished (inl pids) ->
  pids <> [] /\
  forall p, In p pids ->
    exists exe,
      EqualFold exe name = true /\
      (Process32First snapshot = Entry exe p \/
       exists j, Process32Next snapshot j = Entry exe p).
Proof.
  unfold FindProcessesByName.
  destruct (Process32First snapshot) as [exe id| |]; try discriminate.
  destruct (FindProcessesByName_loop EqualFold fuel snapshot name 0 exe id [])
    as [[found|e]| |] eqn:E; try discriminate.
  destruct (Z.eqb_spec (len found) 0) as [H0|H0]; [discriminate|].
  intros H. injection H as <-.
  split; [intros ->; apply H0; reflexivity|].
  apply FindProcessesByName_loop_result in E.
  destruct E as (more & -> & Hmore). cbn [app].
  intros p Hp. destruct (Hmore p Hp) as [[-> Hf]|(j & exe' & Hj & Hf)].
  - exists exe. split; [exact Hf | now left].
  - exists exe'. split; [exact Hf | right; eauto].
Qed.

Lemma FindProcessesByName_result_witness :
  FindProcessesByName EqualFold_ascii 3
    (Some (snapshot_of [("explorer.exe"%string, 4);
                        ("WeChatAppEx.exe"%string, 7);
                        ("wechatappex.EXE"%string, 9)]))
    "WeChatAppEx.exe" = Finished (inl [7; 9]) /\
  ([7; 9] <> [] /\
   forall p, In p [7; 9] ->
     exists exe,
       EqualFold_ascii exe "WeChatAppEx.exe" = true /\
       (Process32First (snapshot_of [("explorer.exe"%string, 4);
                                     ("WeChatAppEx.exe"%string, 7);
                                     ("wechatappex.EXE"%string, 9)])
        = Entry exe p \/
        exists j,
          Process32Next (snapshot_of [("explorer.exe"%string, 4);
                                      ("WeChatAppEx.exe"%string, 7);
                                      ("wechatappex.EXE"%string, 9)]) j
          = Entry exe p)).
Proof.
  split; [reflexivity|].
  apply (FindProcessesByName_result EqualFold_ascii 3
           (snapshot_of [("explorer.exe"%string, 4);
                         ("WeChatAppEx.exe"%string, 7);
                         ("wechatappex.EXE"%string, 9)])
           "WeChatAppEx.exe" [7; 9]).
  reflexivity.
Defined.
